(** * adifi: the pixel-processing core, embedded and verified

    A shallow embedding of the per-pixel services of the photo editor
    ([imageAnalysis.ts], the sharpening service, [autoCrop.ts] and
    [colorAnalysis.ts]) together with the properties the design document
    states about them.

    Number model.  A JavaScript [number] is an IEEE double.  Here a number
    that is always integral in the source (byte values, pixel coordinates,
    histogram counts, sums of bytes) is a [Z], and any other number is an
    exact rational [Q].  [Math.sqrt] is not rational; the functions that
    call it take it as the section variable [Msqrt].  Every concrete input
    evaluated below stays far away from the rounding boundaries of the
    source, so that the double computation and the exact one agree on it. *)

From Stdlib Require Import ZArith QArith Qround Qminmax Qabs Lia Lqa.
From stdpp Require Import base tactics option list list_numbers strings.

Local Open Scope Z_scope.

(** ** JavaScript primitives *)

Module JS.

(** [Math.round]: the nearest integer, halves towards plus infinity. *)
Definition Math_round (q : Q) : Z := Qfloor (q + (1 # 2)).

(** [Math.floor]. *)
Definition Math_floor (q : Q) : Z := Qfloor q.

(** [a[i]] for a typed array or an array of numbers; [None] is the
    [undefined] that an index outside of the array reads. *)
Definition aget (a : list Z) (i : Z) : option Z :=
  if i <? 0 then None else a !! Z.to_nat i.

(** [a[i]] as a number, for the two uses where [undefined] needs no case
    of its own: the loops that step through an [ImageData] by whole
    pixels, whose reads are all inside the array, and the reads whose
    value goes straight into a [Uint8ClampedArray], which stores
    [undefined] as [0]. *)
Definition rd (a : list Z) (i : Z) : Z := default 0 (aget a i).

(** [a[i] = v] for a typed array: a store outside of the array is
    dropped, the array never grows. *)
Definition aset (a : list Z) (i : Z) (v : Z) : list Z :=
  if i <? 0 then a else <[Z.to_nat i := v]> a.

(** [a[i]++] for an array of counters. *)
Definition aincr (a : list Z) (i : Z) : list Z :=
  if i <? 0 then a else alter Z.succ (Z.to_nat i) a.

(** The conversion a [Uint8ClampedArray] applies to a stored number:
    clamp to [0, 255], then round to the nearest integer, halves to the
    even neighbour. *)
Definition ToUint8Clamp (q : Q) : Z :=
  if Qle_bool q 0 then 0
  else if Qle_bool 255 q then 255
  else
    let f := Qfloor q in
    let d := (q - inject_Z f)%Q in
    if Qle_bool d (1 # 2)
    then (if Qeq_bool d (1 # 2) then (if Z.even f then f else f + 1) else f)
    else f + 1.

(** What the source can throw; [NotEnoughValidPixels n k] is
    [Error(`Not enough valid pixels (${n}) for ${k} clusters`)]. *)
Inductive exn :=
| RangeError
| TypeError
| IndexSizeError
| InvalidStateError
| NotEnoughValidPixels (n k : Z).

Inductive result (A : Type) :=
| Ok (a : A)
| Throw (e : exn).
Global Arguments Ok {A} a.
Global Arguments Throw {A} e.

(** Truncation towards zero, and the conversion to [unsigned long]. *)
Definition Qtrunc (q : Q) : Z :=
  if Qle_bool 0 q then Qfloor q else - Qfloor (- q).

Definition ToUint32 (q : Q) : Z := Qtrunc q `mod` 2 ^ 32.

Definition isInt (q : Q) : bool := Qeq_bool (inject_Z (Qfloor q)) q.

(** An element access with a number that need not be integral: a
    fractional key names no element. *)
Definition agetQ (a : list Z) (i : Q) : option Z :=
  if isInt i then aget a (Qfloor i) else None.

Definition asetQ (a : list Z) (i : Q) (v : Z) : list Z :=
  if isInt i then aset a (Qfloor i) v else a.

(** [new Uint8ClampedArray(n)]: [n] zero bytes. *)
Definition zeros (n : Z) : list Z := replicate (Z.to_nat n) 0.

(** [new Uint8ClampedArray(n)] for any number [n]: the length is [n]
    truncated, and a negative length is a [RangeError]. *)
Definition newUint8ClampedArray (n : Q) : result (list Z) :=
  let len := Qtrunc n in
  if len <? 0 then Throw RangeError else Ok (zeros len).

(** The values of [i] in [for (let i = lo; i < hi; i++)]. *)
Definition for_range (lo hi : Z) : list Z := seqZ lo (hi - lo).

(** The values of [i] in [for (let i = 0; i < hi; i += step)], [step > 0]. *)
Definition for_step (hi step : Z) : list Z :=
  (fun j => j * step) <$> seqZ 0 ((hi + step - 1) `div` step).

End JS.
Import JS.

(** ** The platform's ImageData *)

Module DOM.

(** [ImageData]: [width * height] RGBA pixels, row-major, in a
    [Uint8ClampedArray]. *)
Record ImageData := mkImageData {
  data : list Z;
  width : Z;
  height : Z
}.

Definition is_byte (v : Z) : bool := (0 <=? v) && (v <=? 255).

(** What the platform guarantees of every [ImageData]: positive
    dimensions, four bytes per pixel. *)
Definition wf_image (img : ImageData) : bool :=
  (0 <? width img) && (0 <? height img)
  && (Z.of_nat (length (data img)) =? width img * height img * 4)
  && forallb is_byte (data img).

(** [new ImageData(data, sw, sh)]: [sw] and [sh] are converted to
    [unsigned long]; the constructor throws unless [data] holds a
    positive number of whole pixels, in rows of [sw], [sh] of them. *)
Definition newImageData (d : list Z) (sw sh : Q) : result ImageData :=
  let len := Z.of_nat (length d) in
  if (len =? 0) || negb (len `mod` 4 =? 0) then Throw InvalidStateError
  else
    let len := len `div` 4 in
    let sw := ToUint32 sw in
    let sh := ToUint32 sh in
    if (sw =? 0) || negb (len `mod` sw =? 0) then Throw IndexSizeError
    else if negb (len `div` sw =? sh) then Throw IndexSizeError
    else Ok (mkImageData d sw sh).

End DOM.

(** ** imageAnalysis.ts *)

Module ImageAnalysis.

Record HistogramData := mkHistogramData {
  luminance : list Z;
  red : list Z;
  green : list Z;
  blue : list Z
}.

Record ImageAnalysisResult := mkImageAnalysisResult {
  averageLuminance : Q;
  contrastLevel : Q;
  saturationLevel : Q;
  recommendedBrightness : Q;
  recommendedContrast : Q;
  recommendedSaturation : Q
}.

(** [Math.round(0.299 * r + 0.587 * g + 0.114 * b)] *)
Definition pixelLuminance (r g b : Z) : Z :=
  Math_round ((299 # 1000) * inject_Z r + (587 # 1000) * inject_Z g
              + (114 # 1000) * inject_Z b)%Q.

(** [max === 0 ? 0 : (max - min) / max] *)
Definition pixelSaturation (r g b : Z) : Q :=
  let max := Z.max (Z.max r g) b in
  let min := Z.min (Z.min r g) b in
  if max =? 0 then 0%Q else (inject_Z (max - min) / inject_Z max)%Q.

(** The loop state: the histograms, [totalLuminance], [totalSaturation]. *)
Definition accum : Type := HistogramData * Z * Q.

Definition accum0 : accum :=
  (mkHistogramData (replicate 256 0) (replicate 256 0)
                   (replicate 256 0) (replicate 256 0), 0, 0%Q).

(** One iteration of the loop over the pixels, at byte offset [i]. *)
Definition histogramStep (d : list Z) (st : accum) (i : Z) : accum :=
  let '(histogram, totalLuminance, totalSaturation) := st in
  let r := rd d i in
  let g := rd d (i + 1) in
  let b := rd d (i + 2) in
  let alpha := rd d (i + 3) in
  if alpha =? 0 then st
  else
    let lum := pixelLuminance r g b in
    (mkHistogramData (aincr (luminance histogram) lum)
                     (aincr (red histogram) r)
                     (aincr (green histogram) g)
                     (aincr (blue histogram) b),
     totalLuminance + lum,
     (totalSaturation + pixelSaturation r g b)%Q).

Definition buildHistogram (d : list Z) : accum :=
  foldl (histogramStep d) accum0 (for_step (Z.of_nat (length d)) 4).

(** One of the two scans of [calculateContrastLevel]: walk the bins
    [idxs], adding up, and stop at the first bin where the running count
    is above the threshold. *)
Fixpoint significantBin (threshold : Q) (h : list Z) (idxs : list Z)
    (cumulative : Z) : option Z :=
  match idxs with
  | [] => None
  | i :: rest =>
      let cumulative := cumulative + rd h i in
      if Qlt_le_dec threshold (inject_Z cumulative) then Some i
      else significantBin threshold h rest cumulative
  end.

Definition histogramTotal (h : list Z) : Z := foldl Z.add 0 h.

Definition minSignificantOf (h : list Z) : Z :=
  let threshold := (inject_Z (histogramTotal h) * (1 # 100))%Q in
  default 0 (significantBin threshold h (for_range 0 256) 0).

Definition maxSignificantOf (h : list Z) : Z :=
  let threshold := (inject_Z (histogramTotal h) * (1 # 100))%Q in
  default 255 (significantBin threshold h (reverse (for_range 0 256)) 0).

Definition calculateContrastLevel (luminanceHistogram : list Z) : Q :=
  (inject_Z (maxSignificantOf luminanceHistogram
             - minSignificantOf luminanceHistogram) / 255)%Q.

Definition calculateBrightnessAdjustment (averageLuminance : Q) : Q :=
  let difference := (128 - averageLuminance)%Q in
  Qmax (-80) (Qmin 80 (difference / 128 * 60))%Q.

Definition calculateContrastAdjustment (contrastLevel : Q) : Q :=
  let difference := ((8 # 10) - contrastLevel)%Q in
  if Qlt_le_dec 0 difference then Qmin 50 (difference * 100)
  else Qmax (-20) (difference * 50).

Definition calculateSaturationAdjustment (averageSaturation : Q) : Q :=
  let difference := ((4 # 10) - averageSaturation)%Q in
  if Qlt_le_dec 0 difference then Qmin 40 (difference * 150)
  else if Qlt_le_dec (6 # 10) averageSaturation
       then Qmax (-20) (difference * 100)
       else 0%Q.

(** [analyzeImageHistogram].  [pixelCount] is positive for every
    [ImageData], so both averages are finite; the four histograms enter the
    result through [calculateContrastLevel] only. *)
Definition analyzeImageHistogram (imageData : DOM.ImageData) : ImageAnalysisResult :=
  let pixelCount := DOM.width imageData * DOM.height imageData in
  let '(histogram, totalLuminance, totalSaturation) :=
    buildHistogram (DOM.data imageData) in
  let averageLuminance := (inject_Z totalLuminance / inject_Z pixelCount)%Q in
  let averageSaturation := (totalSaturation / inject_Z pixelCount)%Q in
  let contrastLevel := calculateContrastLevel (luminance histogram) in
  mkImageAnalysisResult
    averageLuminance contrastLevel averageSaturation
    (calculateBrightnessAdjustment averageLuminance)
    (calculateContrastAdjustment contrastLevel)
    (calculateSaturationAdjustment averageSaturation).

(** The statistics as the design document words them: the pixels of the
    buffer with a non-zero alpha, and the means over that set. *)
Definition opaqueOffsets (d : list Z) : list Z :=
  filter (fun i => rd d (i + 3) ≠ 0) (for_step (Z.of_nat (length d)) 4).

Definition luminanceAt (d : list Z) (i : Z) : Z :=
  pixelLuminance (rd d i) (rd d (i + 1)) (rd d (i + 2)).

Definition saturationAt (d : list Z) (i : Z) : Q :=
  pixelSaturation (rd d i) (rd d (i + 1)) (rd d (i + 2)).

Definition specAverageLuminance (d : list Z) : Q :=
  let px := opaqueOffsets d in
  let total := foldr Z.add 0 (luminanceAt d <$> px) in
  (inject_Z total / inject_Z (Z.of_nat (length px)))%Q.

Definition specSaturationLevel (d : list Z) : Q :=
  let px := opaqueOffsets d in
  let total := foldr Qplus 0%Q (saturationAt d <$> px) in
  (total / inject_Z (Z.of_nat (length px)))%Q.

End ImageAnalysis.

(** ** The sharpening service *)

Module Sharpening.

(** [SharpeningOptions.method] *)
Inductive Method := unsharp | laplacian | edge_enhance.

(** A number that may be [NaN] ([None]): what arithmetic on an
    [undefined] array element gives. *)
Definition num (A : Type) : Type := option A.

(** Storing a number in a [Uint8ClampedArray]; [NaN] is stored as [0]. *)
Definition store (v : num Q) : Z := from_option ToUint8Clamp 0 v.

(** [Math.max(0, Math.min(255, v))] *)
Definition clamp255 (v : Q) : Q := Qmax 0 (Qmin 255 v).

(** The two loops [for y in 1 .. height - 2], [for x in 1 .. width - 2]
    around a body that updates the state [a]. *)
Definition interior {A : Type} (width height : Z) (body : Z -> Z -> A -> A)
    (a : A) : A :=
  foldl (fun a y => foldl (fun a x => body y x a) a (for_range 1 (width - 1)))
        a (for_range 1 (height - 1)).

(** The loop [for c in 0 .. 2] over the colour channels. *)
Definition channels {A : Type} (body : Z -> A -> A) (a : A) : A :=
  foldl (fun a c => body c a) a (for_range 0 3).

(** The loops over [ky] and [kx] with the running kernel index [ki],
    around a body that updates the sums [st]. *)
Definition neighbourhood {A : Type} (width x y c : Z)
    (body : Z -> Z -> A -> A) (st : A) : A :=
  fst (foldl (fun st ky =>
                foldl (fun '(sums, ki) kx =>
                         let pixelIndex := ((y + ky) * width + (x + kx)) * 4 + c in
                         (body pixelIndex ki sums, ki + 1))
                      st (for_range (-1) 2))
             (st, 0) (for_range (-1) 2)).

(** [sum += original[pixelIndex] * kernel[ki]] *)
Definition mac (original kernel : list Z) (pixelIndex ki : Z) (sum : num Z)
    : num Z :=
  s ← sum; v ← aget original pixelIndex; k ← aget kernel ki; Some (s + v * k).

Definition convolve (original : list Z) (width x y c : Z) (kernel : list Z)
    : num Z :=
  neighbourhood width x y c (mac original kernel) (Some 0).

Definition gaussianKernel : list Z := [1; 2; 1; 2; 4; 2; 1; 2; 1].
Definition kernelSum : Q := 16.
Definition laplacianKernel : list Z := [0; -1; 0; -1; 5; -1; 0; -1; 0].
Definition sobelX : list Z := [-1; 0; 1; -2; 0; 2; -1; 0; 1].
Definition sobelY : list Z := [-1; -2; -1; 0; 0; 0; 1; 2; 1].

Definition numQ (v : num Z) : num Q := inject_Z <$> v.

(** The copy of the alpha channel that ends the body of each pixel. *)
Definition copyAlpha (original : list Z) (width y x : Z) (result : list Z)
    : list Z :=
  let alphaIndex := (y * width + x) * 4 + 3 in
  aset result alphaIndex (store (numQ (aget original alphaIndex))).

(** First pass of [applyUnsharpMask]: the blurred image. *)
Definition gaussianBlur (original : list Z) (width height : Z) : list Z :=
  interior width height
    (fun y x =>
       channels (fun c blurred =>
         let sum := convolve original width x y c gaussianKernel in
         let blurredIndex := (y * width + x) * 4 + c in
         aset blurred blurredIndex
              (store ((fun s => inject_Z s / kernelSum)%Q <$> sum))))
    (zeros (Z.of_nat (length original))).

Definition applyUnsharpMask (original result : list Z) (width height : Z)
    (intensity : Q) : list Z :=
  let blurred := gaussianBlur original width height in
  interior width height
    (fun y x result =>
       copyAlpha original width y x
         (channels (fun c result =>
            let index := (y * width + x) * 4 + c in
            let sharpened :=
              originalValue ← numQ (aget original index);
              blurredValue ← numQ (aget blurred index);
              let difference := (originalValue - blurredValue)%Q in
              Some (originalValue + difference * intensity)%Q in
            aset result index (store (clamp255 <$> sharpened)))
          result))
    result.

Definition applyLaplacianSharpening (original result : list Z)
    (width height : Z) (intensity : Q) : list Z :=
  interior width height
    (fun y x result =>
       copyAlpha original width y x
         (channels (fun c result =>
            let sum := convolve original width x y c laplacianKernel in
            let currentIndex := (y * width + x) * 4 + c in
            let enhanced :=
              s ← numQ sum;
              o ← numQ (aget original currentIndex);
              Some (o + (s - o) * intensity * (3 # 10))%Q in
            aset result currentIndex (store (clamp255 <$> enhanced)))
          result))
    result.

Section WithSqrt.

(** [Math.sqrt] *)
Variable Msqrt : Q -> Q.

Definition applyEdgeEnhancement (original result : list Z)
    (width height : Z) (intensity : Q) : list Z :=
  interior width height
    (fun y x result =>
       copyAlpha original width y x
         (channels (fun c result =>
            let '(gradientX, gradientY) :=
              neighbourhood width x y c
                (fun pixelIndex ki '(gradientX, gradientY) =>
                   (mac original sobelX pixelIndex ki gradientX,
                    mac original sobelY pixelIndex ki gradientY))
                (Some 0, Some 0) in
            let currentIndex := (y * width + x) * 4 + c in
            let enhanced :=
              gx ← gradientX;
              gy ← gradientY;
              o ← numQ (aget original currentIndex);
              let edge := Msqrt (inject_Z (gx * gx + gy * gy)) in
              Some (o + edge * intensity * (2 # 10))%Q in
            aset result currentIndex (store (clamp255 <$> enhanced)))
          result))
    result.

(** The copy loop of [sharpenImage] into the fresh [ImageData]. *)
Definition copyData (d : list Z) (newData : list Z) : list Z :=
  foldl (fun newData i => aset newData i (store (numQ (aget d i))))
        newData (for_range 0 (Z.of_nat (length d))).

(** [sharpenImage]; its result here is the field [imageData] of the
    [SharpeningResult] ([processingTime] is wall-clock time and
    [method] is the argument). *)
Definition sharpenImage (imageData : DOM.ImageData) (intensity : Q)
    (method : Method) : DOM.ImageData :=
  let d := DOM.data imageData in
  let w := DOM.width imageData in
  let h := DOM.height imageData in
  let newData := copyData d (zeros (w * h * 4)) in
  let newData :=
    match method with
    | unsharp => applyUnsharpMask d newData w h intensity
    | laplacian => applyLaplacianSharpening d newData w h intensity
    | edge_enhance => applyEdgeEnhancement d newData w h intensity
    end in
  DOM.mkImageData newData w h.

(** The Sobel sums of [analyzeImageSharpness], both over the red
    channel (offset [0] of each pixel). *)
Definition redAt (d : list Z) (width y x : Z) : num Z :=
  aget d ((y * width + x) * 4).

Definition sobelGx {A} (at_ : Z -> Z -> num A) (add : A -> A -> A)
    (scale : Z -> A -> A) (y x : Z) : num A :=
  a ← at_ (y - 1) (x - 1); b ← at_ (y - 1) (x + 1);
  c ← at_ y (x - 1); d ← at_ y (x + 1);
  e ← at_ (y + 1) (x - 1); f ← at_ (y + 1) (x + 1);
  Some (add (add (add (add (add (scale (-1) a) (scale 1 b)) (scale (-2) c))
                      (scale 2 d)) (scale (-1) e)) (scale 1 f)).

Definition sobelGy {A} (at_ : Z -> Z -> num A) (add : A -> A -> A)
    (scale : Z -> A -> A) (y x : Z) : num A :=
  a ← at_ (y - 1) (x - 1); b ← at_ (y - 1) x; c ← at_ (y - 1) (x + 1);
  d ← at_ (y + 1) (x - 1); e ← at_ (y + 1) x; f ← at_ (y + 1) (x + 1);
  Some (add (add (add (add (add (scale (-1) a) (scale (-2) b)) (scale (-1) c))
                      (scale 1 d)) (scale 2 e)) (scale 1 f)).

(** [data[idx + 3] < 128]; the comparison is false on [undefined]. *)
Definition transparent (d : list Z) (idx : Z) : bool :=
  from_option (fun a => a <? 128) false (aget d (idx + 3)).

(** The body of the loops of [analyzeImageSharpness].  The source
    computes [gray] from the three channels of the centre pixel and
    never reads it: [gx] and [gy] are sums of red samples. *)
Definition sharpnessStep (d : list Z) (width : Z) (y x : Z)
    (st : num Q * Z) : num Q * Z :=
  let '(edgeStrength, pixelCount) := st in
  let idx := (y * width + x) * 4 in
  if transparent d idx then st
  else
    let gx := sobelGx (redAt d width) Z.add Z.mul y x in
    let gy := sobelGy (redAt d width) Z.add Z.mul y x in
    (e ← edgeStrength; gx ← gx; gy ← gy;
     Some (e + Msqrt (inject_Z (gx * gx + gy * gy)))%Q,
     pixelCount + 1).

(** [Math.min(100, Math.max(0, avgEdgeStrength / 3))]; [0 / 0] is
    [NaN], and so is then the result. *)
Definition normalizeSharpness (edgeStrength : num Q) (pixelCount : Z)
    : num Q :=
  e ← edgeStrength;
  if pixelCount =? 0 then None
  else
    let avgEdgeStrength := (e / inject_Z pixelCount)%Q in
    Some (Qmin 100 (Qmax 0 (avgEdgeStrength / 3))).

Definition analyzeImageSharpness (imageData : DOM.ImageData) : num Q :=
  let '(edgeStrength, pixelCount) :=
    interior (DOM.width imageData) (DOM.height imageData)
             (sharpnessStep (DOM.data imageData) (DOM.width imageData))
             (Some 0%Q, 0) in
  normalizeSharpness edgeStrength pixelCount.

(** The scorer as the design document words it: the same loops, with
    the Sobel sums taken over the grayscale conversion
    [0.299 R + 0.587 G + 0.114 B] of the pixels. *)
Definition grayAt (d : list Z) (width y x : Z) : num Q :=
  let idx := (y * width + x) * 4 in
  r ← aget d idx; g ← aget d (idx + 1); b ← aget d (idx + 2);
  Some ((299 # 1000) * inject_Z r + (587 # 1000) * inject_Z g
        + (114 # 1000) * inject_Z b)%Q.

Definition specSharpnessStep (d : list Z) (width : Z) (y x : Z)
    (st : num Q * Z) : num Q * Z :=
  let '(edgeStrength, pixelCount) := st in
  let idx := (y * width + x) * 4 in
  if transparent d idx then st
  else
    let scale := fun (k : Z) (v : Q) => (inject_Z k * v)%Q in
    let gx := sobelGx (grayAt d width) Qplus scale y x in
    let gy := sobelGy (grayAt d width) Qplus scale y x in
    (e ← edgeStrength; gx ← gx; gy ← gy;
     Some (e + Msqrt (gx * gx + gy * gy))%Q,
     pixelCount + 1).

Definition specSharpness (imageData : DOM.ImageData) : num Q :=
  let '(edgeStrength, pixelCount) :=
    interior (DOM.width imageData) (DOM.height imageData)
             (specSharpnessStep (DOM.data imageData) (DOM.width imageData))
             (Some 0%Q, 0) in
  normalizeSharpness edgeStrength pixelCount.

End WithSqrt.

End Sharpening.

(** ** autoCrop.ts *)

Module AutoCrop.

Record CropBounds := mkCropBounds {
  x : Q;
  y : Q;
  width : Q;
  height : Q
}.

(** [AutoCropOptions]; an absent field is [None]. *)
Record AutoCropOptions := mkAutoCropOptions {
  paddingPercentage : option Q;
  minCropSize : option Q
}.

(** The scan state of [findSubjectBounds]. *)
Record Extent := mkExtent {
  minX : Z;
  maxX : Z;
  minY : Z;
  maxY : Z;
  subjectPixelCount : Z
}.

Definition subjectStep (segmentation : list Z) (width : Z) (y x : Z)
    (e : Extent) : Extent :=
  let index := y * width + x in
  match aget segmentation index with
  | Some 1 =>
      mkExtent (Z.min (minX e) x) (Z.max (maxX e) x)
               (Z.min (minY e) y) (Z.max (maxY e) y)
               (subjectPixelCount e + 1)
  | _ => e
  end.

Definition scanSubject (segmentation : list Z) (width height : Z) : Extent :=
  foldl (fun e y =>
           foldl (fun e x => subjectStep segmentation width y x e)
                 e (for_range 0 width))
        (mkExtent width 0 height 0 0) (for_range 0 height).

(** [findSubjectBounds]; [None] is [null]. *)
Definition findSubjectBounds (segmentation : list Z) (width height : Z)
    : option CropBounds :=
  let e := scanSubject segmentation width height in
  if subjectPixelCount e =? 0 then None
  else Some (mkCropBounds (inject_Z (minX e)) (inject_Z (minY e))
                          (inject_Z (maxX e - minX e + 1))
                          (inject_Z (maxY e - minY e + 1))).

Definition applyCropPadding (bounds : CropBounds) (imageWidth imageHeight : Z)
    (paddingPercentage : Q) : CropBounds :=
  let paddingX := inject_Z (Math_round (width bounds * paddingPercentage)) in
  let paddingY := inject_Z (Math_round (height bounds * paddingPercentage)) in
  let px := Qmax 0 (x bounds - paddingX) in
  let py := Qmax 0 (y bounds - paddingY) in
  let pw := (width bounds + 2 * paddingX)%Q in
  let ph := (height bounds + 2 * paddingY)%Q in
  let pw := if Qlt_le_dec (inject_Z imageWidth) (px + pw)
            then (inject_Z imageWidth - px)%Q else pw in
  let ph := if Qlt_le_dec (inject_Z imageHeight) (py + ph)
            then (inject_Z imageHeight - py)%Q else ph in
  mkCropBounds px py pw ph.

(** [aspectRatio > 3 || aspectRatio < 0.33] for
    [aspectRatio = w / h].  A zero [h] makes the ratio infinite (and
    the test true) unless [w] is zero too, when it is [NaN] (and the
    test false). *)
Definition aspectTooExtreme (w h : Q) : bool :=
  if Qeq_bool h 0 then negb (Qeq_bool w 0)
  else
    let aspectRatio := (w / h)%Q in
    (if Qlt_le_dec 3 aspectRatio then true else false)
    || (if Qlt_le_dec aspectRatio (33 # 100) then true else false).

(** The fallback of [findOptimalCropBounds]: the centre crop. *)
Definition centerFallback (width height : Z) : CropBounds :=
  let cropSize := (inject_Z (Z.min width height) * (8 # 10))%Q in
  mkCropBounds
    (inject_Z (Math_round ((inject_Z width - cropSize) / 2)))
    (inject_Z (Math_round ((inject_Z height - cropSize) / 2)))
    cropSize cropSize.

(** The step "ensure minimum crop size".  Both sides of [bounds] are
    positive here for an image of positive size, so [scale] is finite. *)
Definition ensureMinimumSize (bounds : CropBounds) (minCropSize : Q)
    : CropBounds :=
  if (if Qlt_le_dec (width bounds) minCropSize then true else false)
     || (if Qlt_le_dec (height bounds) minCropSize then true else false)
  then
    let scale := Qmax (minCropSize / width bounds) (minCropSize / height bounds) in
    let newWidth := inject_Z (Math_round (width bounds * scale)) in
    let newHeight := inject_Z (Math_round (height bounds * scale)) in
    mkCropBounds
      (Qmax 0 (x bounds
               - inject_Z (Math_round ((newWidth - width bounds) / 2))))
      (Qmax 0 (y bounds
               - inject_Z (Math_round ((newHeight - height bounds) / 2))))
      newWidth newHeight
  else bounds.

(** The step "ensure aspect ratio is reasonable". *)
Definition normalizeAspect (bounds : CropBounds) : CropBounds :=
  if aspectTooExtreme (width bounds) (height bounds) then
    let targetSize := Qmin (width bounds) (height bounds) in
    let centerX := (x bounds + width bounds / 2)%Q in
    let centerY := (y bounds + height bounds / 2)%Q in
    mkCropBounds
      (Qmax 0 (inject_Z (Math_round (centerX - targetSize / 2))))
      (Qmax 0 (inject_Z (Math_round (centerY - targetSize / 2))))
      targetSize targetSize
  else bounds.

(** [findOptimalCropBounds]; the declared result type admits [null]
    ([None]), which no path returns. *)
Definition findOptimalCropBounds (segmentation : list Z) (width height : Z)
    (options : AutoCropOptions) : option CropBounds :=
  let paddingPercentage := default (15 # 100) (paddingPercentage options) in
  let minCropSize := default 100%Q (minCropSize options) in
  let bounds :=
    match findSubjectBounds segmentation width height with
    | Some bounds => bounds
    | None => centerFallback width height
    end in
  let bounds := ensureMinimumSize bounds minCropSize in
  let bounds := applyCropPadding bounds width height paddingPercentage in
  let bounds := normalizeAspect bounds in
  Some bounds.

(** The four stores that copy one pixel in [cropImageData]. *)
Definition copyPixel (originalData : list Z) (originalPixelIndex
    croppedPixelIndex : Q) (croppedData : list Z) : list Z :=
  foldl (fun croppedData c =>
           asetQ croppedData (croppedPixelIndex + inject_Z c)
                 (default 0 (agetQ originalData
                                   (originalPixelIndex + inject_Z c))))
        croppedData (for_range 0 4).

Definition cropImageData (originalImageData : DOM.ImageData)
    (cropBounds : CropBounds) : result DOM.ImageData :=
  let '(mkCropBounds x y width height) := cropBounds in
  let originalData := DOM.data originalImageData in
  let originalWidth := inject_Z (DOM.width originalImageData) in
  match newUint8ClampedArray (width * height * 4) with
  | Throw e => Throw e
  | Ok croppedData =>
      let croppedData :=
        foldl (fun croppedData cropY =>
                 foldl (fun croppedData cropX =>
                          let originalPixelIndex :=
                            (((y + inject_Z cropY) * originalWidth
                              + (x + inject_Z cropX)) * 4)%Q in
                          let croppedPixelIndex :=
                            ((inject_Z cropY * width + inject_Z cropX) * 4)%Q in
                          copyPixel originalData originalPixelIndex
                                    croppedPixelIndex croppedData)
                       croppedData (for_range 0 (Qceiling width)))
              croppedData (for_range 0 (Qceiling height)) in
      DOM.newImageData croppedData width height
  end.

(** A rectangle with integral fields. *)
Definition rect (x y width height : Z) : CropBounds :=
  mkCropBounds (inject_Z x) (inject_Z y) (inject_Z width) (inject_Z height).

(** The rectangle lies inside the image. *)
Definition inBounds (img : DOM.ImageData) (x y width height : Z) : bool :=
  (0 <=? x) && (0 <=? y) && (0 <=? width) && (0 <=? height)
  && (x + width <=? DOM.width img) && (y + height <=? DOM.height img).

(** [AutoCropResult]; [processingTime] is wall-clock time and is left out.
    [subjectCoverage] is [None] when it is [NaN] (an empty mask array). *)
Record AutoCropResult := mkAutoCropResult {
  cropBounds : CropBounds;
  croppedImageData : DOM.ImageData;
  subjectDetected : bool;
  subjectCoverage : option Q
}.

(** How a promise of the module settles: resolved, rejected with what the
    body threw, or rejected with the
    [Error('Auto-crop failed. Please try again.')] of [autoCropImage]. *)
Inductive settled (A : Type) :=
| Resolved (a : A)
| Rejected (e : exn)
| AutoCropFailed.
Global Arguments Resolved {A} a.
Global Arguments Rejected {A} e.
Global Arguments AutoCropFailed {A}.

(** [autoCropImage] from the point where the segmentation model has
    answered: [segmentation] is the mask it returned and [canvas] the
    pixels of the image drawn on the canvas.  Every exception of the body
    is caught and replaced by the one error of the function. *)
Definition autoCropImage (segmentation : list Z) (canvas : DOM.ImageData)
    (options : AutoCropOptions) : settled AutoCropResult :=
  let paddingPercentage := default (15 # 100) (paddingPercentage options) in
  let minCropSize := default 100%Q (minCropSize options) in
  let totalPixels := Z.of_nat (length segmentation) in
  let subjectPixels :=
    Z.of_nat (length (filter (fun pixel => pixel = 1) segmentation)) in
  let subjectCoverage :=
    if totalPixels =? 0 then None
    else Some (inject_Z subjectPixels / inject_Z totalPixels * 100)%Q in
  match findOptimalCropBounds segmentation (DOM.width canvas) (DOM.height canvas)
          (mkAutoCropOptions (Some paddingPercentage) (Some minCropSize)) with
  | None => AutoCropFailed
  | Some cropBounds =>
      match cropImageData canvas cropBounds with
      | Throw _ => AutoCropFailed
      | Ok croppedImageData =>
          Resolved
            (mkAutoCropResult cropBounds croppedImageData
               (if Qlt_le_dec (inject_Z totalPixels * (1 # 100))
                              (inject_Z subjectPixels)
                then true else false)
               subjectCoverage)
      end
  end.

(** [centerCropImage]: the promise is rejected with what [cropImageData]
    throws. *)
Definition centerCropImage (canvas : DOM.ImageData) (cropRatio : Q)
    : settled AutoCropResult :=
  let cropSize :=
    (inject_Z (Z.min (DOM.width canvas) (DOM.height canvas)) * cropRatio)%Q in
  let cropBounds :=
    mkCropBounds
      (inject_Z (Math_round ((inject_Z (DOM.width canvas) - cropSize) / 2)))
      (inject_Z (Math_round ((inject_Z (DOM.height canvas) - cropSize) / 2)))
      cropSize cropSize in
  match cropImageData canvas cropBounds with
  | Throw e => Rejected e
  | Ok croppedImageData =>
      Resolved (mkAutoCropResult cropBounds croppedImageData false (Some 0%Q))
  end.

End AutoCrop.

(** ** colorAnalysis.ts *)

Module ColorAnalysis.

Record ColorRGB := mkColorRGB {
  r : Z;
  g : Z;
  b : Z
}.

Record ColorPaletteResult := mkColorPaletteResult {
  colors : list ColorRGB;
  totalPixelsAnalyzed : Z;
  samplingRate : Q
}.

(** [rgbToHsl]: hue in degrees, saturation and lightness in percent. *)
Definition rgbToHsl (r g b : Z) : Q * Q * Q :=
  let r := (inject_Z r / 255)%Q in
  let g := (inject_Z g / 255)%Q in
  let b := (inject_Z b / 255)%Q in
  let max := Qmax (Qmax r g) b in
  let min := Qmin (Qmin r g) b in
  let l := ((max + min) / 2)%Q in
  let '(h, s) :=
    if Qeq_bool max min then (0%Q, 0%Q)
    else
      let d := (max - min)%Q in
      let s := if Qlt_le_dec (1 # 2) l then (d / (2 - max - min))%Q
               else (d / (max + min))%Q in
      let h :=
        if Qeq_bool max r
        then ((g - b) / d + (if Qlt_le_dec g b then 6 else 0))%Q
        else if Qeq_bool max g then ((b - r) / d + 2)%Q
        else if Qeq_bool max b then ((r - g) / d + 4)%Q
        else 0%Q in
      ((h / 6)%Q, s) in
  ((h * 360)%Q, (s * 100)%Q, (l * 100)%Q).

Definition lightnessOf (r g b : Z) : Q := snd (rgbToHsl r g b).

(** [Math.max(1, Math.floor(totalPixels / maxSamples))]; [None] when
    [maxSamples] is zero and the quotient is not finite. *)
Definition samplingInterval (totalPixels maxSamples : Z) : option Z :=
  if maxSamples =? 0 then None
  else Some (Z.max 1 (Math_floor (inject_Z totalPixels / inject_Z maxSamples))).

(** The offsets [i] visited by the loop of [samplePixels]; with an
    interval that is not finite the loop ends after its first turn. *)
Definition sampleOffsets (len : Z) (interval : option Z) : list Z :=
  match interval with
  | Some samplingInterval => for_step len (samplingInterval * 4)
  | None => if 0 <? len then [0] else []
  end.

Definition sampleStep (d : list Z) (samples : list ColorRGB) (i : Z)
    : list ColorRGB :=
  let alpha := rd d (i + 3) in
  if alpha <? 128 then samples
  else
    let r := rd d i in
    let g := rd d (i + 1) in
    let b := rd d (i + 2) in
    let lightness := lightnessOf r g b in
    if (if Qlt_le_dec lightness 5 then true else false)
       || (if Qlt_le_dec 95 lightness then true else false)
    then samples
    else samples ++ [mkColorRGB r g b].

Definition samplePixels (imageData : DOM.ImageData) (maxSamples : Z)
    : list ColorRGB :=
  let d := DOM.data imageData in
  let totalPixels := DOM.width imageData * DOM.height imageData in
  foldl (sampleStep d) []
        (sampleOffsets (Z.of_nat (length d))
                       (samplingInterval totalPixels maxSamples)).

(** The working set as the design document words it: the pixels at the
    sampling stride, without those of alpha below 128 and those of
    lightness below 5% or above 95%. *)
Definition keptSample (d : list Z) (i : Z) : bool :=
  negb (rd d (i + 3) <? 128)
  && negb (if Qlt_le_dec (lightnessOf (rd d i) (rd d (i + 1)) (rd d (i + 2))) 5
           then true else false)
  && negb (if Qlt_le_dec 95 (lightnessOf (rd d i) (rd d (i + 1)) (rd d (i + 2)))
           then true else false).

Definition workingSet (imageData : DOM.ImageData) (maxSamples : Z)
    : list ColorRGB :=
  let d := DOM.data imageData in
  let totalPixels := DOM.width imageData * DOM.height imageData in
  let stride := Z.max 1 (Math_floor (inject_Z totalPixels / inject_Z maxSamples)) in
  (fun i => mkColorRGB (rd d i) (rd d (i + 1)) (rd d (i + 2)))
    <$> filter (fun i => keptSample d i = true)
               (for_step (Z.of_nat (length d)) (stride * 4)).

(** Computations that draw from [Math.random] and may throw: the state
    is the number of draws made so far. *)
Definition M (A : Type) : Type := nat -> result (A * nat).

Definition ret {A} (a : A) : M A := fun n => Ok (a, n).
Definition bind {A B} (m : M A) (k : A -> M B) : M B :=
  fun n => match m n with
           | Ok (a, n') => k a n'
           | Throw e => Throw e
           end.
Definition throw {A} (e : exn) : M A := fun _ => Throw e.

Notation "x <- m ;; k" := (bind m (fun x => k))
  (at level 100, m at next level, right associativity).
Fixpoint forM {A B} (l : list A) (f : A -> M B) : M (list B) :=
  match l with
  | [] => ret []
  | a :: l => v <- f a ;; vs <- forM l f ;; ret (v :: vs)
  end.

Fixpoint foldM {A S} (l : list A) (f : S -> A -> M S) (s : S) : M S :=
  match l with
  | [] => ret s
  | a :: l => s <- f s a ;; foldM l f s
  end.

Section WithRandom.

(** [Math.sqrt], and the successive results of [Math.random()]. *)
Variable Msqrt : Q -> Q.
Variable random : nat -> Q.

Definition Math_random : M Q := fun n => Ok (random n, S n).

(** An array element that may be [undefined]: reading a property of it
    throws a [TypeError]. *)
Definition defined {A} (v : option A) : M A :=
  match v with Some a => ret a | None => throw TypeError end.

Definition colorDistance (c1 c2 : option ColorRGB) : M Q :=
  c1 <- defined c1 ;; c2 <- defined c2 ;;
  let dr := r c1 - r c2 in
  let dg := g c1 - g c2 in
  let db := b c1 - b c2 in
  ret (Msqrt (inject_Z (dr * dr + dg * dg + db * db))).

(** [pixels[Math.floor(Math.random() * pixels.length)]] *)
Definition randomPixel (pixels : list ColorRGB) : M (option ColorRGB) :=
  u <- Math_random ;;
  let i := Math_floor (u * inject_Z (Z.of_nat (length pixels))) in
  ret (if i <? 0 then None else pixels !! Z.to_nat i).

(** [Math.min(minDistance, distance)], [None] being [Infinity]. *)
Definition minInf (m : option Q) (d : Q) : option Q :=
  match m with None => Some d | Some m => Some (Qmin m d) end.

(** The distance of a pixel to the nearest centroid, squared. *)
Definition nearestSquared (centroids : list (option ColorRGB))
    (pixel : ColorRGB) : M (option Q) :=
  minDistance <-
    foldM centroids
      (fun minDistance centroid =>
         distance <- colorDistance (Some pixel) centroid ;;
         ret (minInf minDistance distance))
      None ;;
  ret ((fun m => m * m)%Q <$> minDistance).

(** The loop that picks the pixel where the cumulative squared
    distance reaches [randomValue]; [None] when none does. *)
Fixpoint pickWeighted (pixels : list ColorRGB) (distances : list Q)
    (randomValue cumulativeDistance : Q) : option ColorRGB :=
  match pixels, distances with
  | p :: pixels, d :: distances =>
      let cumulativeDistance := (cumulativeDistance + d)%Q in
      if Qlt_le_dec cumulativeDistance randomValue
      then pickWeighted pixels distances randomValue cumulativeDistance
      else Some p
  | _, _ => None
  end.

(** One turn of the K-means++ loop.  [centroids] is never empty here,
    so every [minDistance] is finite. *)
Definition nextCentroid (pixels : list ColorRGB)
    (centroids : list (option ColorRGB)) (i : Z)
    : M (list (option ColorRGB)) :=
  ds <- forM pixels (nearestSquared centroids) ;;
  let distances := default 0%Q <$> ds in
  let totalDistance := foldl Qplus 0%Q distances in
  u <- Math_random ;;
  let randomValue := (u * totalDistance)%Q in
  ret match pickWeighted pixels distances randomValue 0 with
      | Some p => centroids ++ [Some p]
      | None => centroids
      end.

Definition initializeCentroids (pixels : list ColorRGB) (k : Z)
    : M (list (option ColorRGB)) :=
  first <- randomPixel pixels ;;
  foldM (for_range 1 k) (nextCentroid pixels) [first].

(** The cluster of one pixel: the first centroid at the least
    distance. *)
Definition assignPixel (centroids : list (option ColorRGB))
    (pixel : ColorRGB) : M Z :=
  st <- foldM (zip centroids (for_range 0 (Z.of_nat (length centroids))))
          (fun '(minDistance, clusterIndex) '(centroid, index) =>
             distance <- colorDistance (Some pixel) centroid ;;
             ret (match minDistance with
                  | Some m => if Qlt_le_dec distance m
                              then (Some distance, index)
                              else (minDistance, clusterIndex)
                  | None => (Some distance, index)
                  end))
          (None, 0) ;;
  ret (snd st).

Definition assignPixelsToClusters (pixels : list ColorRGB)
    (centroids : list (option ColorRGB)) : M (list Z) :=
  forM pixels (assignPixel centroids).

Definition channelMean (f : ColorRGB -> Z) (clusterPixels : list ColorRGB)
    : Z :=
  Math_round (inject_Z (foldl (fun sum pixel => sum + f pixel) 0 clusterPixels)
              / inject_Z (Z.of_nat (length clusterPixels))).

Definition updateCentroids (pixels : list ColorRGB) (assignments : list Z)
    (k : Z) : M (list (option ColorRGB)) :=
  foldM (for_range 0 k)
    (fun newCentroids i =>
       let clusterPixels :=
         fst <$> filter (fun pa => snd pa = i) (zip pixels assignments) in
       match clusterPixels with
       | [] => p <- randomPixel pixels ;; ret (newCentroids ++ [p])
       | _ => ret (newCentroids
                   ++ [Some (mkColorRGB (channelMean r clusterPixels)
                                        (channelMean g clusterPixels)
                                        (channelMean b clusterPixels))])
       end)
    [].

(** [centroidsConverged], with its default [threshold = 1]. *)
Fixpoint centroidsConverged (oldCentroids newCentroids : list (option ColorRGB))
    : M bool :=
  match oldCentroids with
  | [] => ret true
  | o :: oldCentroids =>
      d <- colorDistance o (mjoin (head newCentroids)) ;;
      if Qlt_le_dec 1 d then ret false
      else centroidsConverged oldCentroids (tail newCentroids)
  end.

Definition vibrancy (c : ColorRGB) : Q :=
  let '(_, sat, light) := rgbToHsl (r c) (g c) (b c) in
  (sat * (1 - Qabs (light - 50) / 50))%Q.

(** [Array.prototype.sort] with the comparator
    [vibrancyB - vibrancyA]: a stable sort, most vibrant first.  The
    colours are inserted from the last to the first, each one before the
    first colour that is not more vibrant. *)
Fixpoint insertByVibrancy (c : ColorRGB) (sorted : list ColorRGB)
    : list ColorRGB :=
  match sorted with
  | [] => [c]
  | s :: rest =>
      if Qlt_le_dec (vibrancy c) (vibrancy s) then s :: insertByVibrancy c rest
      else c :: sorted
  end.

Definition sortColorsByVibrancy (colors : list ColorRGB) : list ColorRGB :=
  foldr insertByVibrancy [] colors.

(** The K-means loop: at most [fuel] turns ([maxIterations] of them),
    left early on convergence. *)
Fixpoint iterate (fuel : nat) (pixels : list ColorRGB) (k : Z)
    (centroids : list (option ColorRGB)) : M (list (option ColorRGB)) :=
  match fuel with
  | O => ret centroids
  | S fuel =>
      assignments <- assignPixelsToClusters pixels centroids ;;
      newCentroids <- updateCentroids pixels assignments k ;;
      converged <- centroidsConverged centroids newCentroids ;;
      if converged : bool then ret newCentroids
      else iterate fuel pixels k newCentroids
  end.

(** [extractColorPalette].  The sort moves [undefined] entries to the
    end without comparing them, and the log line that follows reads
    the channels of every entry. *)
Definition extractColorPalette (imageData : DOM.ImageData)
    (k maxIterations maxSamples : Z) : M ColorPaletteResult :=
  let pixels := samplePixels imageData maxSamples in
  let n := Z.of_nat (length pixels) in
  let samplingRate :=
    (inject_Z n / inject_Z (DOM.width imageData * DOM.height imageData))%Q in
  if n <? k then throw (NotEnoughValidPixels n k)
  else
    centroids <- initializeCentroids pixels k ;;
    centroids <- iterate (Z.to_nat maxIterations) pixels k centroids ;;
    let sortedColors := sortColorsByVibrancy (omap id centroids) in
    if forallb (fun c => bool_decide (is_Some c)) centroids
    then ret (mkColorPaletteResult sortedColors n samplingRate)
    else throw TypeError.

End WithRandom.

End ColorAnalysis.

(** ** The editor: the callers of the services *)

Module Editor.

(** The choice of the intensity in [handleSharpenImage]; every comparison
    with [NaN] ([None]) is false. *)
Definition sharpeningIntensity (currentSharpness : option Q) : Q :=
  match currentSharpness with
  | Some s =>
      if Qlt_le_dec s 20 then 2
      else if Qlt_le_dec s 40 then 15 # 10
      else 8 # 10
  | None => 8 # 10
  end.

Section WithSqrt.

(** [Math.sqrt] *)
Variable Msqrt : Q -> Q.

(** The image that [handleSharpenImage] puts back on the canvas: the
    sharpness is scored, the intensity chosen, and the default method
    (the unsharp mask) applied. *)
Definition handleSharpenImage (imageData : DOM.ImageData) : DOM.ImageData :=
  let currentSharpness := Sharpening.analyzeImageSharpness Msqrt imageData in
  let intensity := sharpeningIntensity currentSharpness in
  Sharpening.sharpenImage Msqrt imageData intensity Sharpening.unsharp.

End WithSqrt.

(** The state that [handleAutoEnhance] applies: the three recommendations
    of the analyzer, rounded. *)
Record EnhancedState := mkEnhancedState {
  brightness : Z;
  contrast : Z;
  saturation : Z
}.

Definition handleAutoEnhance (imageData : DOM.ImageData) : EnhancedState :=
  let analysis := ImageAnalysis.analyzeImageHistogram imageData in
  mkEnhancedState
    (Math_round (ImageAnalysis.recommendedBrightness analysis))
    (Math_round (ImageAnalysis.recommendedContrast analysis))
    (Math_round (ImageAnalysis.recommendedSaturation analysis)).

(** The crop of [handleAutoCrop]: the subject crop with the options of the
    editor and, when it is rejected, the centre crop at 80%; [None] when
    that one is rejected too and the user sees the alert. *)
Definition handleAutoCrop (segmentation : list Z) (image : DOM.ImageData)
    : option AutoCrop.AutoCropResult :=
  match AutoCrop.autoCropImage segmentation image
          (AutoCrop.mkAutoCropOptions (Some (15 # 100)) (Some 200%Q)) with
  | AutoCrop.Resolved result => Some result
  | _ =>
      match AutoCrop.centerCropImage image (8 # 10) with
      | AutoCrop.Resolved result => Some result
      | _ => None
      end
  end.

(** What [handleColorPalette] leaves in the state of the editor: the
    palette with its statistics, or nothing, after the alert. *)
Inductive PaletteOutcome :=
  | PaletteSet (colorPalette : list ColorAnalysis.ColorRGB)
      (totalPixelsAnalyzed : Z) (samplingRate : Q)
  | PaletteAlert.

(** [handleColorPalette]: five clusters, and the defaults of
    [extractColorPalette] for the iterations and the samples. *)
Definition handleColorPalette (Msqrt : Q -> Q) (random : nat -> Q)
    (imageData : DOM.ImageData) (seed : nat) : PaletteOutcome :=
  match ColorAnalysis.extractColorPalette Msqrt random imageData 5 50 5000 seed with
  | Ok (result, _) =>
      PaletteSet (ColorAnalysis.colors result)
                 (ColorAnalysis.totalPixelsAnalyzed result)
                 (ColorAnalysis.samplingRate result)
  | Throw _ => PaletteAlert
  end.

End Editor.

(** ** Sample inputs *)

Module Samples.

(** Two pixels in a row: opaque red, then fully transparent black. *)
Definition redAndClear : DOM.ImageData :=
  DOM.mkImageData [255; 0; 0; 255;  0; 0; 0; 0] 2 1.

(** A 3 x 3 opaque image from its red and green planes; blue is 0. *)
Definition planes3x3 (red green : list Z) : DOM.ImageData :=
  DOM.mkImageData (flat_map (fun '(r, g) => [r; g; 0; 255]) (zip red green)) 3 3.

(** No red at all, and a vertical green edge: two dark columns, then
    one of full green. *)
Definition greenEdge : DOM.ImageData :=
  planes3x3 [0; 0; 0;  0; 0; 0;  0; 0; 0]
            [0; 0; 255;  0; 0; 255;  0; 0; 255].

(** A 3 x 3 image with some structure in both planes. *)
Definition textured : DOM.ImageData :=
  planes3x3 [0; 0; 255;  0; 100; 255;  0; 0; 255]
            [10; 20; 30;  40; 50; 60;  70; 80; 90].

(** A [w] x [h] image of one colour. *)
Definition solid (r g b a : Z) (w h : Z) : DOM.ImageData :=
  DOM.mkImageData (flat_map (fun _ => [r; g; b; a]) (seqZ 0 (w * h))) w h.

(** A 2 x 2 image whose bytes are numbered from 1. *)
Definition numbered2x2 : DOM.ImageData :=
  DOM.mkImageData [1; 2; 3; 4;  5; 6; 7; 8;  9; 10; 11; 12;  13; 14; 15; 16] 2 2.

(** A 5 x 4 mask whose foreground is the 3 x 2 box at (1, 1). *)
Definition boxMask : list Z :=
  [0; 0; 0; 0; 0;
   0; 1; 1; 1; 0;
   0; 1; 1; 1; 0;
   0; 0; 0; 0; 0].

(** A 4 x 2 image: three saturated pixels, a near-white and a black
    one, a nearly transparent one, and two more colours. *)
Definition palette4x2 : DOM.ImageData :=
  DOM.mkImageData
    [200; 30; 30; 255;   30; 200; 30; 255;   30; 30; 200; 255;
     250; 250; 250; 255; 0; 0; 0; 255;       100; 100; 100; 10;
     120; 110; 100; 255; 10; 200; 220; 255] 4 2.

(** A fixed sequence of draws in [0, 1), as a stand-in for
    [Math.random]. *)
Definition dice (n : nat) : Q := Z.of_nat n `mod` 7 # 7.

(** An integer square root, rounded up, as a stand-in for [Math.sqrt]. *)
Definition sqrtUp (q : Q) : Q := inject_Z (Z.sqrt_up (Qceiling q)).

End Samples.

(** ** The vocabulary of the properties *)

(** [j] is not the offset of a colour channel of an interior pixel of a
    buffer [width] pixels wide and [height] pixels high. *)
Definition untouched (width height : Z) (j : Z) : Prop :=
  forall y x c, 1 <= y < height - 1 -> 1 <= x < width - 1 -> 0 <= c < 3 ->
                j <> (y * width + x) * 4 + c.

(** The loop invariant of the three sharpening passes: no byte outside of
    the interior colour channels differs from the source. *)
Definition frame_kept (original : list Z) (width height : Z)
    (result : list Z) : Prop :=
  length result = length original
  /\ forall j, untouched width height j -> aget result j = aget original j.

(** The count of the bins [l] of the histogram [h]. *)
Definition binSum (h : list Z) (l : list Z) : Z := foldr Z.add 0 (rd h <$> l).

(** The running count [c] is above the threshold. *)
Definition above (threshold : Q) (c : Z) : Prop := (threshold < inject_Z c)%Q.

(** The byte offset of channel [c] of the pixel at column [x], row [y]. *)
Definition offsetOf (img : DOM.ImageData) (x y c : Z) : Z :=
  (y * DOM.width img + x) * 4 + c.

(** Field by field equality of two rectangles, as numbers. *)
Definition boundsEq (b1 b2 : AutoCrop.CropBounds) : Prop :=
  (AutoCrop.x b1 == AutoCrop.x b2 /\ AutoCrop.y b1 == AutoCrop.y b2
   /\ AutoCrop.width b1 == AutoCrop.width b2
   /\ AutoCrop.height b1 == AutoCrop.height b2)%Q.

(** The side of the fallback square: [Math.min(width, height) * 0.8]. *)
Definition fallbackSide (W H : Z) : Q := (inject_Z (Z.min W H) * (8 # 10))%Q.

(** Three nested loops around one store whose index and value do not
    depend on the array. *)
Definition storeLoop (ys xs cs : list Z) (idx val : Z -> Z -> Z -> Z)
    (a : list Z) : list Z :=
  foldl (fun a y =>
           foldl (fun a x =>
                    foldl (fun a c => aset a (idx y x c) (val y x c)) a cs)
                 a xs)
        a ys.

(** The source offset that [cropImageData] reads for the channel [c] of
    the pixel [(cropX, cropY)] of the result. *)
Definition cropSource (img : DOM.ImageData) (x y cropY cropX c : Z) : Z :=
  ((y + cropY) * DOM.width img + (x + cropX)) * 4 + c.

(** A number that is an integer. *)
Definition integralQ (q : Q) : Prop := exists z, (q == inject_Z z)%Q.

(** The rectangle lies inside the [W x H] image, at an integral
    position. *)
Definition withinImage (W H : Z) (b : AutoCrop.CropBounds) : Prop :=
  (0 <= AutoCrop.x b)%Q /\ (0 <= AutoCrop.y b)%Q
  /\ (AutoCrop.x b + AutoCrop.width b <= inject_Z W)%Q
  /\ (AutoCrop.y b + AutoCrop.height b <= inject_Z H)%Q
  /\ integralQ (AutoCrop.x b) /\ integralQ (AutoCrop.y b).

(** A computation whose only exception is the [TypeError] of a read
    through [undefined]. *)
Definition onlyTypeError {A : Type} (m : ColorAnalysis.M A) : Prop :=
  forall n e, m n = Throw e -> e = TypeError.

(** The byte of channel [c] of the pixel at column [x], row [y]. *)
Definition sample (img : DOM.ImageData) (x y c : Z) : Z :=
  rd (DOM.data img) (offsetOf img x y c).

(** The samples of the 3 x 3 neighbourhood of [(x, y)] in channel [c],
    row by row, each times its weight in [kernel], added up. *)
Definition weighted (img : DOM.ImageData) (kernel : list Z) (x y c : Z) : Z :=
  foldr Z.add 0
    (zip_with (fun '(ky, kx) k => sample img (x + kx) (y + ky) c * k)
       [(-1, -1); (-1, 0); (-1, 1); (0, -1); (0, 0); (0, 1); (1, -1); (1, 0); (1, 1)]
       kernel).

(** The byte that a sharpening method computes for channel [c] of the
    interior pixel [(x, y)], from the source image alone.  The blurred
    value of the unsharp mask is a byte itself: it is rounded when it is
    stored, before the difference is taken. *)
Definition sharpened (Msqrt : Q -> Q) (img : DOM.ImageData) (intensity : Q)
    (method : Sharpening.Method) (x y c : Z) : Z :=
  let o := inject_Z (sample img x y c) in
  let v :=
    match method with
    | Sharpening.unsharp =>
        let blurred :=
          ToUint8Clamp (inject_Z (weighted img Sharpening.gaussianKernel x y c) / 16) in
        (o + (o - inject_Z blurred) * intensity)%Q
    | Sharpening.laplacian =>
        let sum := weighted img Sharpening.laplacianKernel x y c in
        (o + (inject_Z sum - o) * intensity * (3 # 10))%Q
    | Sharpening.edge_enhance =>
        let gx := weighted img Sharpening.sobelX x y c in
        let gy := weighted img Sharpening.sobelY x y c in
        (o + Msqrt (inject_Z (gx * gx + gy * gy)) * intensity * (2 # 10))%Q
    end in
  ToUint8Clamp (Qmax 0 (Qmin 255 v)).

(** The mask labels the pixel [(x, y)] of the [width x height] grid as
    foreground. *)
Definition foreground (segmentation : list Z) (width height x y : Z) : Prop :=
  0 <= x < width /\ 0 <= y < height
  /\ aget segmentation (y * width + x) = Some 1.

(** A rectangle of whole pixels, at least one pixel wide and high, whose
    corner is a pixel of the [W x H] image. *)
Definition anchored (W H : Z) (b : AutoCrop.CropBounds) : Prop :=
  (integralQ (AutoCrop.x b) /\ integralQ (AutoCrop.y b)
   /\ integralQ (AutoCrop.width b) /\ integralQ (AutoCrop.height b))
  /\ (0 <= AutoCrop.x b /\ AutoCrop.x b + 1 <= inject_Z W)%Q
  /\ (0 <= AutoCrop.y b /\ AutoCrop.y b + 1 <= inject_Z H)%Q
  /\ (1 <= AutoCrop.width b)%Q /\ (1 <= AutoCrop.height b)%Q.

(** No colour of the list is followed, anywhere later, by a more vibrant
    one. *)
Fixpoint descending (colors : list ColorAnalysis.ColorRGB) : Prop :=
  match colors with
  | [] => True
  | a :: rest =>
      Forall (fun b => (ColorAnalysis.vibrancy b <= ColorAnalysis.vibrancy a)%Q) rest
      /\ descending rest
  end.

(** A computation that, from every state of the random source, returns
    a value with the property [P]. *)
Definition succeeds {A : Type} (m : ColorAnalysis.M A) (P : A -> Prop) : Prop :=
  forall n, exists a n', m n = Ok (a, n') /\ P a.

(** A colour whose three channels are bytes. *)
Definition byteColor (c : ColorAnalysis.ColorRGB) : Prop :=
  0 <= ColorAnalysis.r c <= 255 /\ 0 <= ColorAnalysis.g c <= 255
  /\ 0 <= ColorAnalysis.b c <= 255.

(** A centroid that is a colour, of bytes. *)
Definition goodCentroid (c : option ColorAnalysis.ColorRGB) : Prop :=
  exists p, c = Some p /\ byteColor p.

(** ** The display helpers of [colorAnalysis.ts] *)

Module ColorDisplay.

Import Stdlib.Strings.Ascii.

(** One digit of [Number.prototype.toString(16)]. *)
Definition hexDigit (d : Z) : Ascii.ascii :=
  match d with
  | 0 => "0" | 1 => "1" | 2 => "2" | 3 => "3" | 4 => "4" | 5 => "5"
  | 6 => "6" | 7 => "7" | 8 => "8" | 9 => "9" | 10 => "a" | 11 => "b"
  | 12 => "c" | 13 => "d" | 14 => "e" | _ => "f"
  end%char.

(** The digits of [n >= 0] in base 16, most significant first, in front
    of [acc]. *)
Fixpoint hexDigits (fuel : nat) (n : Z) (acc : string) : string :=
  let acc := String (hexDigit (n `mod` 16)) acc in
  match fuel with
  | O => acc
  | S fuel => if n <? 16 then acc else hexDigits fuel (n `div` 16) acc
  end.

(** [n.toString(16)] for an integer [n]. *)
Definition toString16 (n : Z) : string :=
  if n <? 0 then String "-"%char (hexDigits (Z.to_nat (- n)) (- n) "")
  else hexDigits (Z.to_nat n) n "".

Definition toHex (n : Z) : string :=
  let hex := toString16 (Math_round (inject_Z n)) in
  if (String.length hex =? 1)%nat then ("0" +:+ hex)%string else hex.

Definition rgbToHex (r g b : Z) : string :=
  ("#" +:+ toHex r +:+ toHex g +:+ toHex b)%string.

Definition getColorName (r g b : Z) : string :=
  let '(hue, saturation, lightness) := ColorAnalysis.rgbToHsl r g b in
  (if Qlt_le_dec saturation 10 then
     if Qlt_le_dec lightness 20 then "Dark Gray"
     else if Qlt_le_dec lightness 40 then "Gray"
     else if Qlt_le_dec lightness 60 then "Light Gray"
     else if Qlt_le_dec lightness 80 then "Silver"
     else "White"
   else if Qlt_le_dec lightness 20 then "Dark"
   else if Qlt_le_dec 80 lightness then "Light"
   else if (if Qlt_le_dec hue 15 then true else false)
           || (if Qlt_le_dec hue 345 then false else true) then "Red"
   else if Qlt_le_dec hue 45 then "Orange"
   else if Qlt_le_dec hue 75 then "Yellow"
   else if Qlt_le_dec hue 105 then "Yellow Green"
   else if Qlt_le_dec hue 135 then "Green"
   else if Qlt_le_dec hue 165 then "Teal"
   else if Qlt_le_dec hue 195 then "Cyan"
   else if Qlt_le_dec hue 225 then "Blue"
   else if Qlt_le_dec hue 255 then "Purple"
   else if Qlt_le_dec hue 285 then "Magenta"
   else if Qlt_le_dec hue 315 then "Pink"
   else "Red")%string.

End ColorDisplay.

(** * Properties *)

(** ** Arrays and loops *)

Section Arrays.

Implicit Types (a : list Z) (i j v : Z).

Lemma length_aset a i v : length (aset a i v) = length a.
Proof. unfold aset. destruct (i <? 0); [done | apply length_insert]. Qed.

Lemma aget_aset_eq a i v :
  0 <= i < Z.of_nat (length a) -> aget (aset a i v) i = Some v.
Proof.
  intros Hi. unfold aget, aset.
  destruct (Z.ltb_spec i 0); [lia |].
  apply list_lookup_insert_eq. lia.
Qed.

Lemma aget_aset_ne a i j v : i <> j -> aget (aset a i v) j = aget a j.
Proof.
  intros Hne. unfold aget, aset.
  destruct (Z.ltb_spec j 0); [done |].
  destruct (Z.ltb_spec i 0); [done |].
  apply list_lookup_insert_ne. lia.
Qed.

Lemma aget_Some_range a i v : aget a i = Some v -> 0 <= i < Z.of_nat (length a).
Proof.
  unfold aget. destruct (Z.ltb_spec i 0); [done |].
  intros Hl%lookup_lt_Some. lia.
Qed.

Lemma aget_in_range a i : 0 <= i < Z.of_nat (length a) -> is_Some (aget a i).
Proof.
  intros Hi. unfold aget. destruct (Z.ltb_spec i 0); [lia |].
  apply lookup_lt_is_Some. lia.
Qed.

End Arrays.

Section Loops.

Context {A B : Type}.

(** An invariant of the body of a loop is an invariant of the loop. *)
Lemma foldl_invariant (I : A -> Prop) (f : A -> B -> A) (l : list B) (a : A) :
  I a -> (forall a b, b ∈ l -> I a -> I (f a b)) -> I (foldl f a l).
Proof.
  revert a. induction l as [| b l IH]; intros a Ha Hstep; simpl; [done |].
  apply IH.
  - apply Hstep; [left | done].
  - intros a' b' Hb'. apply Hstep. by right.
Qed.

(** What one turn of the loop establishes and no turn destroys holds
    after the loop; [I] is an invariant the turns may rely on. *)
Lemma foldl_established (I P : A -> Prop) (f : A -> B -> A) (l : list B)
    (b0 : B) (a : A) :
  b0 ∈ l -> I a ->
  (forall a b, b ∈ l -> I a -> I (f a b)) ->
  (forall a, I a -> P (f a b0)) ->
  (forall a b, b ∈ l -> I a -> P a -> P (f a b)) ->
  I (foldl f a l) /\ P (foldl f a l).
Proof.
  intros Hin Ha Hinv Hest Hstable.
  apply list_elem_of_split in Hin as (l1 & l2 & ->).
  rewrite foldl_app. simpl.
  assert (I (foldl f a l1)) as H1.
  { apply foldl_invariant; [done |]. intros a' b' Hb'. apply Hinv.
    rewrite elem_of_app. by left. }
  assert (b0 ∈ l1 ++ b0 :: l2) as Hb0 by (rewrite elem_of_app; right; left).
  apply (foldl_invariant (fun a => I a /\ P a)).
  - split; [by apply Hinv | by apply Hest].
  - intros a' b' Hb' [Ha' Hp'].
    assert (b' ∈ l1 ++ b0 :: l2) by (rewrite elem_of_app; right; by right).
    split; [by apply Hinv | by apply Hstable].
Qed.

End Loops.

Lemma elem_of_for_range (lo hi k : Z) : k ∈ for_range lo hi <-> lo <= k < hi.
Proof. unfold for_range. rewrite elem_of_seqZ. lia. Qed.

Lemma elem_of_for_step (hi step k : Z) :
  0 < step -> k ∈ for_step hi step <-> 0 <= k < hi /\ (step | k).
Proof.
  intros Hs. unfold for_step. rewrite list_elem_of_fmap. split.
  - intros (j & -> & Hj%elem_of_seqZ). split; [| by exists j].
    assert (j <= (hi + step - 1) `div` step - 1) as Hle by lia.
    assert (step * ((hi + step - 1) `div` step) <= hi + step - 1)
      by (apply Z.mul_div_le; lia).
    nia.
  - intros [Hk [j ->]]. exists j. split; [done |].
    apply elem_of_seqZ. split; [nia |].
    assert (j + 1 <= (hi + step - 1) `div` step); [| lia].
    apply Z.div_le_lower_bound; nia.
Qed.

Section Interior.

Context {A : Type}.

Lemma interior_invariant (I : A -> Prop) (width height : Z)
    (body : Z -> Z -> A -> A) (a : A) :
  I a ->
  (forall y x a, 1 <= y < height - 1 -> 1 <= x < width - 1 -> I a -> I (body y x a)) ->
  I (Sharpening.interior width height body a).
Proof.
  intros Ha Hstep. unfold Sharpening.interior.
  apply foldl_invariant; [done |].
  intros a1 y Hy%elem_of_for_range Ha1.
  apply foldl_invariant; [done |].
  intros a2 x Hx%elem_of_for_range Ha2. by apply Hstep.
Qed.

Lemma interior_degenerate (width height : Z) (body : Z -> Z -> A -> A) (a : A) :
  width < 3 \/ height < 3 -> Sharpening.interior width height body a = a.
Proof.
  intros Hsmall. apply (interior_invariant (fun a' => a' = a)); [done |].
  intros; lia.
Qed.

Lemma channels_invariant (I : A -> Prop) (body : Z -> A -> A) (a : A) :
  I a -> (forall c a, 0 <= c < 3 -> I a -> I (body c a)) ->
  I (Sharpening.channels body a).
Proof.
  intros Ha Hstep. unfold Sharpening.channels.
  apply foldl_invariant; [done |].
  intros a1 c Hc%elem_of_for_range Ha1. by apply Hstep.
Qed.

End Interior.

(** ** What a well-formed ImageData gives *)

Lemma wf_image_spec (img : DOM.ImageData) :
  DOM.wf_image img = true ->
  0 < DOM.width img /\ 0 < DOM.height img
  /\ Z.of_nat (length (DOM.data img)) = DOM.width img * DOM.height img * 4
  /\ (forall i v, aget (DOM.data img) i = Some v -> 0 <= v <= 255).
Proof.
  unfold DOM.wf_image. rewrite !andb_true_iff.
  intros [[[Hw Hh] Hlen] Hbytes].
  apply Z.ltb_lt in Hw. apply Z.ltb_lt in Hh. apply Z.eqb_eq in Hlen.
  repeat split; try done;
    (apply Is_true_true_2, forallb_True in Hbytes;
     rewrite Forall_forall in Hbytes;
     unfold aget in H; destruct (i <? 0); [done |];
     apply list_elem_of_lookup_2, Hbytes in H;
     unfold DOM.is_byte in H; apply Is_true_true_1, andb_true_iff in H;
     destruct H as [H1 H2]; apply Z.leb_le in H1; apply Z.leb_le in H2; lia).
Qed.

(** A byte survives the conversion of the clamped array. *)
Lemma ToUint8Clamp_byte (v : Z) : 0 <= v <= 255 -> ToUint8Clamp (inject_Z v) = v.
Proof.
  intros Hv. unfold ToUint8Clamp.
  destruct (Qle_bool (inject_Z v) 0) eqn:E0.
  { apply Qle_bool_iff in E0. change 0%Q with (inject_Z 0) in E0.
    rewrite <- Zle_Qle in E0. lia. }
  destruct (Qle_bool 255 (inject_Z v)) eqn:E1.
  { apply Qle_bool_iff in E1. change 255%Q with (inject_Z 255) in E1.
    rewrite <- Zle_Qle in E1. lia. }
  rewrite Qfloor_Z.
  assert (inject_Z v - inject_Z v == 0)%Q as Hd by ring.
  destruct (Qle_bool (inject_Z v - inject_Z v) (1 # 2)) eqn:E2.
  - destruct (Qeq_bool (inject_Z v - inject_Z v) (1 # 2)) eqn:E3; [| done].
    apply Qeq_bool_iff in E3. rewrite Hd in E3. discriminate.
  - assert (Qle_bool (inject_Z v - inject_Z v) (1 # 2) = true); [| congruence].
    apply Qle_bool_iff. rewrite Hd. discriminate.
Qed.

Lemma store_byte (a : list Z) (i v : Z) :
  0 <= v <= 255 -> aget a i = Some v ->
  Sharpening.store (Sharpening.numQ (aget a i)) = v.
Proof. intros Hv ->. simpl. by apply ToUint8Clamp_byte. Qed.

(** ** The sharpening service: what the passes leave alone *)

Section SharpeningFrame.

Variable original : list Z.
Variables width height : Z.
Hypothesis original_bytes :
  forall i v, aget original i = Some v -> 0 <= v <= 255.

Lemma frame_kept_channel (result : list Z) (y x c v : Z) :
  1 <= y < height - 1 -> 1 <= x < width - 1 -> 0 <= c < 3 ->
  frame_kept original width height result ->
  frame_kept original width height (aset result ((y * width + x) * 4 + c) v).
Proof.
  intros Hy Hx Hc [Hlen Hkeep]. split; [by rewrite length_aset |].
  intros j Hj. rewrite aget_aset_ne; [by apply Hkeep |].
  intros Heq. by apply (Hj y x c).
Qed.

Lemma frame_kept_alpha (result : list Z) (y x : Z) :
  1 <= y < height - 1 -> 1 <= x < width - 1 ->
  frame_kept original width height result ->
  frame_kept original width height
    (Sharpening.copyAlpha original width y x result).
Proof.
  intros Hy Hx [Hlen Hkeep]. unfold Sharpening.copyAlpha.
  split; [by rewrite length_aset |].
  intros j Hj. set (k := (y * width + x) * 4 + 3).
  destruct (decide (k = j)) as [<- | Hne]; [| rewrite aget_aset_ne; auto].
  assert (untouched width height k) as Hk
    by (intros y' x' c' ? ? ?; unfold untouched, k; lia).
  destruct (aget original k) as [v |] eqn:Hv.
  - rewrite aget_aset_eq.
    + f_equal. simpl. apply ToUint8Clamp_byte. eauto.
    + rewrite Hlen. by eapply aget_Some_range.
  - simpl. rewrite <- (Hkeep k Hk) in Hv.
    unfold aget, aset in *. destruct (k <? 0); [done |].
    rewrite list_insert_ge; [done |]. by apply lookup_ge_None.
Qed.

(** Every pass has the shape: for each interior pixel, store the three
    colour channels, then copy alpha. *)
Lemma frame_kept_pass (value : Z -> Z -> Z -> Z) (result : list Z) :
  frame_kept original width height result ->
  frame_kept original width height
    (Sharpening.interior width height
       (fun y x result =>
          Sharpening.copyAlpha original width y x
            (Sharpening.channels
               (fun c result => aset result ((y * width + x) * 4 + c) (value y x c))
               result))
       result).
Proof.
  intros Hres. apply interior_invariant; [done |].
  intros y x a Hy Hx Ha. apply frame_kept_alpha; [done .. |].
  apply channels_invariant; [done |].
  intros c a' Hc Ha'. by apply frame_kept_channel.
Qed.

End SharpeningFrame.

Lemma copyData_length (d newData : list Z) :
  length (Sharpening.copyData d newData) = length newData.
Proof.
  unfold Sharpening.copyData.
  apply (foldl_invariant (fun a => length a = length newData)); [done |].
  intros a i _ Ha. by rewrite length_aset.
Qed.

(** The copy loop of [sharpenImage] fills the fresh buffer with the bytes
    of the source. *)
Lemma copyData_copies (d : list Z) :
  (forall i v, aget d i = Some v -> 0 <= v <= 255) ->
  Sharpening.copyData d (zeros (Z.of_nat (length d))) = d.
Proof.
  intros Hbytes. apply list_eq_same_length with (length d); [done | |].
  { rewrite copyData_length. unfold zeros. by rewrite length_replicate, Nat2Z.id. }
  intros n v v' Hn Hv Hv'.
  assert (aget d (Z.of_nat n) = Some v') as Hd.
  { unfold aget. destruct (Z.ltb_spec (Z.of_nat n) 0); [lia |]. by rewrite Nat2Z.id. }
  assert (aget (Sharpening.copyData d (zeros (Z.of_nat (length d)))) (Z.of_nat n)
          = Some v') as Hc.
  { unfold Sharpening.copyData.
    apply (foldl_established
             (fun a => length a = length d)
             (fun a => aget a (Z.of_nat n) = Some v')
             _ _ (Z.of_nat n)).
    - apply elem_of_for_range. lia.
    - unfold zeros. by rewrite length_replicate, Nat2Z.id.
    - intros a i _ Ha. by rewrite length_aset.
    - intros a Ha. rewrite aget_aset_eq; [| lia].
      f_equal. eapply store_byte; eauto.
    - intros a i _ Hlen Ha.
      destruct (decide (i = Z.of_nat n)) as [-> | Hne].
      + rewrite aget_aset_eq; [| lia]. f_equal. eapply store_byte; eauto.
      + by rewrite aget_aset_ne. }
  unfold aget in Hc. destruct (Z.ltb_spec (Z.of_nat n) 0); [lia |].
  rewrite Nat2Z.id in Hc. congruence.
Qed.

Lemma applyUnsharpMask_frame (original result : list Z) (width height : Z)
    (intensity : Q) :
  (forall i v, aget original i = Some v -> 0 <= v <= 255) ->
  frame_kept original width height result ->
  frame_kept original width height
    (Sharpening.applyUnsharpMask original result width height intensity).
Proof. intros Hb Hres. by apply frame_kept_pass. Qed.

Lemma applyLaplacianSharpening_frame (original result : list Z)
    (width height : Z) (intensity : Q) :
  (forall i v, aget original i = Some v -> 0 <= v <= 255) ->
  frame_kept original width height result ->
  frame_kept original width height
    (Sharpening.applyLaplacianSharpening original result width height intensity).
Proof. intros Hb Hres. by apply frame_kept_pass. Qed.

Lemma applyEdgeEnhancement_frame (Msqrt : Q -> Q) (original result : list Z)
    (width height : Z) (intensity : Q) :
  (forall i v, aget original i = Some v -> 0 <= v <= 255) ->
  frame_kept original width height result ->
  frame_kept original width height
    (Sharpening.applyEdgeEnhancement Msqrt original result width height intensity).
Proof.
  intros Hb Hres. unfold Sharpening.applyEdgeEnhancement.
  apply interior_invariant; [done |].
  intros y x a Hy Hx Ha. apply frame_kept_alpha; [done .. |].
  apply channels_invariant; [done |].
  intros c a' Hc Ha'.
  destruct (Sharpening.neighbourhood _ _ _ _ _ _) as [gradientX gradientY].
  by apply frame_kept_channel.
Qed.

(** The result of [sharpenImage] has the dimensions of its input, and
    differs from it at most in the colour channels of interior pixels. *)
Lemma sharpenImage_frame (Msqrt : Q -> Q) (img : DOM.ImageData) (intensity : Q)
    (method : Sharpening.Method) :
  DOM.wf_image img = true ->
  let out := Sharpening.sharpenImage Msqrt img intensity method in
  DOM.width out = DOM.width img /\ DOM.height out = DOM.height img
  /\ frame_kept (DOM.data img) (DOM.width img) (DOM.height img) (DOM.data out).
Proof.
  intros (Hw & Hh & Hlen & Hbytes)%wf_image_spec. simpl.
  split; [done |]. split; [done |].
  rewrite <- Hlen, copyData_copies by done.
  assert (frame_kept (DOM.data img) (DOM.width img) (DOM.height img) (DOM.data img))
    by (by split).
  destruct method.
  - by apply applyUnsharpMask_frame.
  - by apply applyLaplacianSharpening_frame.
  - by apply applyEdgeEnhancement_frame.
Qed.

Lemma sharpenImage_small (Msqrt : Q -> Q) (img : DOM.ImageData) (intensity : Q)
    (method : Sharpening.Method) :
  DOM.wf_image img = true ->
  DOM.width img < 3 \/ DOM.height img < 3 ->
  Sharpening.sharpenImage Msqrt img intensity method = img.
Proof.
  intros (Hw & Hh & Hlen & Hbytes)%wf_image_spec Hsmall.
  unfold Sharpening.sharpenImage.
  rewrite <- Hlen, copyData_copies by done.
  destruct img as [d w h]; simpl in *. f_equal.
  destruct method;
    [unfold Sharpening.applyUnsharpMask
    |unfold Sharpening.applyLaplacianSharpening
    |unfold Sharpening.applyEdgeEnhancement];
    by apply interior_degenerate.
Qed.

Lemma offsetOf_in_range (img : DOM.ImageData) (x y c : Z) :
  DOM.wf_image img = true ->
  0 <= x < DOM.width img -> 0 <= y < DOM.height img -> 0 <= c < 4 ->
  is_Some (aget (DOM.data img) (offsetOf img x y c)).
Proof.
  intros (Hw & Hh & Hlen & Hbytes)%wf_image_spec Hx Hy Hc.
  apply aget_in_range. rewrite Hlen. unfold offsetOf. nia.
Qed.

(** C5: for each of the three methods and every intensity, each byte of a
    pixel of the one-pixel border of the output is the byte of the input,
    and an image of width or height below 3 is returned as it is. *)
Theorem sharpenImage_border_preserved (Msqrt : Q -> Q) (img : DOM.ImageData)
    (intensity : Q) (method : Sharpening.Method) :
  DOM.wf_image img = true ->
  let out := Sharpening.sharpenImage Msqrt img intensity method in
  (forall x y c,
      0 <= x < DOM.width img -> 0 <= y < DOM.height img -> 0 <= c < 4 ->
      x = 0 \/ x = DOM.width img - 1 \/ y = 0 \/ y = DOM.height img - 1 ->
      exists v, aget (DOM.data img) (offsetOf img x y c) = Some v
                /\ aget (DOM.data out) (offsetOf out x y c) = Some v)
  /\ (DOM.width img < 3 \/ DOM.height img < 3 -> out = img).
Proof.
  intros Hwf out. split; [| by apply sharpenImage_small].
  intros x y c Hx Hy Hc Hborder.
  destruct (offsetOf_in_range img x y c Hwf Hx Hy Hc) as [v Hv].
  exists v. split; [done |].
  destruct (sharpenImage_frame Msqrt img intensity method Hwf)
    as (Hw & _ & _ & Hkeep).
  fold out in Hw, Hkeep. unfold offsetOf in *. rewrite Hw, Hkeep; [done |].
  intros y' x' c' Hy' Hx' Hc' Heq.
  assert (c = c') as -> by lia.
  assert ((y - y') * DOM.width img = x' - x) as Hrow by lia.
  assert (y = y') as -> by nia.
  lia.
Qed.

(** C9: for each of the three methods and every intensity, the alpha byte
    of every pixel of the output is the alpha byte of that pixel of the
    input. *)
Theorem sharpenImage_alpha_preserved (Msqrt : Q -> Q) (img : DOM.ImageData)
    (intensity : Q) (method : Sharpening.Method) :
  DOM.wf_image img = true ->
  let out := Sharpening.sharpenImage Msqrt img intensity method in
  forall x y,
    0 <= x < DOM.width img -> 0 <= y < DOM.height img ->
    exists alpha, aget (DOM.data img) (offsetOf img x y 3) = Some alpha
                  /\ aget (DOM.data out) (offsetOf out x y 3) = Some alpha.
Proof.
  intros Hwf out x y Hx Hy.
  destruct (offsetOf_in_range img x y 3 Hwf Hx Hy ltac:(lia)) as [v Hv].
  exists v. split; [done |].
  destruct (sharpenImage_frame Msqrt img intensity method Hwf)
    as (Hw & _ & _ & Hkeep).
  fold out in Hw, Hkeep. unfold offsetOf in *. rewrite Hw, Hkeep; [done |].
  intros y' x' c' Hy' Hx' Hc'. lia.
Qed.

(** ** The histogram analyzer: the contrast level *)

Section ContrastScan.

Import ImageAnalysis.

Variable h : list Z.
Variable threshold : Q.

Lemma binSum_app (l1 l2 : list Z) : binSum h (l1 ++ l2) = binSum h l1 + binSum h l2.
Proof.
  unfold binSum. rewrite fmap_app, foldr_app.
  induction (rd h <$> l1) as [| v l IH]; simpl; lia.
Qed.

Lemma binSum_seqZ_split (a n1 n2 : Z) :
  0 <= n1 -> 0 <= n2 ->
  binSum h (seqZ a (n1 + n2)) = binSum h (seqZ a n1) + binSum h (seqZ (a + n1) n2).
Proof. intros. by rewrite seqZ_app, binSum_app. Qed.

Lemma binSum_seqZ_one (a : Z) : binSum h (seqZ a 1) = rd h a.
Proof. rewrite seqZ_cons, seqZ_nil by lia. unfold binSum. simpl. lia. Qed.

Lemma binSum_nonneg (l : list Z) : (forall i, 0 <= rd h i) -> 0 <= binSum h l.
Proof.
  intros Hpos. unfold binSum.
  induction l as [| i l IH]; [simpl; lia |].
  rewrite fmap_cons. cbn [foldr]. specialize (Hpos i). lia.
Qed.

(** The upward scan stops at the first bin whose prefix count is above threshold
    the threshold. *)
Lemma significantBin_up (n : nat) : forall a c i,
  ~ above threshold c ->
  significantBin threshold h (seqZ a (Z.of_nat n)) c = Some i ->
  a <= i < a + Z.of_nat n
  /\ ~ above threshold (c + binSum h (seqZ a (i - a)))
  /\ above threshold (c + binSum h (seqZ a (i - a + 1))).
Proof.
  induction n as [| n IH]; intros a c i Hc; [by rewrite seqZ_nil; simpl |].
  rewrite seqZ_cons by lia. simpl.
  replace (Z.pred (Z.of_nat (S n))) with (Z.of_nat n) by lia.
  destruct (Qlt_le_dec threshold (inject_Z (c + rd h a))) as [Hlt | Hle].
  - intros [= <-]. rewrite Z.sub_diag. simpl.
    rewrite binSum_seqZ_one, seqZ_nil by lia.
    unfold binSum; simpl. rewrite Z.add_0_r. split; [lia | done].
  - intros Hscan. apply IH in Hscan as (Hi & Hlow & Hhigh).
    2:{ unfold above. by apply Qle_not_lt. }
    split; [lia |].
    replace (i - a) with (1 + (i - Z.succ a)) by lia.
    replace (1 + (i - Z.succ a) + 1) with (1 + (i - Z.succ a + 1)) by lia.
    rewrite (binSum_seqZ_split a 1 (i - Z.succ a)),
      (binSum_seqZ_split a 1 (i - Z.succ a + 1)), binSum_seqZ_one by lia.
    replace (a + 1) with (Z.succ a) by lia.
    by rewrite !Z.add_assoc.
Qed.

(** The downward scan stops at the last bin whose suffix count is above threshold
    the threshold. *)
Lemma significantBin_down (n : nat) : forall a c j,
  ~ above threshold c ->
  significantBin threshold h (reverse (seqZ a (Z.of_nat n))) c = Some j ->
  a <= j < a + Z.of_nat n
  /\ ~ above threshold (c + binSum h (seqZ (j + 1) (a + Z.of_nat n - j - 1)))
  /\ above threshold (c + binSum h (seqZ j (a + Z.of_nat n - j))).
Proof.
  induction n as [| n IH]; intros a c j Hc; [by rewrite seqZ_nil; simpl |].
  rewrite seqZ_S, reverse_snoc. simpl.
  destruct (Qlt_le_dec threshold (inject_Z (c + rd h (a + Z.of_nat n))))
    as [Hlt | Hle].
  - intros [= <-].
    replace (a + Z.of_nat (S n) - (a + Z.of_nat n) - 1) with 0 by lia.
    replace (a + Z.of_nat (S n) - (a + Z.of_nat n)) with 1 by lia.
    rewrite binSum_seqZ_one, seqZ_nil by lia.
    unfold binSum; simpl. rewrite Z.add_0_r. split; [lia | done].
  - intros Hscan. apply IH in Hscan as (Hj & Hlow & Hhigh).
    2:{ unfold above. by apply Qle_not_lt. }
    split; [lia |].
    replace (a + Z.of_nat (S n) - j - 1) with ((a + Z.of_nat n - j - 1) + 1) by lia.
    replace (a + Z.of_nat (S n) - j) with ((a + Z.of_nat n - j) + 1) by lia.
    rewrite (binSum_seqZ_split (j + 1) (a + Z.of_nat n - j - 1) 1),
      (binSum_seqZ_split j (a + Z.of_nat n - j) 1), !binSum_seqZ_one by lia.
    replace (j + 1 + (a + Z.of_nat n - j - 1)) with (a + Z.of_nat n) by lia.
    replace (j + (a + Z.of_nat n - j)) with (a + Z.of_nat n) by lia.
    split.
    + by replace (c + (binSum h (seqZ (j + 1) (a + Z.of_nat n - j - 1))
                       + rd h (a + Z.of_nat n)))
        with (c + rd h (a + Z.of_nat n)
              + binSum h (seqZ (j + 1) (a + Z.of_nat n - j - 1))) by lia.
    + by replace (c + (binSum h (seqZ j (a + Z.of_nat n - j))
                       + rd h (a + Z.of_nat n)))
        with (c + rd h (a + Z.of_nat n)
              + binSum h (seqZ j (a + Z.of_nat n - j))) by lia.
Qed.

End ContrastScan.

Lemma foldl_add_foldr (l : list Z) (c : Z) : foldl Z.add c l = c + foldr Z.add 0 l.
Proof.
  revert c. induction l as [| v l IH]; intros c; simpl; [lia |].
  rewrite IH. lia.
Qed.

Lemma fmap_rd_seqZ (h : list Z) : rd h <$> seqZ 0 (Z.of_nat (length h)) = h.
Proof.
  apply list_eq_same_length with (length h); [done | |].
  { by rewrite length_fmap, length_seqZ, Nat2Z.id. }
  intros n v v' Hn Hv Hv'.
  rewrite list_lookup_fmap, lookup_seqZ_lt in Hv by lia. simpl in Hv.
  unfold rd, aget in Hv. destruct (Z.ltb_spec (0 + Z.of_nat n) 0); [lia |].
  replace (Z.to_nat (0 + Z.of_nat n)) with n in Hv by lia.
  rewrite Hv' in Hv. simpl in Hv. congruence.
Qed.

Lemma histogramTotal_binSum (h : list Z) :
  ImageAnalysis.histogramTotal h = binSum h (seqZ 0 (Z.of_nat (length h))).
Proof.
  unfold ImageAnalysis.histogramTotal, binSum.
  rewrite foldl_add_foldr, fmap_rd_seqZ. lia.
Qed.

Lemma above_one_percent (total c : Z) :
  above (inject_Z total * (1 # 100)) c <-> total < 100 * c.
Proof. unfold above, Qlt. simpl. lia. Qed.

(** The low significant bin is never above the high one. *)
Lemma significant_bins_ordered (h : list Z) :
  length h = 256%nat -> (forall i, 0 <= rd h i) ->
  0 <= ImageAnalysis.minSignificantOf h
  /\ ImageAnalysis.minSignificantOf h <= ImageAnalysis.maxSignificantOf h
  /\ ImageAnalysis.maxSignificantOf h <= 255.
Proof.
  intros Hlen Hpos.
  unfold ImageAnalysis.minSignificantOf, ImageAnalysis.maxSignificantOf, for_range.
  set (total := ImageAnalysis.histogramTotal h).
  set (t := (inject_Z total * (1 # 100))%Q).
  assert (total = binSum h (seqZ 0 256)) as Htotal.
  { unfold total. rewrite histogramTotal_binSum, Hlen. done. }
  assert (0 <= total) as Htotal0 by (rewrite Htotal; by apply binSum_nonneg).
  assert (~ above t 0) as H0 by (unfold t; rewrite above_one_percent; lia).
  change (256 - 0) with (Z.of_nat 256).
  destruct (ImageAnalysis.significantBin t h (seqZ 0 (Z.of_nat 256)) 0)
    as [i |] eqn:Hup;
    destruct (ImageAnalysis.significantBin t h (reverse (seqZ 0 (Z.of_nat 256))) 0)
      as [j |] eqn:Hdown; simpl.
  - apply significantBin_up in Hup as (Hi & Hlow & Hhigh); [| done].
    apply significantBin_down in Hdown as (Hj & Hlow' & Hhigh'); [| done].
    split; [lia |]. split; [| lia].
    destruct (Z.le_gt_cases i j) as [| Hlt]; [done | exfalso].
    unfold t in *. rewrite above_one_percent in *.
    rewrite Z.sub_0_r, Z.add_0_l in *.
    pose proof (binSum_seqZ_split h 0 i (256 - i) ltac:(lia) ltac:(lia)) as Hsplit.
    replace (i + (256 - i)) with 256 in Hsplit by lia.
    pose proof (binSum_seqZ_split h (j + 1) (i - j - 1) (256 - i)
                  ltac:(lia) ltac:(lia)) as Hsuffix.
    replace (i - j - 1 + (256 - i)) with (0 + Z.of_nat 256 - j - 1) in Hsuffix by lia.
    replace (j + 1 + (i - j - 1)) with i in Hsuffix by lia.
    pose proof (binSum_nonneg h (seqZ (j + 1) (i - j - 1)) Hpos).
    pose proof (binSum_seqZ_split h 0 (i + 1) (256 - i - 1) ltac:(lia) ltac:(lia))
      as Hprefix.
    replace (i + 1 + (256 - i - 1)) with 256 in Hprefix by lia.
    pose proof (binSum_nonneg h (seqZ (0 + (i + 1)) (256 - i - 1)) Hpos).
    rewrite Z.add_0_l in Hsplit. simpl in *. lia.
  - apply significantBin_up in Hup as (Hi & _); [lia | done].
  - apply significantBin_down in Hdown as (Hj & _); [lia | done].
  - lia.
Qed.

(** The luminance of a pixel of bytes is a bin of the histogram, so that
    no increment of the analyzer falls outside of its 256 bins. *)
Lemma pixelLuminance_in_range (r g b : Z) :
  0 <= r <= 255 -> 0 <= g <= 255 -> 0 <= b <= 255 ->
  0 <= ImageAnalysis.pixelLuminance r g b <= 255.
Proof.
  intros Hr Hg Hb. unfold ImageAnalysis.pixelLuminance, Math_round.
  set (q := ((299 # 1000) * inject_Z r + (587 # 1000) * inject_Z g
             + (114 # 1000) * inject_Z b)%Q).
  assert (0 <= inject_Z r <= 255 /\ 0 <= inject_Z g <= 255
          /\ 0 <= inject_Z b <= 255)%Q as (Hr' & Hg' & Hb').
  { change 0%Q with (inject_Z 0). change 255%Q with (inject_Z 255).
    rewrite <- !Zle_Qle. lia. }
  assert (0 <= q <= 255)%Q as Hq by (unfold q; lra).
  pose proof (Qfloor_le (q + (1 # 2))) as Hlo.
  pose proof (Qlt_floor (q + (1 # 2))) as Hhi.
  set (f := Qfloor (q + (1 # 2))) in *.
  rewrite inject_Z_plus in Hhi. change (inject_Z 1) with 1%Q in Hhi.
  assert (inject_Z (-1) < inject_Z f)%Q as H1
    by (change (inject_Z (-1)) with (-1)%Q; lra).
  assert (inject_Z f < inject_Z 256)%Q as H2
    by (change (inject_Z 256) with 256%Q; lra).
  rewrite <- Zlt_Qlt in H1, H2. lia.
Qed.

Lemma length_aincr (a : list Z) (i : Z) : length (aincr a i) = length a.
Proof. unfold aincr. destruct (i <? 0); [done | apply length_alter]. Qed.

Lemma rd_aincr_ge (a : list Z) (i j : Z) : rd a j <= rd (aincr a i) j.
Proof.
  unfold rd, aget, aincr.
  destruct (Z.ltb_spec j 0); [simpl; lia |].
  destruct (Z.ltb_spec i 0); [lia |].
  rewrite list_lookup_alter.
  case_decide as Hij; [rewrite Hij |]; destruct (a !! Z.to_nat j); cbn; lia.
Qed.

Lemma rd_replicate_zero (n : nat) (i : Z) : 0 <= rd (replicate n 0) i.
Proof.
  unfold rd, aget. destruct (i <? 0); [done |].
  destruct (replicate n 0 !! Z.to_nat i) as [v |] eqn:E; [| done].
  apply lookup_replicate in E as [-> _]. done.
Qed.

(** The luminance histogram keeps its 256 bins, none of them negative. *)
Lemma buildHistogram_luminance (d : list Z) :
  let h := ImageAnalysis.luminance (ImageAnalysis.buildHistogram d).1.1 in
  length h = 256%nat /\ forall i, 0 <= rd h i.
Proof.
  unfold ImageAnalysis.buildHistogram.
  apply (foldl_invariant
           (fun st => length (ImageAnalysis.luminance st.1.1) = 256%nat
                      /\ forall i, 0 <= rd (ImageAnalysis.luminance st.1.1) i)).
  - split; [done |]. intros i. apply rd_replicate_zero.
  - intros [[hist tl] ts] i _ [Hlen Hpos]. unfold ImageAnalysis.histogramStep.
    destruct (rd d (i + 3) =? 0); [done |]. simpl in *.
    split; [by rewrite length_aincr |].
    intros k. etrans; [apply Hpos | apply rd_aincr_ge].
Qed.

Lemma analyzeImageHistogram_contrast (img : DOM.ImageData) :
  ImageAnalysis.contrastLevel (ImageAnalysis.analyzeImageHistogram img)
  = ImageAnalysis.calculateContrastLevel
      (ImageAnalysis.luminance (ImageAnalysis.buildHistogram (DOM.data img)).1.1).
Proof.
  unfold ImageAnalysis.analyzeImageHistogram.
  by destruct (ImageAnalysis.buildHistogram (DOM.data img)) as [[hist tl] ts].
Qed.

(** C10: for every buffer, also one without any opaque pixel, the low
    significant bin is at most the high one and [contrastLevel] lies in
    [0, 1]. *)
Theorem contrastLevel_in_unit_interval (img : DOM.ImageData) :
  let h := ImageAnalysis.luminance (ImageAnalysis.buildHistogram (DOM.data img)).1.1 in
  ImageAnalysis.minSignificantOf h <= ImageAnalysis.maxSignificantOf h
  /\ (0 <= ImageAnalysis.contrastLevel (ImageAnalysis.analyzeImageHistogram img) <= 1)%Q.
Proof.
  intros h.
  destruct (buildHistogram_luminance (DOM.data img)) as [Hlen Hpos].
  destruct (significant_bins_ordered h Hlen Hpos) as (Hmin & Hle & Hmax).
  split; [done |].
  rewrite analyzeImageHistogram_contrast. fold h.
  unfold ImageAnalysis.calculateContrastLevel.
  set (m := ImageAnalysis.maxSignificantOf h - ImageAnalysis.minSignificantOf h).
  assert (0 <= m <= 255) as Hm by (unfold m; lia).
  unfold Qle, Qdiv, Qmult, Qinv. simpl. lia.
Qed.

(** ** The histogram analyzer: the averages *)

Lemma filter_all {A : Type} (P : A -> Prop) `{!forall x, Decision (P x)}
    (l : list A) :
  Forall P l -> filter P l = l.
Proof.
  induction 1 as [| x l Hx Hl IH]; [done |].
  by rewrite filter_cons_True, IH.
Qed.

Lemma foldl_histogramStep_totals (d : list Z) (offsets : list Z)
    (st : ImageAnalysis.accum) :
  let st' := foldl (ImageAnalysis.histogramStep d) st offsets in
  let opaque := filter (fun i => rd d (i + 3) <> 0) offsets in
  st'.1.2 = st.1.2 + foldr Z.add 0 (ImageAnalysis.luminanceAt d <$> opaque)
  /\ (st'.2 == st.2 + foldr Qplus 0 (ImageAnalysis.saturationAt d <$> opaque))%Q.
Proof.
  revert st. induction offsets as [| i offsets IH]; intros st; simpl.
  - split; [lia | ring].
  - destruct (IH (ImageAnalysis.histogramStep d st i)) as [Hl Hs].
    rewrite Hl, Hs. clear IH Hl Hs.
    destruct st as [[hist tl] ts]. unfold ImageAnalysis.histogramStep.
    destruct (Z.eqb_spec (rd d (i + 3)) 0) as [Hz | Hnz].
    + rewrite filter_cons_False by (intros Hne; by apply Hne). done.
    + rewrite filter_cons_True by done. rewrite !fmap_cons. simpl.
      unfold ImageAnalysis.luminanceAt, ImageAnalysis.saturationAt.
      split; [lia | ring].
Qed.

(** What the analyzer returns for every buffer: the sums over the pixels
    of non-zero alpha, each divided by the number of all pixels. *)
Lemma analyzeImageHistogram_averages (img : DOM.ImageData) :
  let d := DOM.data img in
  let opaque := ImageAnalysis.opaqueOffsets d in
  let pixelCount := inject_Z (DOM.width img * DOM.height img) in
  let totalLuminance := foldr Z.add 0 (ImageAnalysis.luminanceAt d <$> opaque) in
  let totalSaturation := foldr Qplus 0%Q (ImageAnalysis.saturationAt d <$> opaque) in
  (ImageAnalysis.averageLuminance (ImageAnalysis.analyzeImageHistogram img)
   == inject_Z totalLuminance / pixelCount)%Q
  /\ (ImageAnalysis.saturationLevel (ImageAnalysis.analyzeImageHistogram img)
      == totalSaturation / pixelCount)%Q.
Proof.
  intros d opaque pixelCount totalLuminance totalSaturation.
  unfold ImageAnalysis.analyzeImageHistogram, ImageAnalysis.buildHistogram.
  destruct (foldl_histogramStep_totals d (for_step (Z.of_nat (length d)) 4)
              ImageAnalysis.accum0) as [Hl Hs].
  fold d. fold (ImageAnalysis.opaqueOffsets d) in Hl, Hs. fold opaque in Hl, Hs.
  fold totalLuminance in Hl. fold totalSaturation in Hs.
  destruct (foldl _ _ _) as [[hist tl] ts]. simpl in *.
  fold pixelCount. rewrite Hl, Hs, Qplus_0_l. split; reflexivity.
Qed.

(** On a buffer without any pixel of alpha 0 the analyzer agrees with the
    means over the pixels of non-zero alpha. *)
Lemma analyzeImageHistogram_opaque (img : DOM.ImageData) :
  DOM.wf_image img = true ->
  (forall i, i ∈ for_step (Z.of_nat (length (DOM.data img))) 4 ->
             rd (DOM.data img) (i + 3) <> 0) ->
  (ImageAnalysis.averageLuminance (ImageAnalysis.analyzeImageHistogram img)
   == ImageAnalysis.specAverageLuminance (DOM.data img))%Q
  /\ (ImageAnalysis.saturationLevel (ImageAnalysis.analyzeImageHistogram img)
      == ImageAnalysis.specSaturationLevel (DOM.data img))%Q.
Proof.
  intros (Hw & Hh & Hlen & _)%wf_image_spec Hopaque.
  destruct (analyzeImageHistogram_averages img) as [Hl Hs].
  rewrite Hl, Hs.
  unfold ImageAnalysis.specAverageLuminance, ImageAnalysis.specSaturationLevel.
  assert (Z.of_nat (length (ImageAnalysis.opaqueOffsets (DOM.data img)))
          = DOM.width img * DOM.height img) as ->; [| split; reflexivity].
  unfold ImageAnalysis.opaqueOffsets.
  rewrite filter_all.
  - unfold for_step. rewrite length_fmap, length_seqZ, Hlen.
    replace (DOM.width img * DOM.height img * 4 + 4 - 1)
      with (3 + DOM.width img * DOM.height img * 4) by lia.
    rewrite Z.div_add by lia. change (3 `div` 4) with 0. nia.
  - by apply Forall_forall.
Qed.

(** C1: on a buffer of one opaque red pixel and one fully transparent
    pixel the analyzer divides the sums over the opaque pixel by the number
    of all pixels: it reports an average luminance of 38 and a saturation
    of 1/2, where the means over the opaque pixels are 76 and 1. *)
Theorem averages_divide_by_all_pixels :
  DOM.wf_image Samples.redAndClear = true
  /\ (ImageAnalysis.averageLuminance
        (ImageAnalysis.analyzeImageHistogram Samples.redAndClear) == 38)%Q
  /\ (ImageAnalysis.specAverageLuminance (DOM.data Samples.redAndClear) == 76)%Q
  /\ (ImageAnalysis.saturationLevel
        (ImageAnalysis.analyzeImageHistogram Samples.redAndClear) == 1 # 2)%Q
  /\ (ImageAnalysis.specSaturationLevel (DOM.data Samples.redAndClear) == 1)%Q.
Proof. repeat split; vm_compute; reflexivity. Qed.

(** ** The sharpness scorer *)

Lemma normalizeSharpness_range (e : Sharpening.num Q) (n : Z) (v : Q) :
  Sharpening.normalizeSharpness e n = Some v -> (0 <= v <= 100)%Q.
Proof.
  unfold Sharpening.normalizeSharpness. destruct e as [e |]; [| done]. simpl.
  destruct (n =? 0); [done |]. intros [= <-]. split.
  - apply Q.min_glb; [discriminate | apply Q.le_max_l].
  - apply Q.le_min_l.
Qed.

(** Whenever the scorer yields a number, it lies in [0, 100]. *)
Lemma analyzeImageSharpness_range (Msqrt : Q -> Q) (img : DOM.ImageData) (v : Q) :
  Sharpening.analyzeImageSharpness Msqrt img = Some v -> (0 <= v <= 100)%Q.
Proof.
  unfold Sharpening.analyzeImageSharpness.
  destruct (Sharpening.interior _ _ _ _) as [e n]. apply normalizeSharpness_range.
Qed.

Lemma normalizeSharpness_zero (e : Q) :
  (e == 0)%Q ->
  exists v, Sharpening.normalizeSharpness (Some (0 + e)%Q) 1 = Some v /\ (v == 0)%Q.
Proof.
  intros He. eexists. split; [reflexivity |].
  assert ((0 + e) / inject_Z 1 / 3 == 0)%Q as -> by (rewrite He; reflexivity).
  reflexivity.
Qed.

Lemma normalizeSharpness_positive (e : Q) :
  (0 < e)%Q ->
  exists v, Sharpening.normalizeSharpness (Some (0 + e)%Q) 1 = Some v /\ (0 < v)%Q.
Proof.
  intros He. eexists. split; [reflexivity |].
  apply Q.min_glb_lt; [reflexivity |].
  apply Qlt_le_trans with ((0 + e) / inject_Z 1 / 3)%Q; [| apply Q.le_max_r].
  unfold Qdiv. change (/ inject_Z 1)%Q with 1%Q. change (/ 3)%Q with (1 # 3)%Q. lra.
Qed.

(** C2: on a 3 x 3 opaque image with a vertical green edge and no red, the
    scorer returns 0, although the gradient of the grayscale conversion is
    not zero there: the Sobel sums of the source read the red samples. *)
Theorem analyzeImageSharpness_reads_red_only (Msqrt : Q -> Q) :
  (Msqrt 0 == 0)%Q ->
  (forall q, (0 < q)%Q -> (0 < Msqrt q)%Q) ->
  DOM.wf_image Samples.greenEdge = true
  /\ (exists v, Sharpening.analyzeImageSharpness Msqrt Samples.greenEdge = Some v
                /\ (v == 0)%Q)
  /\ (exists v, Sharpening.specSharpness Msqrt Samples.greenEdge = Some v
                /\ (0 < v)%Q).
Proof.
  intros Hzero Hpos. split; [reflexivity |]. split.
  - change (Sharpening.analyzeImageSharpness Msqrt Samples.greenEdge)
      with (Sharpening.normalizeSharpness (Some (0 + Msqrt 0)%Q) 1).
    by apply normalizeSharpness_zero.
  - assert (exists g, (0 < g)%Q
                      /\ Sharpening.specSharpness Msqrt Samples.greenEdge
                         = Sharpening.normalizeSharpness (Some (0 + Msqrt g)%Q) 1)
      as (g & Hg & ->).
    { eexists. split; [| vm_compute; reflexivity]. reflexivity. }
    apply normalizeSharpness_positive. by apply Hpos.
Qed.

Lemma sqrtUp_zero : (Samples.sqrtUp 0 == 0)%Q.
Proof. reflexivity. Qed.

Lemma sqrtUp_positive (q : Q) : (0 < q)%Q -> (0 < Samples.sqrtUp q)%Q.
Proof.
  intros Hq. unfold Samples.sqrtUp.
  assert (0 < Qceiling q) as Hc.
  { apply Z.lt_nge. intros Hle.
    assert (q <= inject_Z (Qceiling q))%Q by apply Qle_ceiling.
    assert (inject_Z (Qceiling q) <= inject_Z 0)%Q by (by rewrite <- Zle_Qle).
    change (inject_Z 0) with 0%Q in *. lra. }
  change 0%Q with (inject_Z 0). rewrite <- Zlt_Qlt.
  by apply Z.sqrt_up_pos.
Qed.

Lemma analyzeImageSharpness_reads_red_only_witness :
  DOM.wf_image Samples.greenEdge = true
  /\ (exists v, Sharpening.analyzeImageSharpness Samples.sqrtUp Samples.greenEdge
                = Some v /\ (v == 0)%Q)
  /\ (exists v, Sharpening.specSharpness Samples.sqrtUp Samples.greenEdge = Some v
                /\ (0 < v)%Q).
Proof.
  apply (analyzeImageSharpness_reads_red_only Samples.sqrtUp).
  - exact sqrtUp_zero.
  - exact sqrtUp_positive.
Defined.

(** ** The cropper: the scan of the mask *)

Section SubjectScan.

Import AutoCrop.

Variable segmentation : list Z.
Variables width height : Z.

Lemma scanSubject_invariant (I : Extent -> Prop) :
  I (mkExtent width 0 height 0 0) ->
  (forall y x e, 0 <= y < height -> 0 <= x < width -> I e ->
                 I (subjectStep segmentation width y x e)) ->
  I (scanSubject segmentation width height).
Proof.
  intros Hinit Hstep. unfold scanSubject.
  apply foldl_invariant; [done |].
  intros e y Hy%elem_of_for_range He.
  apply foldl_invariant; [done |].
  intros e' x Hx%elem_of_for_range He'. apply Hstep; [lia | lia | done].
Qed.

Lemma scanSubject_established (I P : Extent -> Prop) (y0 x0 : Z) :
  0 <= y0 < height -> 0 <= x0 < width ->
  I (mkExtent width 0 height 0 0) ->
  (forall y x e, 0 <= y < height -> 0 <= x < width -> I e ->
                 I (subjectStep segmentation width y x e)) ->
  (forall e, I e -> P (subjectStep segmentation width y0 x0 e)) ->
  (forall y x e, 0 <= y < height -> 0 <= x < width -> I e -> P e ->
                 P (subjectStep segmentation width y x e)) ->
  P (scanSubject segmentation width height).
Proof.
  intros Hy0 Hx0 Hinit Hinv Hest Hstable. unfold scanSubject.
  assert (forall y e, 0 <= y < height -> I e ->
            I (foldl (fun e x => subjectStep segmentation width y x e) e
                     (for_range 0 width))) as Hrow.
  { intros y e Hy He. apply foldl_invariant; [done |].
    intros e' x Hx%elem_of_for_range He'. apply Hinv; [lia | lia | done]. }
  apply (foldl_established I P _ _ y0).
  - apply elem_of_for_range. lia.
  - done.
  - intros e y Hy%elem_of_for_range He. apply Hrow; [lia | done].
  - intros e He. apply (foldl_established I P _ _ x0).
    + apply elem_of_for_range. lia.
    + done.
    + intros e' x Hx%elem_of_for_range He'. apply Hinv; [lia | lia | done].
    + done.
    + intros e' x Hx%elem_of_for_range He' Hp. apply Hstable; [lia | lia | done ..].
  - intros e y Hy%elem_of_for_range He Hp.
    apply (foldl_invariant (fun e => I e /\ P e)); [done |].
    intros e' x Hx%elem_of_for_range [He' Hp'].
    split; [apply Hinv | apply Hstable]; done || lia.
Qed.

(** Without a foreground label the scan finds nothing. *)
Lemma findSubjectBounds_none :
  (forall i, aget segmentation i <> Some 1) ->
  findSubjectBounds segmentation width height = None.
Proof.
  intros Hzero. unfold findSubjectBounds.
  assert (scanSubject segmentation width height = mkExtent width 0 height 0 0)
    as ->; [| done].
  apply (scanSubject_invariant (fun e => e = mkExtent width 0 height 0 0));
    [done |].
  intros y x e _ _ ->. unfold subjectStep.
  specialize (Hzero (y * width + x)).
  destruct (aget segmentation (y * width + x)) as [[| [| |] |] |]; congruence.
Qed.

(** The foreground of the mask is the rectangle at [(x0, y0)] of size
    [w0 x h0], which lies inside the image. *)
Variables x0 y0 w0 h0 : Z.
Hypothesis rect_inside :
  0 <= x0 /\ 0 <= y0 /\ 1 <= w0 /\ 1 <= h0
  /\ x0 + w0 <= width /\ y0 + h0 <= height.
Hypothesis rect_foreground :
  forall x y, 0 <= x < width -> 0 <= y < height ->
    (aget segmentation (y * width + x) = Some 1
     <-> x0 <= x < x0 + w0 /\ y0 <= y < y0 + h0).

Let inside (e : Extent) : Prop :=
  0 <= subjectPixelCount e
  /\ x0 <= minX e /\ maxX e <= x0 + w0 - 1
  /\ y0 <= minY e /\ maxY e <= y0 + h0 - 1.

Lemma subjectStep_inside (y x : Z) (e : Extent) :
  0 <= y < height -> 0 <= x < width -> inside e ->
  inside (subjectStep segmentation width y x e).
Proof.
  intros Hy Hx He. unfold subjectStep.
  destruct (aget segmentation (y * width + x)) as [v |] eqn:Hv; [| done].
  destruct (decide (v = 1)) as [-> | Hne].
  - apply rect_foreground in Hv; [| done ..].
    unfold inside in *. simpl. lia.
  - by destruct v as [| [| |] |].
Qed.

Lemma subjectStep_foreground (y x : Z) (e : Extent) :
  0 <= x < width -> 0 <= y < height ->
  x0 <= x < x0 + w0 -> y0 <= y < y0 + h0 ->
  subjectStep segmentation width y x e
  = mkExtent (Z.min (minX e) x) (Z.max (maxX e) x)
             (Z.min (minY e) y) (Z.max (maxY e) y) (subjectPixelCount e + 1).
Proof.
  intros Hx Hy Hxr Hyr. unfold subjectStep.
  assert (aget segmentation (y * width + x) = Some 1) as ->; [| done].
  by apply rect_foreground.
Qed.

Lemma subjectStep_monotone (y x : Z) (e : Extent) :
  let e' := subjectStep segmentation width y x e in
  minX e' <= minX e /\ maxX e <= maxX e' /\ minY e' <= minY e
  /\ maxY e <= maxY e' /\ subjectPixelCount e <= subjectPixelCount e'.
Proof.
  unfold subjectStep.
  destruct (aget segmentation (y * width + x)) as [[| [| |] |] |]; simpl; lia.
Qed.

(** The scan of a rectangular foreground finds its four sides. *)
Lemma scanSubject_rectangle :
  let e := scanSubject segmentation width height in
  minX e = x0 /\ maxX e = x0 + w0 - 1 /\ minY e = y0 /\ maxY e = y0 + h0 - 1
  /\ 0 < subjectPixelCount e.
Proof.
  destruct rect_inside as (Hx0 & Hy0 & Hw0 & Hh0 & Hxw & Hyh).
  assert (inside (mkExtent width 0 height 0 0)) as Hinit
    by (unfold inside; simpl; lia).
  assert (inside (scanSubject segmentation width height)) as Hin.
  { apply scanSubject_invariant; [done |]. intros; by apply subjectStep_inside. }
  assert (let e := scanSubject segmentation width height in
          minX e <= x0 /\ minY e <= y0 /\ 1 <= subjectPixelCount e) as Hlow.
  { apply (scanSubject_established inside
             (fun e => minX e <= x0 /\ minY e <= y0 /\ 1 <= subjectPixelCount e)
             y0 x0); try done; try lia.
    - intros; by apply subjectStep_inside.
    - intros e He. rewrite subjectStep_foreground by lia.
      unfold inside in He. simpl. lia.
    - intros y x e _ _ _ He.
      pose proof (subjectStep_monotone y x e). simpl in *. lia. }
  assert (let e := scanSubject segmentation width height in
          x0 + w0 - 1 <= maxX e /\ y0 + h0 - 1 <= maxY e) as Hhigh.
  { apply (scanSubject_established inside
             (fun e => x0 + w0 - 1 <= maxX e /\ y0 + h0 - 1 <= maxY e)
             (y0 + h0 - 1) (x0 + w0 - 1)); try done; try lia.
    - intros; by apply subjectStep_inside.
    - intros e He. rewrite subjectStep_foreground by lia. simpl. lia.
    - intros y x e _ _ _ He.
      pose proof (subjectStep_monotone y x e). simpl in *. lia. }
  unfold inside in Hin. simpl in *. lia.
Qed.

Lemma findSubjectBounds_rectangle :
  findSubjectBounds segmentation width height = Some (rect x0 y0 w0 h0).
Proof.
  unfold findSubjectBounds.
  destruct scanSubject_rectangle as (-> & -> & -> & -> & Hcount).
  destruct (Z.eqb_spec (subjectPixelCount (scanSubject segmentation width height)) 0);
    [lia |].
  unfold rect. do 2 f_equal; f_equal; lia.
Qed.

End SubjectScan.

(** ** The cropper: rounding and the steps of the pipeline *)

(** Linear arithmetic over [Q], with the halves written as divisions. *)
Ltac qlra :=
  unfold Qdiv in *; change (/ 2)%Q with (1 # 2)%Q in *; lra.

Lemma Math_round_comp (q q' : Q) : (q == q')%Q -> Math_round q = Math_round q'.
Proof. intros Heq. unfold Math_round. by rewrite Heq. Qed.

Lemma Math_round_bounds (q : Q) :
  (q - (1 # 2) < inject_Z (Math_round q) /\ inject_Z (Math_round q) <= q + (1 # 2))%Q.
Proof.
  unfold Math_round. split.
  - pose proof (Qlt_floor (q + (1 # 2))) as Hlt.
    rewrite inject_Z_plus in Hlt. change (inject_Z 1) with 1%Q in Hlt. lra.
  - apply Qfloor_le.
Qed.

Lemma Math_round_Z (z : Z) : Math_round (inject_Z z) = z.
Proof.
  pose proof (Math_round_bounds (inject_Z z)) as [Hlo Hhi].
  set (r := Math_round (inject_Z z)) in *.
  assert (inject_Z z - 1 < inject_Z r)%Q as Hlo' by lra.
  assert (inject_Z r < inject_Z z + 1)%Q as Hhi' by lra.
  change 1%Q with (inject_Z 1) in Hlo', Hhi'.
  rewrite <- inject_Z_plus in Hhi'.
  unfold Qminus in Hlo'. rewrite <- inject_Z_opp, <- inject_Z_plus in Hlo'.
  rewrite <- Zlt_Qlt in Hlo', Hhi'. lia.
Qed.

Lemma aspectTooExtreme_comp (w w' h h' : Q) :
  (w == w')%Q -> (h == h')%Q ->
  AutoCrop.aspectTooExtreme w h = AutoCrop.aspectTooExtreme w' h'.
Proof.
  intros Hw Hh. unfold AutoCrop.aspectTooExtreme.
  assert (Qeq_bool h 0 = Qeq_bool h' 0) as ->.
  { destruct (Qeq_bool h 0) eqn:E, (Qeq_bool h' 0) eqn:E'; try done.
    - apply Qeq_bool_iff in E. apply Qeq_bool_neq in E'. by rewrite <- Hh in E'.
    - apply Qeq_bool_iff in E'. apply Qeq_bool_neq in E. by rewrite Hh in E. }
  assert (Qeq_bool w 0 = Qeq_bool w' 0) as ->.
  { destruct (Qeq_bool w 0) eqn:E, (Qeq_bool w' 0) eqn:E'; try done.
    - apply Qeq_bool_iff in E. apply Qeq_bool_neq in E'. by rewrite <- Hw in E'.
    - apply Qeq_bool_iff in E'. apply Qeq_bool_neq in E. by rewrite Hw in E. }
  destruct (Qeq_bool h' 0); [done |].
  assert (w / h == w' / h')%Q as Hr by (by rewrite Hw, Hh).
  destruct (Qlt_le_dec 3 (w / h)), (Qlt_le_dec 3 (w' / h')),
    (Qlt_le_dec (w / h) (33 # 100)), (Qlt_le_dec (w' / h') (33 # 100));
    try done; rewrite Hr in *; lra.
Qed.

(** Zero padding leaves a rectangle that fits in the image as it is. *)
Lemma applyCropPadding_zero (b : AutoCrop.CropBounds) (W H : Z) (p : Q) :
  (p == 0)%Q ->
  (0 <= AutoCrop.x b)%Q -> (0 <= AutoCrop.y b)%Q ->
  (AutoCrop.x b + AutoCrop.width b <= inject_Z W)%Q ->
  (AutoCrop.y b + AutoCrop.height b <= inject_Z H)%Q ->
  boundsEq (AutoCrop.applyCropPadding b W H p) b.
Proof.
  intros Hp Hx Hy Hxw Hyh. unfold AutoCrop.applyCropPadding.
  assert (Math_round (AutoCrop.width b * p) = 0) as ->.
  { rewrite (Math_round_comp _ 0); [done | rewrite Hp; ring]. }
  assert (Math_round (AutoCrop.height b * p) = 0) as ->.
  { rewrite (Math_round_comp _ 0); [done | rewrite Hp; ring]. }
  change (inject_Z 0) with 0%Q.
  assert (Qmax 0 (AutoCrop.x b - 0) == AutoCrop.x b)%Q as Hpx
    by (rewrite Q.max_r; lra).
  assert (Qmax 0 (AutoCrop.y b - 0) == AutoCrop.y b)%Q as Hpy
    by (rewrite Q.max_r; lra).
  set (px := Qmax 0 (AutoCrop.x b - 0)) in *.
  set (py := Qmax 0 (AutoCrop.y b - 0)) in *.
  unfold boundsEq. simpl.
  destruct (Qlt_le_dec (inject_Z W) (px + (AutoCrop.width b + 2 * 0)));
    destruct (Qlt_le_dec (inject_Z H) (py + (AutoCrop.height b + 2 * 0)));
    repeat split; lra.
Qed.

Lemma normalizeAspect_moderate (b : AutoCrop.CropBounds) :
  AutoCrop.aspectTooExtreme (AutoCrop.width b) (AutoCrop.height b) = false ->
  AutoCrop.normalizeAspect b = b.
Proof. intros Hb. unfold AutoCrop.normalizeAspect. by rewrite Hb. Qed.

Lemma ensureMinimumSize_large (b : AutoCrop.CropBounds) (minCropSize : Q) :
  (minCropSize <= AutoCrop.width b)%Q -> (minCropSize <= AutoCrop.height b)%Q ->
  AutoCrop.ensureMinimumSize b minCropSize = b.
Proof.
  intros Hw Hh. unfold AutoCrop.ensureMinimumSize.
  destruct (Qlt_le_dec (AutoCrop.width b) minCropSize); [lra |].
  destruct (Qlt_le_dec (AutoCrop.height b) minCropSize); [lra | done].
Qed.

(** C7: the foreground of the mask is one rectangle inside the image, with
    a ratio of width to height between 0.33 and 3; with no padding and a
    minimum size of 1 the crop computation returns that rectangle. *)
Theorem findOptimalCropBounds_rectangle (segmentation : list Z)
    (width height x0 y0 w0 h0 : Z) :
  0 <= x0 /\ 0 <= y0 /\ 1 <= w0 /\ 1 <= h0
  /\ x0 + w0 <= width /\ y0 + h0 <= height ->
  (forall x y, 0 <= x < width -> 0 <= y < height ->
     (aget segmentation (y * width + x) = Some 1
      <-> x0 <= x < x0 + w0 /\ y0 <= y < y0 + h0)) ->
  (~ 3 < inject_Z w0 / inject_Z h0)%Q ->
  (~ inject_Z w0 / inject_Z h0 < 33 # 100)%Q ->
  exists b,
    AutoCrop.findOptimalCropBounds segmentation width height
      (AutoCrop.mkAutoCropOptions (Some 0%Q) (Some 1%Q)) = Some b
    /\ boundsEq b (AutoCrop.rect x0 y0 w0 h0).
Proof.
  intros Hin Hfg Hwide Htall. eexists. split; [reflexivity |].
  rewrite (findSubjectBounds_rectangle _ _ _ x0 y0 w0 h0) by done.
  destruct Hin as (Hx0 & Hy0 & Hw0 & Hh0 & Hxw & Hyh). simpl.
  set (r := AutoCrop.rect x0 y0 w0 h0).
  assert (1 <= inject_Z w0)%Q as Hw1 by (change 1%Q with (inject_Z 1); by rewrite <- Zle_Qle).
  assert (1 <= inject_Z h0)%Q as Hh1 by (change 1%Q with (inject_Z 1); by rewrite <- Zle_Qle).
  rewrite ensureMinimumSize_large by done.
  assert (boundsEq (AutoCrop.applyCropPadding r width height 0) r) as Hpad.
  { apply applyCropPadding_zero; simpl.
    - reflexivity.
    - change 0%Q with (inject_Z 0). by rewrite <- Zle_Qle.
    - change 0%Q with (inject_Z 0). by rewrite <- Zle_Qle.
    - rewrite <- inject_Z_plus. by rewrite <- Zle_Qle.
    - rewrite <- inject_Z_plus. by rewrite <- Zle_Qle. }
  rewrite normalizeAspect_moderate; [done |].
  destruct Hpad as (_ & _ & Hw & Hh).
  rewrite (aspectTooExtreme_comp _ _ _ _ Hw Hh). simpl.
  unfold AutoCrop.aspectTooExtreme.
  destruct (Qeq_bool (inject_Z h0) 0) eqn:E.
  { apply Qeq_bool_iff in E. lra. }
  destruct (Qlt_le_dec 3 (inject_Z w0 / inject_Z h0)); [done |].
  destruct (Qlt_le_dec (inject_Z w0 / inject_Z h0) (33 # 100)); done.
Qed.

Lemma Math_round_nonneg (q : Q) :
  (0 <= q)%Q ->
  (0 <= inject_Z (Math_round q) /\ inject_Z (Math_round q) <= 2 * q)%Q.
Proof.
  intros Hq. pose proof (Math_round_bounds q) as [Hlo Hhi].
  set (r := Math_round q) in *.
  assert (0 <= r) as Hr.
  { assert (inject_Z (-1) < inject_Z r)%Q as Hlt
      by (change (inject_Z (-1)) with (-1)%Q; lra).
    rewrite <- Zlt_Qlt in Hlt. lia. }
  split; [change 0%Q with (inject_Z 0); by rewrite <- Zle_Qle |].
  destruct (Qlt_le_dec q (1 # 2)) as [Hsmall | Hbig]; [| lra].
  assert (inject_Z r < inject_Z 1)%Q as Hlt
    by (change (inject_Z 1) with 1%Q; lra).
  rewrite <- Zlt_Qlt in Hlt. assert (r = 0) as -> by lia.
  change (inject_Z 0) with 0%Q. lra.
Qed.

Lemma aget_zeros (n i : Z) : aget (zeros n) i <> Some 1.
Proof.
  unfold aget, zeros. destruct (i <? 0); [done |].
  intros [Hv _]%lookup_replicate. done.
Qed.

Lemma fallbackSide_bounds (W H : Z) :
  0 < W -> 0 < H ->
  (0 < fallbackSide W H /\ fallbackSide W H <= inject_Z W
   /\ fallbackSide W H <= inject_Z H)%Q.
Proof.
  intros HW HH. unfold fallbackSide.
  assert (0 < inject_Z (Z.min W H))%Q
    by (change 0%Q with (inject_Z 0); rewrite <- Zlt_Qlt; lia).
  assert (inject_Z (Z.min W H) <= inject_Z W)%Q by (rewrite <- Zle_Qle; lia).
  assert (inject_Z (Z.min W H) <= inject_Z H)%Q by (rewrite <- Zle_Qle; lia).
  lra.
Qed.

Lemma aspectTooExtreme_square (s : Q) :
  (0 < s)%Q -> AutoCrop.aspectTooExtreme s s = false.
Proof.
  intros Hs. unfold AutoCrop.aspectTooExtreme.
  destruct (Qeq_bool s 0) eqn:E; [apply Qeq_bool_iff in E; lra |].
  assert (s / s == 1)%Q as Hone by (field; lra).
  destruct (Qlt_le_dec 3 (s / s)); [lra |].
  destruct (Qlt_le_dec (s / s) (33 # 100)); [lra | done].
Qed.

(** C4, as the code has it: on a mask without foreground, with no padding
    and a minimum size that the fallback square meets, the crop
    computation returns the square of side [0.8 * min(width, height)]
    whose corner is the rounded centred position, so that its centre is
    within half a pixel of the centre of the image on both axes. *)
Theorem findOptimalCropBounds_empty_mask (segmentation : list Z)
    (width height : Z) (paddingPercentage minCropSize : Q) :
  0 < width -> 0 < height ->
  (forall i, aget segmentation i <> Some 1) ->
  (paddingPercentage == 0)%Q ->
  (minCropSize <= fallbackSide width height)%Q ->
  exists b,
    AutoCrop.findOptimalCropBounds segmentation width height
      (AutoCrop.mkAutoCropOptions (Some paddingPercentage) (Some minCropSize))
    = Some b
    /\ boundsEq b (AutoCrop.centerFallback width height)
    /\ (AutoCrop.width b == fallbackSide width height
        /\ AutoCrop.height b == fallbackSide width height)%Q
    /\ (- (1 # 2) <= AutoCrop.x b + AutoCrop.width b / 2 - inject_Z width / 2
        <= 1 # 2)%Q
    /\ (- (1 # 2) <= AutoCrop.y b + AutoCrop.height b / 2 - inject_Z height / 2
        <= 1 # 2)%Q.
Proof.
  intros HW HH Hzero Hp Hmin. eexists. split; [reflexivity |].
  rewrite findSubjectBounds_none by done. simpl.
  destruct (fallbackSide_bounds width height HW HH) as (Hs0 & HsW & HsH).
  set (f := AutoCrop.centerFallback width height).
  assert (AutoCrop.width f = fallbackSide width height) as Hfw by done.
  assert (AutoCrop.height f = fallbackSide width height) as Hfh by done.
  rewrite ensureMinimumSize_large by (by rewrite ?Hfw, ?Hfh).
  pose proof (Math_round_bounds ((inject_Z width - fallbackSide width height) / 2))
    as [Hxlo Hxhi].
  pose proof (Math_round_bounds ((inject_Z height - fallbackSide width height) / 2))
    as [Hylo Hyhi].
  destruct (Math_round_nonneg ((inject_Z width - fallbackSide width height) / 2))
    as [Hx0 Hx2]; [qlra |].
  destruct (Math_round_nonneg ((inject_Z height - fallbackSide width height) / 2))
    as [Hy0 Hy2]; [qlra |].
  assert (boundsEq (AutoCrop.applyCropPadding f width height paddingPercentage) f)
    as Hpad.
  { apply applyCropPadding_zero; [done | done | done | |];
      rewrite ?Hfw, ?Hfh; simpl; fold (fallbackSide width height); qlra. }
  assert (AutoCrop.aspectTooExtreme
            (AutoCrop.width (AutoCrop.applyCropPadding f width height paddingPercentage))
            (AutoCrop.height (AutoCrop.applyCropPadding f width height paddingPercentage))
          = false) as Hmoderate.
  { destruct Hpad as (_ & _ & Hw & Hh).
    rewrite (aspectTooExtreme_comp _ _ _ _ Hw Hh), Hfw, Hfh.
    by apply aspectTooExtreme_square. }
  rewrite normalizeAspect_moderate by done.
  split; [done |].
  destruct Hpad as (Hx & Hy & Hw & Hh). rewrite Hx, Hy, Hw, Hh, Hfw, Hfh.
  simpl. fold (fallbackSide width height).
  repeat split; qlra.
Qed.

(** ** The cropper: copying the block *)

Lemma isInt_integral (q : Q) (z : Z) :
  (q == inject_Z z)%Q -> isInt q = true /\ Qfloor q = z.
Proof.
  intros Hq. assert (Qfloor q = z) as Hf by (by rewrite Hq, Qfloor_Z).
  split; [| done]. unfold isInt. rewrite Hf. apply Qeq_bool_iff. by symmetry.
Qed.

Lemma agetQ_integral (a : list Z) (q : Q) (z : Z) :
  (q == inject_Z z)%Q -> agetQ a q = aget a z.
Proof. intros [Hi Hf]%isInt_integral. unfold agetQ. by rewrite Hi, Hf. Qed.

Lemma asetQ_integral (a : list Z) (q : Q) (z v : Z) :
  (q == inject_Z z)%Q -> asetQ a q v = aset a z v.
Proof. intros [Hi Hf]%isInt_integral. unfold asetQ. by rewrite Hi, Hf. Qed.

Lemma length_asetQ (a : list Z) (q : Q) (v : Z) : length (asetQ a q v) = length a.
Proof. unfold asetQ. destruct (isInt q); [apply length_aset | done]. Qed.

Lemma foldl_ext_in {A B : Type} (f g : A -> B -> A) (l : list B) (a : A) :
  (forall a b, b ∈ l -> f a b = g a b) -> foldl f a l = foldl g a l.
Proof.
  revert a. induction l as [| b l IH]; intros a Hfg; simpl; [done |].
  rewrite Hfg by left. apply IH. intros a' b' Hb'. apply Hfg. by right.
Qed.

Section StoreLoop.

Variables ys xs cs : list Z.
Variables idx val : Z -> Z -> Z -> Z.

Lemma storeLoop_length (a : list Z) :
  length (storeLoop ys xs cs idx val a) = length a.
Proof.
  unfold storeLoop.
  apply (foldl_invariant (fun e => length e = length a)); [done |].
  intros e y _ He.
  apply (foldl_invariant (fun e => length e = length a)); [done |].
  intros e1 x _ He1.
  apply (foldl_invariant (fun e => length e = length a)); [done |].
  intros e2 c _ He2. by rewrite length_aset.
Qed.

(** If no other turn stores another value at the index of the turn
    [(y0, x0, c0)], the array holds the value of that turn there. *)
Lemma storeLoop_lookup (a : list Z) (y0 x0 c0 : Z) :
  y0 ∈ ys -> x0 ∈ xs -> c0 ∈ cs ->
  0 <= idx y0 x0 c0 < Z.of_nat (length a) ->
  (forall y x c, y ∈ ys -> x ∈ xs -> c ∈ cs ->
                 idx y x c = idx y0 x0 c0 -> val y x c = val y0 x0 c0) ->
  aget (storeLoop ys xs cs idx val a) (idx y0 x0 c0) = Some (val y0 x0 c0).
Proof.
  intros Hy0 Hx0 Hc0 Hrange Hsame.
  set (I := fun e : list Z => length e = length a).
  set (P := fun e : list Z => aget e (idx y0 x0 c0) = Some (val y0 x0 c0)).
  assert (forall y x c e, I e -> I (aset e (idx y x c) (val y x c))) as Hlen.
  { intros y x c e He. unfold I. by rewrite length_aset. }
  assert (forall y x c e, y ∈ ys -> x ∈ xs -> c ∈ cs -> I e -> P e ->
                          P (aset e (idx y x c) (val y x c))) as Hkeep.
  { intros y x c e Hy Hx Hc He Hp. unfold P.
    destruct (decide (idx y x c = idx y0 x0 c0)) as [Heq | Hne].
    - rewrite Heq, (Hsame y x c) by done.
      rewrite aget_aset_eq; [done |]. unfold I in He. by rewrite He.
    - by rewrite aget_aset_ne. }
  unfold storeLoop.
  apply (foldl_established I P _ _ y0); [done | done | | |].
  - intros e y Hy He. apply foldl_invariant; [done |].
    intros e1 x Hx He1. apply foldl_invariant; [done |]. intros; by apply Hlen.
  - intros e He. apply (foldl_established I P _ _ x0); [done | done | | |].
    + intros e1 x Hx He1. apply foldl_invariant; [done |]. intros; by apply Hlen.
    + intros e1 He1. apply (foldl_established I P _ _ c0); [done | done | | |].
      * intros; by apply Hlen.
      * intros e2 He2. unfold P. rewrite aget_aset_eq; [done |].
        unfold I in He2. by rewrite He2.
      * intros e2 c Hc He2 Hp2. by apply Hkeep.
    + intros e1 x Hx He1 Hp1.
      apply (foldl_invariant (fun e => I e /\ P e)); [done |].
      intros e2 c Hc [He2 Hp2]. split; [by apply Hlen | by apply Hkeep].
  - intros e y Hy He Hp.
    apply (foldl_invariant (fun e => I e /\ P e)); [done |].
    intros e1 x Hx [He1 Hp1].
    apply (foldl_invariant (fun e => I e /\ P e)); [done |].
    intros e2 c Hc [He2 Hp2]. split; [by apply Hlen | by apply Hkeep].
Qed.

End StoreLoop.

(** Push [inject_Z] down to the variables. *)
Ltac push_inject :=
  repeat first [rewrite inject_Z_plus | rewrite inject_Z_mult];
  change (inject_Z 4) with 4%Q.

Lemma Qtrunc_integral (q : Q) (n : Z) : (q == inject_Z n)%Q -> 0 <= n -> Qtrunc q = n.
Proof.
  intros Hq Hn. unfold Qtrunc.
  assert (Qle_bool 0 q = true) as ->.
  { apply Qle_bool_iff. rewrite Hq. change 0%Q with (inject_Z 0). by rewrite <- Zle_Qle. }
  by rewrite Hq, Qfloor_Z.
Qed.

Lemma newUint8ClampedArray_integral (q : Q) (n : Z) :
  (q == inject_Z n)%Q -> 0 <= n -> newUint8ClampedArray q = Ok (zeros n).
Proof.
  intros Hq Hn. unfold newUint8ClampedArray. rewrite (Qtrunc_integral q n) by done.
  destruct (Z.ltb_spec n 0); [lia | done].
Qed.

Lemma newImageData_ok (d : list Z) (w h : Z) :
  Z.of_nat (length d) = w * h * 4 -> 0 < w < 2 ^ 32 -> 0 < h < 2 ^ 32 ->
  DOM.newImageData d (inject_Z w) (inject_Z h) = Ok (DOM.mkImageData d w h).
Proof.
  intros Hlen Hw Hh. unfold DOM.newImageData, ToUint32.
  change (2 ^ 32) with 4294967296 in *.
  rewrite !(Qtrunc_integral _ _ (Qeq_refl _)) by lia.
  rewrite (Z.mod_small w), (Z.mod_small h) by lia. rewrite Hlen.
  rewrite Z.mod_mul, Z.div_mul by lia.
  rewrite (Z.mul_comm w h), Z.mod_mul, Z.div_mul by lia.
  destruct (Z.eqb_spec (h * w * 4) 0); [nia |].
  destruct (Z.eqb_spec w 0); [lia |].
  simpl. by rewrite Z.eqb_refl.
Qed.

(** On a rectangle with integral fields and a positive size the crop is
    the triple loop of stores, and the final [ImageData] is accepted. *)
Lemma cropImageData_integral (img : DOM.ImageData) (x y w h : Z) :
  0 < w -> 0 < h -> w * h * 4 < 2 ^ 32 ->
  AutoCrop.cropImageData img (AutoCrop.rect x y w h)
  = Ok (DOM.mkImageData
          (storeLoop (for_range 0 h) (for_range 0 w) (for_range 0 4)
                     (fun cropY cropX c => (cropY * w + cropX) * 4 + c)
                     (fun cropY cropX c =>
                        rd (DOM.data img) (cropSource img x y cropY cropX c))
                     (zeros (w * h * 4)))
          w h).
Proof.
  intros Hw Hh Hsize. unfold AutoCrop.cropImageData, AutoCrop.rect.
  change (2 ^ 32) with 4294967296 in *.
  rewrite (newUint8ClampedArray_integral _ (w * h * 4)); [| | nia].
  2:{ push_inject. ring. }
  rewrite !Qceiling_Z.
  match goal with
  | |- DOM.newImageData ?cd _ _ = Ok (DOM.mkImageData ?cd' _ _) =>
      assert (cd = cd') as ->
  end.
  { unfold storeLoop.
    apply foldl_ext_in. intros a cropY _.
    apply foldl_ext_in. intros a1 cropX _.
    unfold AutoCrop.copyPixel.
    apply foldl_ext_in. intros a2 c _.
    rewrite (asetQ_integral _ _ ((cropY * w + cropX) * 4 + c)).
    2:{ push_inject. ring. }
    rewrite (agetQ_integral _ _ (cropSource img x y cropY cropX c)); [done |].
    unfold cropSource. push_inject. ring. }
  apply newImageData_ok; change (2 ^ 32) with 4294967296; [| nia | nia].
  rewrite storeLoop_length. unfold zeros. rewrite length_replicate. nia.
Qed.

(** C3, as the code has it: [cropImageData] makes no bounds check.  For
    every source and every rectangle with integral fields and a positive
    width and height it returns a buffer of the size of the rectangle; the
    byte [c] of the result pixel [(cropX, cropY)] is the source byte at the
    offset [((y + cropY) * srcWidth + x + cropX) * 4 + c], and [0] when
    that offset is outside of the source array.  When the rectangle is
    inside the image this is the block of the source, pixel for pixel. *)
Theorem cropImageData_copies_unchecked (img : DOM.ImageData) (x y w h : Z) :
  0 < w -> 0 < h -> w * h * 4 < 2 ^ 32 ->
  exists out,
    AutoCrop.cropImageData img (AutoCrop.rect x y w h) = Ok out
    /\ DOM.width out = w /\ DOM.height out = h
    /\ Z.of_nat (length (DOM.data out)) = w * h * 4
    /\ (forall cropX cropY c,
          0 <= cropX < w -> 0 <= cropY < h -> 0 <= c < 4 ->
          aget (DOM.data out) ((cropY * w + cropX) * 4 + c)
          = Some (rd (DOM.data img) (cropSource img x y cropY cropX c)))
    /\ (DOM.wf_image img = true -> AutoCrop.inBounds img x y w h = true ->
        forall cropX cropY c,
          0 <= cropX < w -> 0 <= cropY < h -> 0 <= c < 4 ->
          aget (DOM.data out) ((cropY * w + cropX) * 4 + c)
          = aget (DOM.data img) (offsetOf img (x + cropX) (y + cropY) c)).
Proof.
  intros Hw Hh Hsize. eexists. split; [by apply cropImageData_integral |].
  simpl. split; [done |]. split; [done |].
  assert (Z.of_nat (length (zeros (w * h * 4))) = w * h * 4) as Hzeros.
  { unfold zeros. rewrite length_replicate. nia. }
  split; [by rewrite storeLoop_length |].
  assert (forall cropX cropY c,
            0 <= cropX < w -> 0 <= cropY < h -> 0 <= c < 4 ->
            aget (storeLoop (for_range 0 h) (for_range 0 w) (for_range 0 4)
                    (fun cropY cropX c => (cropY * w + cropX) * 4 + c)
                    (fun cropY cropX c =>
                       rd (DOM.data img) (cropSource img x y cropY cropX c))
                    (zeros (w * h * 4)))
                 ((cropY * w + cropX) * 4 + c)
            = Some (rd (DOM.data img) (cropSource img x y cropY cropX c)))
    as Hcopy.
  { intros cropX cropY c Hx Hy Hc.
    apply (storeLoop_lookup _ _ _
             (fun cropY cropX c => (cropY * w + cropX) * 4 + c)
             (fun cropY cropX c =>
                rd (DOM.data img) (cropSource img x y cropY cropX c))
             _ cropY cropX c).
    - apply elem_of_for_range. lia.
    - apply elem_of_for_range. lia.
    - apply elem_of_for_range. lia.
    - rewrite Hzeros. nia.
    - intros y' x' c' Hy'%elem_of_for_range Hx'%elem_of_for_range
        Hc'%elem_of_for_range Heq.
      assert (c' = c) as -> by lia.
      assert ((y' - cropY) * w = cropX - x') as Hrow by lia.
      assert (y' = cropY) as -> by nia.
      assert (x' = cropX) as -> by lia. done. }
  split; [done |].
  intros (HW & HH & Hlen & Hbytes)%wf_image_spec Hin cropX cropY c Hx Hy Hc.
  rewrite Hcopy by done.
  unfold AutoCrop.inBounds in Hin. rewrite !andb_true_iff, !Z.leb_le in Hin.
  destruct Hin as [[[[[Hx0 Hy0] _] _] Hxw] Hyh].
  unfold cropSource, offsetOf, rd.
  destruct (aget_in_range (DOM.data img)
              (((y + cropY) * DOM.width img + (x + cropX)) * 4 + c)) as [v Hv].
  { rewrite Hlen. nia. }
  by rewrite Hv.
Qed.

(** C3, against the design document: a rectangle that leaves the 2 x 2
    source on the right is cropped without any failure (the result wraps
    into the next row and is padded with zeros), and a rectangle inside the
    source but without width is refused. *)
Lemma cropImageData_bounds_counterexample :
  DOM.wf_image Samples.numbered2x2 = true
  /\ AutoCrop.inBounds Samples.numbered2x2 1 0 2 2 = false
  /\ AutoCrop.cropImageData Samples.numbered2x2 (AutoCrop.rect 1 0 2 2)
     = Ok (DOM.mkImageData
             [5; 6; 7; 8;  9; 10; 11; 12;  13; 14; 15; 16;  0; 0; 0; 0] 2 2)
  /\ AutoCrop.inBounds Samples.numbered2x2 1 0 0 2 = true
  /\ AutoCrop.cropImageData Samples.numbered2x2 (AutoCrop.rect 1 0 0 2)
     = Throw InvalidStateError.
Proof. repeat split; vm_compute; reflexivity. Qed.

Lemma cropImageData_copies_unchecked_witness :
  exists out,
    AutoCrop.cropImageData Samples.numbered2x2 (AutoCrop.rect 1 0 2 2) = Ok out
    /\ DOM.width out = 2 /\ DOM.height out = 2
    /\ Z.of_nat (length (DOM.data out)) = 2 * 2 * 4
    /\ (forall cropX cropY c,
          0 <= cropX < 2 -> 0 <= cropY < 2 -> 0 <= c < 4 ->
          aget (DOM.data out) ((cropY * 2 + cropX) * 4 + c)
          = Some (rd (DOM.data Samples.numbered2x2)
                     (cropSource Samples.numbered2x2 1 0 cropY cropX c)))
    /\ (DOM.wf_image Samples.numbered2x2 = true ->
        AutoCrop.inBounds Samples.numbered2x2 1 0 2 2 = true ->
        forall cropX cropY c,
          0 <= cropX < 2 -> 0 <= cropY < 2 -> 0 <= c < 4 ->
          aget (DOM.data out) ((cropY * 2 + cropX) * 4 + c)
          = aget (DOM.data Samples.numbered2x2)
                 (offsetOf Samples.numbered2x2 (1 + cropX) (0 + cropY) c)).
Proof.
  apply (cropImageData_copies_unchecked Samples.numbered2x2 1 0 2 2);
    [lia | lia | reflexivity].
Defined.

(** Without a foreground label the computation is the pipeline applied to
    the centre fallback. *)
Lemma findOptimalCropBounds_no_subject (segmentation : list Z) (width height : Z)
    (options : AutoCrop.AutoCropOptions) :
  (forall i, aget segmentation i <> Some 1) ->
  AutoCrop.findOptimalCropBounds segmentation width height options
  = Some (AutoCrop.normalizeAspect
            (AutoCrop.applyCropPadding
               (AutoCrop.ensureMinimumSize
                  (AutoCrop.centerFallback width height)
                  (default 100%Q (AutoCrop.minCropSize options)))
               width height
               (default (15 # 100) (AutoCrop.paddingPercentage options)))).
Proof.
  intros Hzero. unfold AutoCrop.findOptimalCropBounds.
  by rewrite findSubjectBounds_none.
Qed.

(** C4, against the design document: with the default options the fallback
    square of a 200 x 200 image without foreground (side 160, corner at
    20) is padded by 15% of its side like a subject box and trimmed to the
    image; the result is the whole image. *)
Lemma findOptimalCropBounds_empty_mask_counterexample :
  exists b,
    AutoCrop.findOptimalCropBounds (zeros (200 * 200)) 200 200
      (AutoCrop.mkAutoCropOptions None None) = Some b
    /\ boundsEq b (AutoCrop.rect 0 0 200 200)
    /\ (fallbackSide 200 200 == 160)%Q
    /\ ~ (AutoCrop.width b == fallbackSide 200 200)%Q.
Proof.
  eexists. split; [apply findOptimalCropBounds_no_subject, aget_zeros |].
  vm_compute. repeat split; try reflexivity. discriminate.
Qed.

Lemma findOptimalCropBounds_empty_mask_witness :
  exists b,
    AutoCrop.findOptimalCropBounds (zeros (100 * 100)) 100 100
      (AutoCrop.mkAutoCropOptions (Some 0%Q) (Some 50%Q)) = Some b
    /\ boundsEq b (AutoCrop.centerFallback 100 100)
    /\ (AutoCrop.width b == fallbackSide 100 100
        /\ AutoCrop.height b == fallbackSide 100 100)%Q
    /\ (- (1 # 2) <= AutoCrop.x b + AutoCrop.width b / 2 - inject_Z 100 / 2
        <= 1 # 2)%Q
    /\ (- (1 # 2) <= AutoCrop.y b + AutoCrop.height b / 2 - inject_Z 100 / 2
        <= 1 # 2)%Q.
Proof.
  apply (findOptimalCropBounds_empty_mask (zeros (100 * 100)) 100 100 0 50).
  - lia.
  - lia.
  - apply aget_zeros.
  - reflexivity.
  - vm_compute. discriminate.
Defined.

(** A crop whose byte count is not a multiple of four is refused by the
    [ImageData] constructor, whatever the loops stored. *)
Lemma cropImageData_fractional_refused (img : DOM.ImageData)
    (b : AutoCrop.CropBounds) (n : Z) :
  Qtrunc (AutoCrop.width b * AutoCrop.height b * 4) = n ->
  0 < n -> n `mod` 4 <> 0 ->
  AutoCrop.cropImageData img b = Throw InvalidStateError.
Proof.
  intros Hn Hpos Hmod. unfold AutoCrop.cropImageData.
  destruct b as [x y w h]. simpl in Hn.
  unfold newUint8ClampedArray. rewrite Hn.
  destruct (Z.ltb_spec n 0); [lia |].
  match goal with
  | |- DOM.newImageData ?cd _ _ = _ =>
      assert (Z.of_nat (length cd) = n) as Hlen
  end.
  { transitivity (Z.of_nat (length (zeros n)));
      [| unfold zeros; rewrite length_replicate; lia].
    f_equal.
    apply (foldl_invariant (fun e => length e = length (zeros n))); [done |].
    intros e cropY _ He.
    apply (foldl_invariant (fun e => length e = length (zeros n))); [done |].
    intros e1 cropX _ He1. unfold AutoCrop.copyPixel.
    apply (foldl_invariant (fun e => length e = length (zeros n))); [done |].
    intros e2 c _ He2. by rewrite length_asetQ. }
  unfold DOM.newImageData. rewrite Hlen.
  destruct (Z.eqb_spec n 0); [lia |].
  destruct (Z.eqb_spec (n `mod` 4) 0); [lia | done].
Qed.

(** C6: on a 201 x 151 image without foreground and with the default
    options the crop computation returns the rectangle
    [(22, 0, 156.8, 151)]: the side of the fallback square,
    [151 * 0.8 = 120.8], is never rounded, and the width keeps its
    fraction.  [cropImageData] then fails on that rectangle for every
    source. *)
Theorem findOptimalCropBounds_fractional_width :
  exists b,
    AutoCrop.findOptimalCropBounds (zeros (201 * 151)) 201 151
      (AutoCrop.mkAutoCropOptions None None) = Some b
    /\ boundsEq b (AutoCrop.mkCropBounds 22 0 (784 # 5) 151)
    /\ isInt (AutoCrop.width b) = false
    /\ forall img, AutoCrop.cropImageData img b = Throw InvalidStateError.
Proof.
  eexists. split; [apply findOptimalCropBounds_no_subject, aget_zeros |].
  split; [vm_compute; repeat split; reflexivity |].
  split; [vm_compute; reflexivity |].
  intros img. apply (cropImageData_fractional_refused img _ 94707).
  - vm_compute. reflexivity.
  - lia.
  - vm_compute. discriminate.
Qed.

Lemma findOptimalCropBounds_rectangle_witness :
  exists b,
    AutoCrop.findOptimalCropBounds Samples.boxMask 5 4
      (AutoCrop.mkAutoCropOptions (Some 0%Q) (Some 1%Q)) = Some b
    /\ boundsEq b (AutoCrop.rect 1 1 3 2).
Proof.
  apply (findOptimalCropBounds_rectangle Samples.boxMask 5 4 1 1 3 2).
  - lia.
  - intros x y Hx Hy.
    assert (x = 0 \/ x = 1 \/ x = 2 \/ x = 3 \/ x = 4) as Hxs by lia.
    assert (y = 0 \/ y = 1 \/ y = 2 \/ y = 3) as Hys by lia.
    destruct_or!; subst x y;
      (split; [intros Hfg; vm_compute in Hfg; (discriminate || lia)
              | intros Hin; (lia || reflexivity)]).
  - vm_compute. discriminate.
  - vm_compute. discriminate.
Defined.

(** ** The colour quantizer: the working set and the guard *)

Section Sampling.

Import ColorAnalysis.

Lemma sampleStep_kept (d : list Z) (samples : list ColorRGB) (i : Z) :
  sampleStep d samples i
  = if keptSample d i
    then samples ++ [mkColorRGB (rd d i) (rd d (i + 1)) (rd d (i + 2))]
    else samples.
Proof.
  unfold sampleStep, keptSample.
  destruct (rd d (i + 3) <? 128); [done |]. simpl.
  destruct (Qlt_le_dec (lightnessOf (rd d i) (rd d (i + 1)) (rd d (i + 2))) 5);
    [done |].
  by destruct (Qlt_le_dec 95 (lightnessOf (rd d i) (rd d (i + 1)) (rd d (i + 2)))).
Qed.

Lemma foldl_sampleStep (d : list Z) (offsets : list Z) (samples : list ColorRGB) :
  foldl (sampleStep d) samples offsets
  = samples ++ ((fun i => mkColorRGB (rd d i) (rd d (i + 1)) (rd d (i + 2)))
                  <$> filter (fun i => keptSample d i = true) offsets).
Proof.
  revert samples. induction offsets as [| i offsets IH]; intros samples; simpl.
  - by rewrite app_nil_r.
  - rewrite IH, sampleStep_kept. destruct (keptSample d i) eqn:Hk.
    + rewrite filter_cons_True by done. by rewrite fmap_cons, <- app_assoc.
    + rewrite filter_cons_False; [done |]. by rewrite Hk.
Qed.

(** The samples collected by the loop are the working set. *)
Lemma samplePixels_workingSet (img : DOM.ImageData) (maxSamples : Z) :
  maxSamples <> 0 -> samplePixels img maxSamples = workingSet img maxSamples.
Proof.
  intros Hmax. unfold samplePixels, workingSet, samplingInterval.
  destruct (Z.eqb_spec maxSamples 0); [done |]. simpl.
  by rewrite foldl_sampleStep.
Qed.

End Sampling.

Section OnlyTypeErrors.

Import ColorAnalysis.

Variable Msqrt : Q -> Q.
Variable random : nat -> Q.

Lemma onlyTypeError_ret {A} (a : A) : onlyTypeError (ret a).
Proof. intros n e. done. Qed.

Lemma onlyTypeError_throw {A} : onlyTypeError (throw (A := A) TypeError).
Proof. intros n e. by intros [= <-]. Qed.

Lemma onlyTypeError_bind {A B} (m : M A) (k : A -> M B) :
  onlyTypeError m -> (forall a, onlyTypeError (k a)) -> onlyTypeError (bind m k).
Proof.
  intros Hm Hk n e. unfold bind.
  destruct (m n) as [[a n'] | e'] eqn:Hmn.
  - apply Hk.
  - intros [= <-]. by eapply Hm.
Qed.

Lemma onlyTypeError_forM {A B} (l : list A) (f : A -> M B) :
  (forall a, onlyTypeError (f a)) -> onlyTypeError (forM l f).
Proof.
  intros Hf. induction l as [| a l IH]; simpl.
  - apply onlyTypeError_ret.
  - apply onlyTypeError_bind; [done |]. intros v.
    apply onlyTypeError_bind; [done |]. intros vs. apply onlyTypeError_ret.
Qed.

Lemma onlyTypeError_foldM {A S} (l : list A) (f : S -> A -> M S) (s : S) :
  (forall s a, onlyTypeError (f s a)) -> onlyTypeError (foldM l f s).
Proof.
  intros Hf. revert s. induction l as [| a l IH]; intros s; simpl.
  - apply onlyTypeError_ret.
  - apply onlyTypeError_bind; [done |]. intros s'. apply IH.
Qed.

Lemma onlyTypeError_random : onlyTypeError (Math_random random).
Proof. intros n e. done. Qed.

Lemma onlyTypeError_defined {A} (v : option A) : onlyTypeError (defined v).
Proof. destruct v; [apply onlyTypeError_ret | apply onlyTypeError_throw]. Qed.

Create HintDb te.

Local Hint Resolve onlyTypeError_ret onlyTypeError_throw onlyTypeError_random
  onlyTypeError_defined : te.

Ltac te_step :=
  first [ apply onlyTypeError_bind; [| intros ?]
        | apply onlyTypeError_forM; intros ?
        | apply onlyTypeError_foldM; intros ? ?
        | solve [auto with te] ].

Lemma onlyTypeError_colorDistance (c1 c2 : option ColorRGB) :
  onlyTypeError (colorDistance Msqrt c1 c2).
Proof. unfold colorDistance. repeat te_step. Qed.

Local Hint Resolve onlyTypeError_colorDistance : te.

Lemma onlyTypeError_randomPixel (pixels : list ColorRGB) :
  onlyTypeError (randomPixel random pixels).
Proof. unfold randomPixel. repeat te_step. Qed.

Local Hint Resolve onlyTypeError_randomPixel : te.

Lemma onlyTypeError_initializeCentroids (pixels : list ColorRGB) (k : Z) :
  onlyTypeError (initializeCentroids Msqrt random pixels k).
Proof.
  unfold initializeCentroids, nextCentroid, nearestSquared. repeat te_step.
Qed.

Lemma onlyTypeError_assign (pixels : list ColorRGB)
    (centroids : list (option ColorRGB)) :
  onlyTypeError (assignPixelsToClusters Msqrt pixels centroids).
Proof.
  unfold assignPixelsToClusters, assignPixel. repeat te_step.
  destruct s as [minDistance clusterIndex], a0 as [centroid index].
  repeat te_step.
Qed.

Lemma onlyTypeError_update (pixels : list ColorRGB) (assignments : list Z)
    (k : Z) :
  onlyTypeError (updateCentroids random pixels assignments k).
Proof.
  unfold updateCentroids. repeat te_step.
  destruct (fst <$> filter _ _); repeat te_step.
Qed.

Lemma onlyTypeError_converged (oldCentroids newCentroids : list (option ColorRGB)) :
  onlyTypeError (centroidsConverged Msqrt oldCentroids newCentroids).
Proof.
  revert newCentroids.
  induction oldCentroids as [| o oldCentroids IH]; intros newCentroids; simpl.
  - auto with te.
  - te_step; [auto with te |]. destruct (Qlt_le_dec 1 a); [auto with te | apply IH].
Qed.

Lemma onlyTypeError_iterate (fuel : nat) (pixels : list ColorRGB) (k : Z)
    (centroids : list (option ColorRGB)) :
  onlyTypeError (iterate Msqrt random fuel pixels k centroids).
Proof.
  revert centroids. induction fuel as [| fuel IH]; intros centroids; simpl.
  - auto with te.
  - te_step; [apply onlyTypeError_assign |].
    te_step; [apply onlyTypeError_update |].
    te_step; [apply onlyTypeError_converged |].
    destruct a1; [auto with te | apply IH].
Qed.

End OnlyTypeErrors.

(** After the guard, [extractColorPalette] has no other way to fail than
    a [TypeError]. *)
Lemma extractColorPalette_guard (Msqrt : Q -> Q) (random : nat -> Q)
    (img : DOM.ImageData) (k maxIterations maxSamples : Z) (seed : nat) :
  let n := Z.of_nat (length (ColorAnalysis.samplePixels img maxSamples)) in
  (n < k ->
   ColorAnalysis.extractColorPalette Msqrt random img k maxIterations maxSamples seed
   = Throw (NotEnoughValidPixels n k))
  /\ (k <= n ->
      forall e,
        ColorAnalysis.extractColorPalette Msqrt random img k maxIterations
          maxSamples seed = Throw e ->
        e = TypeError).
Proof.
  intros n. unfold ColorAnalysis.extractColorPalette. fold n.
  destruct (Z.ltb_spec n k) as [Hlt | Hge]; (split; [| intros Hk]); try lia.
  - done.
  - intros e. revert seed e.
    change (onlyTypeError
              (ColorAnalysis.bind
                 (ColorAnalysis.initializeCentroids Msqrt random
                    (ColorAnalysis.samplePixels img maxSamples) k)
                 (fun centroids =>
                    ColorAnalysis.bind
                      (ColorAnalysis.iterate Msqrt random (Z.to_nat maxIterations)
                         (ColorAnalysis.samplePixels img maxSamples) k centroids)
                      (fun centroids =>
                         if forallb (fun c => bool_decide (is_Some c)) centroids
                         then ColorAnalysis.ret
                                (ColorAnalysis.mkColorPaletteResult
                                   (ColorAnalysis.sortColorsByVibrancy
                                      (omap id centroids))
                                   n
                                   (inject_Z n
                                    / inject_Z (DOM.width img * DOM.height img))%Q)
                         else ColorAnalysis.throw TypeError)))).
    apply onlyTypeError_bind; [apply onlyTypeError_initializeCentroids |].
    intros centroids.
    apply onlyTypeError_bind; [apply onlyTypeError_iterate |].
    intros centroids'.
    destruct (forallb _ centroids');
      [apply onlyTypeError_ret | apply onlyTypeError_throw].
Qed.

(** C8: the samples collected are the working set of the design document,
    and the extraction throws its "not enough valid pixels" error exactly
    when that set has fewer than [k] members; the exception carries no
    palette. *)
Theorem extractColorPalette_insufficient_samples (Msqrt : Q -> Q)
    (random : nat -> Q) (img : DOM.ImageData) (k maxIterations maxSamples : Z)
    (seed : nat) :
  maxSamples <> 0 ->
  let workingSet := ColorAnalysis.workingSet img maxSamples in
  let outcome :=
    ColorAnalysis.extractColorPalette Msqrt random img k maxIterations
      maxSamples seed in
  ColorAnalysis.samplePixels img maxSamples = workingSet
  /\ ((exists n k', outcome = Throw (NotEnoughValidPixels n k'))
      <-> Z.of_nat (length workingSet) < k)
  /\ (Z.of_nat (length workingSet) < k ->
      outcome = Throw (NotEnoughValidPixels (Z.of_nat (length workingSet)) k)).
Proof.
  intros Hmax workingSet outcome.
  pose proof (samplePixels_workingSet img maxSamples Hmax) as Hsame.
  fold workingSet in Hsame.
  destruct (extractColorPalette_guard Msqrt random img k maxIterations
              maxSamples seed) as [Hthrow Hrest].
  rewrite Hsame in Hthrow, Hrest. fold outcome in Hthrow, Hrest.
  split; [done |]. split; [| done].
  split.
  - intros (n & k' & Hout).
    destruct (Z.lt_ge_cases (Z.of_nat (length workingSet)) k) as [| Hge]; [done |].
    specialize (Hrest Hge _ Hout). discriminate.
  - intros Hlt. eauto.
Qed.

Lemma extractColorPalette_insufficient_samples_witness :
  let workingSet := ColorAnalysis.workingSet Samples.palette4x2 5000 in
  let outcome :=
    ColorAnalysis.extractColorPalette Samples.sqrtUp Samples.dice
      Samples.palette4x2 6 50 5000 0%nat in
  ColorAnalysis.samplePixels Samples.palette4x2 5000 = workingSet
  /\ ((exists n k', outcome = Throw (NotEnoughValidPixels n k'))
      <-> Z.of_nat (length workingSet) < 6)
  /\ (Z.of_nat (length workingSet) < 6 ->
      outcome = Throw (NotEnoughValidPixels (Z.of_nat (length workingSet)) 6)).
Proof.
  apply (extractColorPalette_insufficient_samples Samples.sqrtUp Samples.dice
           Samples.palette4x2 6 50 5000 0%nat).
  lia.
Defined.

Example extractColorPalette_five_of_six :
  ColorAnalysis.extractColorPalette Samples.sqrtUp Samples.dice
    Samples.palette4x2 6 50 5000 0%nat = Throw (NotEnoughValidPixels 5 6).
Proof. vm_compute. reflexivity. Qed.

Example extractColorPalette_three_clusters :
  exists palette n,
    ColorAnalysis.extractColorPalette Samples.sqrtUp Samples.dice
      Samples.palette4x2 3 50 5000 0%nat = Ok (palette, n)
    /\ length (ColorAnalysis.colors palette) = 3%nat
    /\ ColorAnalysis.totalPixelsAnalyzed palette = 5.
Proof. eexists _, _. split; [vm_compute; reflexivity |]. split; reflexivity. Qed.

Lemma sharpenImage_border_preserved_witness :
  let img := Samples.textured in
  let out := Sharpening.sharpenImage Samples.sqrtUp img (3 # 2) Sharpening.edge_enhance in
  (forall x y c,
      0 <= x < DOM.width img -> 0 <= y < DOM.height img -> 0 <= c < 4 ->
      x = 0 \/ x = DOM.width img - 1 \/ y = 0 \/ y = DOM.height img - 1 ->
      exists v, aget (DOM.data img) (offsetOf img x y c) = Some v
                /\ aget (DOM.data out) (offsetOf out x y c) = Some v)
  /\ (DOM.width img < 3 \/ DOM.height img < 3 -> out = img).
Proof.
  apply (sharpenImage_border_preserved Samples.sqrtUp Samples.textured (3 # 2)
           Sharpening.edge_enhance).
  reflexivity.
Defined.

Lemma sharpenImage_alpha_preserved_witness :
  DOM.wf_image Samples.textured = true
  /\ exists alpha,
       aget (DOM.data Samples.textured) (offsetOf Samples.textured 1 1 3)
       = Some alpha
       /\ aget (DOM.data (Sharpening.sharpenImage Samples.sqrtUp Samples.textured
                            (3 # 2) Sharpening.unsharp))
               (offsetOf (Sharpening.sharpenImage Samples.sqrtUp Samples.textured
                            (3 # 2) Sharpening.unsharp) 1 1 3)
          = Some alpha.
Proof.
  split; [reflexivity |].
  apply (sharpenImage_alpha_preserved Samples.sqrtUp Samples.textured (3 # 2)
           Sharpening.unsharp eq_refl 1 1); cbn; lia.
Defined.

Example sharpenImage_unsharp_textured :
  DOM.data (Sharpening.sharpenImage Samples.sqrtUp Samples.textured (3 # 2)
              Sharpening.unsharp)
  = [0; 10; 0; 255;  0; 20; 0; 255;  255; 30; 0; 255;
     0; 40; 0; 255;  116; 50; 0; 255;  255; 60; 0; 255;
     0; 70; 0; 255;  0; 80; 0; 255;  255; 90; 0; 255].
Proof. vm_compute. reflexivity. Qed.

(** ** The cropper: the rectangle stays inside the image *)


Lemma Math_round_shift (z : Z) (q : Q) :
  Math_round (inject_Z z + q) = z + Math_round q.
Proof.
  pose proof (Math_round_bounds (inject_Z z + q)) as [Hlo Hhi].
  pose proof (Math_round_bounds q) as [Hlo' Hhi'].
  set (r := Math_round (inject_Z z + q)) in *. set (r' := Math_round q) in *.
  assert (inject_Z r < inject_Z (z + r' + 1))%Q as H1.
  { rewrite !inject_Z_plus. change (inject_Z 1) with 1%Q. lra. }
  assert (inject_Z (z + r') < inject_Z (r + 1))%Q as H2.
  { rewrite !inject_Z_plus. change (inject_Z 1) with 1%Q. lra. }
  rewrite <- Zlt_Qlt in H1, H2. lia.
Qed.

Lemma integralQ_max0 (q : Q) : integralQ q -> integralQ (Qmax 0 q).
Proof.
  intros [z Hz]. destruct (Q.max_spec 0 q) as [[_ Hm] | [_ Hm]].
  - exists z. by rewrite Hm.
  - exists 0. by rewrite Hm.
Qed.

Lemma integralQ_sub (q : Q) (z : Z) : integralQ q -> integralQ (q - inject_Z z).
Proof.
  intros [z' Hz']. exists (z' - z). rewrite Hz'.
  unfold Zminus. rewrite inject_Z_plus, inject_Z_opp. reflexivity.
Qed.

Lemma withinImage_start (segmentation : list Z) (W H : Z) :
  let b := match AutoCrop.findSubjectBounds segmentation W H with
           | Some b => b
           | None => AutoCrop.centerFallback W H
           end in
  integralQ (AutoCrop.x b) /\ integralQ (AutoCrop.y b).
Proof.
  unfold AutoCrop.findSubjectBounds.
  destruct (_ =? 0); simpl; split; eexists; reflexivity.
Qed.

Lemma ensureMinimumSize_integral (b : AutoCrop.CropBounds) (m : Q) :
  integralQ (AutoCrop.x b) -> integralQ (AutoCrop.y b) ->
  integralQ (AutoCrop.x (AutoCrop.ensureMinimumSize b m))
  /\ integralQ (AutoCrop.y (AutoCrop.ensureMinimumSize b m)).
Proof.
  intros Hx Hy. unfold AutoCrop.ensureMinimumSize.
  destruct (_ || _); [| done]. simpl.
  split; by apply integralQ_max0, integralQ_sub.
Qed.

(** Whatever it is given, the padding step returns a rectangle inside the
    image. *)
Lemma applyCropPadding_within (b : AutoCrop.CropBounds) (W H : Z) (p : Q) :
  integralQ (AutoCrop.x b) -> integralQ (AutoCrop.y b) ->
  withinImage W H (AutoCrop.applyCropPadding b W H p).
Proof.
  intros Hx Hy. unfold AutoCrop.applyCropPadding, withinImage. simpl.
  set (px := Qmax 0 (AutoCrop.x b - inject_Z (Math_round (AutoCrop.width b * p)))).
  set (py := Qmax 0 (AutoCrop.y b - inject_Z (Math_round (AutoCrop.height b * p)))).
  assert (0 <= px)%Q by apply Q.le_max_l.
  assert (0 <= py)%Q by apply Q.le_max_l.
  assert (integralQ px) by (by apply integralQ_max0, integralQ_sub).
  assert (integralQ py) by (by apply integralQ_max0, integralQ_sub).
  destruct (Qlt_le_dec (inject_Z W) _), (Qlt_le_dec (inject_Z H) _);
    repeat split; try done; lra.
Qed.

Lemma recentre_within (x w t limit : Q) :
  (0 <= x)%Q -> integralQ x -> (x + w <= limit)%Q -> (t <= w)%Q ->
  let x' := Qmax 0 (inject_Z (Math_round (x + w / 2 - t / 2))) in
  (0 <= x' /\ x' + t <= limit)%Q /\ integralQ x'.
Proof.
  intros Hx [z Hz] Hxw Htw x'.
  split; [| apply integralQ_max0; by eexists].
  split; [apply Q.le_max_l |].
  destruct (Q.max_spec 0 (inject_Z (Math_round (x + w / 2 - t / 2))))
    as [[_ Hmax] | [_ Hmax]]; unfold x'; rewrite Hmax; [| lra].
  assert (x + w / 2 - t / 2 == inject_Z z + (w - t) / 2)%Q as Hsplit
    by (rewrite Hz; field).
  rewrite (Math_round_comp _ _ Hsplit), Math_round_shift, inject_Z_plus, <- Hz.
  destruct (Math_round_nonneg ((w - t) / 2)) as [_ Hle]; qlra.
Qed.

Lemma normalizeAspect_within (b : AutoCrop.CropBounds) (W H : Z) :
  withinImage W H b -> withinImage W H (AutoCrop.normalizeAspect b).
Proof.
  intros (Hx & Hy & Hxw & Hyh & Hix & Hiy). unfold AutoCrop.normalizeAspect.
  destruct (AutoCrop.aspectTooExtreme _ _); [| done].
  unfold withinImage. simpl.
  destruct (recentre_within (AutoCrop.x b) (AutoCrop.width b)
              (Qmin (AutoCrop.width b) (AutoCrop.height b)) (inject_Z W))
    as [[? ?] ?]; [done | done | done | apply Q.le_min_l |].
  destruct (recentre_within (AutoCrop.y b) (AutoCrop.height b)
              (Qmin (AutoCrop.width b) (AutoCrop.height b)) (inject_Z H))
    as [[? ?] ?]; [done | done | done | apply Q.le_min_r |].
  done.
Qed.

(** The part of the Rectangle invariant that the crop computation keeps,
    for every mask, every image size and every option: the rectangle lies
    inside the image, at an integral position. *)
Lemma findOptimalCropBounds_within_image (segmentation : list Z) (W H : Z)
    (options : AutoCrop.AutoCropOptions) :
  0 < W -> 0 < H ->
  exists b,
    AutoCrop.findOptimalCropBounds segmentation W H options = Some b
    /\ withinImage W H b.
Proof.
  intros _ _. eexists. split; [reflexivity |].
  apply normalizeAspect_within, applyCropPadding_within;
    apply ensureMinimumSize_integral; apply withinImage_start.
Qed.

(** With a foreground pixel in the mask all four fields are integral. *)
Lemma findOptimalCropBounds_integral (segmentation : list Z) (W H : Z)
    (options : AutoCrop.AutoCropOptions) (s : AutoCrop.CropBounds) :
  AutoCrop.findSubjectBounds segmentation W H = Some s ->
  exists b,
    AutoCrop.findOptimalCropBounds segmentation W H options = Some b
    /\ integralQ (AutoCrop.width b) /\ integralQ (AutoCrop.height b).
Proof.
  intros Hs. eexists. split; [reflexivity |]. rewrite Hs.
  assert (integralQ (AutoCrop.width s) /\ integralQ (AutoCrop.height s)) as [Hw Hh].
  { unfold AutoCrop.findSubjectBounds in Hs. destruct (_ =? 0); [done |].
    injection Hs as <-. simpl. split; eexists; reflexivity. }
  set (m := default 100%Q (AutoCrop.minCropSize options)).
  set (p := default (15 # 100) (AutoCrop.paddingPercentage options)).
  assert (integralQ (AutoCrop.width (AutoCrop.ensureMinimumSize s m))
          /\ integralQ (AutoCrop.height (AutoCrop.ensureMinimumSize s m)))
    as [Hw1 Hh1].
  { unfold AutoCrop.ensureMinimumSize. destruct (_ || _); [| done].
    simpl. split; eexists; reflexivity. }
  set (s1 := AutoCrop.ensureMinimumSize s m) in *.
  assert (integralQ (AutoCrop.x s1) /\ integralQ (AutoCrop.y s1)) as [Hx1 Hy1].
  { apply ensureMinimumSize_integral.
    - unfold AutoCrop.findSubjectBounds in Hs. destruct (_ =? 0); [done |].
      injection Hs as <-. eexists; reflexivity.
    - unfold AutoCrop.findSubjectBounds in Hs. destruct (_ =? 0); [done |].
      injection Hs as <-. eexists; reflexivity. }
  assert (integralQ (AutoCrop.width (AutoCrop.applyCropPadding s1 W H p))
          /\ integralQ (AutoCrop.height (AutoCrop.applyCropPadding s1 W H p)))
    as [Hw2 Hh2].
  { pose proof (applyCropPadding_within s1 W H p Hx1 Hy1)
      as (_ & _ & _ & _ & Hx2 & Hy2).
    unfold AutoCrop.applyCropPadding in *. simpl in *.
    split.
    - destruct (Qlt_le_dec (inject_Z W) _).
      + destruct Hx2 as [z Hz]. exists (W - z). rewrite Hz.
        unfold Zminus. rewrite inject_Z_plus, inject_Z_opp. reflexivity.
      + destruct Hw1 as [z Hz].
        exists (z + 2 * Math_round (AutoCrop.width s1 * p)).
        rewrite inject_Z_plus, inject_Z_mult, <- Hz. reflexivity.
    - destruct (Qlt_le_dec (inject_Z H) _).
      + destruct Hy2 as [z Hz]. exists (H - z). rewrite Hz.
        unfold Zminus. rewrite inject_Z_plus, inject_Z_opp. reflexivity.
      + destruct Hh1 as [z Hz].
        exists (z + 2 * Math_round (AutoCrop.height s1 * p)).
        rewrite inject_Z_plus, inject_Z_mult, <- Hz. reflexivity. }
  unfold AutoCrop.normalizeAspect.
  destruct (AutoCrop.aspectTooExtreme _ _); [| done]. simpl.
  destruct (Q.min_spec (AutoCrop.width (AutoCrop.applyCropPadding s1 W H p))
              (AutoCrop.height (AutoCrop.applyCropPadding s1 W H p)))
    as [[_ Hmin] | [_ Hmin]].
  - destruct Hw2 as [z Hz]. split; exists z; by rewrite Hmin.
  - destruct Hh2 as [z Hz]. split; exists z; by rewrite Hmin.
Qed.

(** * Further properties *)

(** ** The histogram analyzer: ranges *)

Lemma rd_byte (d : list Z) (i : Z) :
  (forall i v, aget d i = Some v -> 0 <= v <= 255) -> 0 <= rd d i <= 255.
Proof.
  intros Hbytes. unfold rd. destruct (aget d i) as [v |] eqn:Hv; simpl; [eauto | lia].
Qed.

Lemma pixelSaturation_range (r g b : Z) :
  0 <= r -> 0 <= g -> 0 <= b ->
  (0 <= ImageAnalysis.pixelSaturation r g b <= 1)%Q.
Proof.
  intros Hr Hg Hb. unfold ImageAnalysis.pixelSaturation.
  set (M := Z.max (Z.max r g) b). set (m := Z.min (Z.min r g) b).
  destruct (Z.eqb_spec M 0); [split; discriminate |].
  assert (0 < M) by lia. assert (0 <= M - m <= M) as [Hlo Hhi] by lia.
  assert (0 < inject_Z M)%Q
    by (change 0%Q with (inject_Z 0); by rewrite <- Zlt_Qlt).
  split.
  - apply Qle_shift_div_l; [done |]. rewrite Qmult_0_l.
    change 0%Q with (inject_Z 0). by rewrite <- Zle_Qle.
  - apply Qle_shift_div_r; [done |]. rewrite Qmult_1_l. by rewrite <- Zle_Qle.
Qed.

Lemma sum_Z_range (f : Z -> Z) (l : list Z) (c : Z) :
  (forall i, 0 <= f i <= c) ->
  0 <= foldr Z.add 0 (f <$> l) <= c * Z.of_nat (length l).
Proof.
  intros Hf. induction l as [| i l IH]; [simpl; lia |].
  rewrite fmap_cons. cbn [foldr length]. specialize (Hf i). lia.
Qed.

Lemma sum_Q_range (f : Z -> Q) (l : list Z) :
  (forall i, 0 <= f i <= 1)%Q ->
  (0 <= foldr Qplus 0 (f <$> l) <= inject_Z (Z.of_nat (length l)))%Q.
Proof.
  intros Hf. induction l as [| i l IH]; [simpl; split; discriminate |].
  rewrite fmap_cons. cbn [foldr length].
  rewrite Nat2Z.inj_succ, <- Z.add_1_l, inject_Z_plus.
  change (inject_Z 1) with 1%Q. specialize (Hf i). lra.
Qed.

(** The loop over an [ImageData] visits one offset for each pixel. *)
Lemma length_pixel_offsets (img : DOM.ImageData) :
  DOM.wf_image img = true ->
  Z.of_nat (length (for_step (Z.of_nat (length (DOM.data img))) 4))
  = DOM.width img * DOM.height img.
Proof.
  intros (Hw & Hh & Hlen & _)%wf_image_spec.
  unfold for_step. rewrite length_fmap, length_seqZ, Hlen.
  replace (DOM.width img * DOM.height img * 4 + 4 - 1)
    with (3 + DOM.width img * DOM.height img * 4) by lia.
  rewrite Z.div_add by lia. change (3 `div` 4) with 0. nia.
Qed.

Lemma opaque_count_le (img : DOM.ImageData) :
  DOM.wf_image img = true ->
  Z.of_nat (length (ImageAnalysis.opaqueOffsets (DOM.data img)))
  <= DOM.width img * DOM.height img.
Proof.
  intros Hwf. rewrite <- (length_pixel_offsets img Hwf).
  unfold ImageAnalysis.opaqueOffsets. apply inj_le, length_filter.
Qed.

Lemma Qdiv_range (a c : Q) (n : Z) :
  0 < n -> (0 <= a)%Q -> (a <= c * inject_Z n)%Q ->
  (0 <= a / inject_Z n <= c)%Q.
Proof.
  intros Hn Ha Hac.
  assert (0 < inject_Z n)%Q
    by (change 0%Q with (inject_Z 0); by rewrite <- Zlt_Qlt).
  split.
  - apply Qle_shift_div_l; [done |]. by rewrite Qmult_0_l.
  - by apply Qle_shift_div_r.
Qed.

(** The two averages of a well-formed buffer are a luminance and a
    saturation. *)
Lemma analyzeImageHistogram_average_ranges (img : DOM.ImageData) :
  DOM.wf_image img = true ->
  let r := ImageAnalysis.analyzeImageHistogram img in
  (0 <= ImageAnalysis.averageLuminance r <= 255)%Q
  /\ (0 <= ImageAnalysis.saturationLevel r <= 1)%Q.
Proof.
  intros Hwf r. pose proof (opaque_count_le img Hwf) as Hcount.
  pose proof Hwf as (Hw & Hh & Hlen & Hbytes)%wf_image_spec.
  destruct (analyzeImageHistogram_averages img) as [Hl Hs].
  unfold r. rewrite Hl, Hs. clear Hl Hs.
  set (opaque := ImageAnalysis.opaqueOffsets (DOM.data img)) in *.
  assert (0 < DOM.width img * DOM.height img) as Hn by nia.
  split; apply Qdiv_range; try done.
  - change 0%Q with (inject_Z 0). rewrite <- Zle_Qle.
    apply (sum_Z_range _ _ 255). intros i.
    unfold ImageAnalysis.luminanceAt.
    apply pixelLuminance_in_range; apply rd_byte; exact Hbytes.
  - change 255%Q with (inject_Z 255). rewrite <- inject_Z_mult, <- Zle_Qle.
    etrans; [apply (sum_Z_range _ _ 255) |].
    + intros i. unfold ImageAnalysis.luminanceAt.
      apply pixelLuminance_in_range; apply rd_byte; exact Hbytes.
    + nia.
  - apply sum_Q_range. intros i.
    apply pixelSaturation_range; apply rd_byte; exact Hbytes.
  - rewrite Qmult_1_l. eapply Qle_trans; [apply sum_Q_range |].
    + intros i. apply pixelSaturation_range; apply rd_byte; exact Hbytes.
    + by rewrite <- Zle_Qle.
Qed.

(** Linear arithmetic over [Q] after the divisions by a numeral are turned
    into products. *)
Ltac qnum :=
  unfold Qdiv in *;
  repeat match goal with
         | |- context [Qinv (Qmake ?n ?d)] =>
             let c := eval vm_compute in (Qinv (Qmake n d)) in
             change (Qinv (Qmake n d)) with c
         | H : context [Qinv (Qmake ?n ?d)] |- _ =>
             let c := eval vm_compute in (Qinv (Qmake n d)) in
             change (Qinv (Qmake n d)) with c in H
         end;
  lra.

Lemma analyzeImageHistogram_recommendations (img : DOM.ImageData) :
  let r := ImageAnalysis.analyzeImageHistogram img in
  ImageAnalysis.recommendedBrightness r
  = ImageAnalysis.calculateBrightnessAdjustment (ImageAnalysis.averageLuminance r)
  /\ ImageAnalysis.recommendedContrast r
     = ImageAnalysis.calculateContrastAdjustment (ImageAnalysis.contrastLevel r)
  /\ ImageAnalysis.recommendedSaturation r
     = ImageAnalysis.calculateSaturationAdjustment (ImageAnalysis.saturationLevel r).
Proof.
  unfold ImageAnalysis.analyzeImageHistogram.
  by destruct (ImageAnalysis.buildHistogram (DOM.data img)) as [[hist tl] ts].
Qed.

Lemma contrastLevel_unit (img : DOM.ImageData) :
  (0 <= ImageAnalysis.contrastLevel (ImageAnalysis.analyzeImageHistogram img) <= 1)%Q.
Proof.
  destruct (buildHistogram_luminance (DOM.data img)) as [Hlen Hpos].
  destruct (significant_bins_ordered _ Hlen Hpos) as (Hmin & Hle & Hmax).
  rewrite analyzeImageHistogram_contrast.
  unfold ImageAnalysis.calculateContrastLevel.
  set (m := ImageAnalysis.maxSignificantOf _ - ImageAnalysis.minSignificantOf _).
  assert (0 <= m <= 255) as Hm by (unfold m; lia).
  unfold Qle, Qdiv, Qmult, Qinv. simpl. lia.
Qed.

(** On a luminance the clamp of the brightness correction never binds. *)
Lemma calculateBrightnessAdjustment_linear (L : Q) :
  (0 <= L <= 255)%Q ->
  (ImageAnalysis.calculateBrightnessAdjustment L == (128 - L) / 128 * 60)%Q
  /\ (-60 <= ImageAnalysis.calculateBrightnessAdjustment L <= 60)%Q.
Proof.
  intros HL. unfold ImageAnalysis.calculateBrightnessAdjustment.
  set (v := ((128 - L) / 128 * 60)%Q).
  assert (-60 <= v <= 60)%Q as Hv by (unfold v; qnum).
  assert (Qmax (-80) (Qmin 80 v) == v)%Q as ->; [| done].
  rewrite Q.min_r by lra. rewrite Q.max_r by lra. reflexivity.
Qed.

Lemma calculateContrastAdjustment_range (c : Q) :
  (0 <= c <= 1)%Q ->
  (-10 <= ImageAnalysis.calculateContrastAdjustment c <= 50)%Q.
Proof.
  intros Hc. unfold ImageAnalysis.calculateContrastAdjustment.
  destruct (Qlt_le_dec 0 ((8 # 10) - c)).
  - destruct (Q.min_spec 50 (((8 # 10) - c) * 100)) as [[? ->] | [? ->]]; lra.
  - destruct (Q.max_spec (-20) (((8 # 10) - c) * 50)) as [[? ->] | [? ->]]; lra.
Qed.

Lemma calculateSaturationAdjustment_range (s : Q) :
  (0 <= s <= 1)%Q ->
  (-20 <= ImageAnalysis.calculateSaturationAdjustment s <= 40)%Q.
Proof.
  intros Hs. unfold ImageAnalysis.calculateSaturationAdjustment.
  destruct (Qlt_le_dec 0 ((4 # 10) - s)).
  - destruct (Q.min_spec 40 (((4 # 10) - s) * 150)) as [[? ->] | [? ->]]; lra.
  - destruct (Qlt_le_dec (6 # 10) s); [| lra].
    destruct (Q.max_spec (-20) (((4 # 10) - s) * 100)) as [[? ->] | [? ->]]; lra.
Qed.

Lemma Math_round_range (q : Q) (lo hi : Z) :
  (inject_Z lo <= q <= inject_Z hi)%Q -> lo <= Math_round q <= hi.
Proof.
  intros [Hlo Hhi]. pose proof (Math_round_bounds q) as [Hr1 Hr2].
  assert (inject_Z (lo - 1) < inject_Z (Math_round q))%Q as H1.
  { replace (lo - 1) with (lo + -1) by lia. rewrite inject_Z_plus.
    change (inject_Z (-1)) with (-1)%Q. lra. }
  assert (inject_Z (Math_round q) < inject_Z (hi + 1))%Q as H2.
  { rewrite inject_Z_plus. change (inject_Z 1) with 1%Q. lra. }
  rewrite <- Zlt_Qlt in H1, H2. lia.
Qed.

(** X1: for every well-formed buffer the two averages are in range
    (luminance in [0, 255], saturation in [0, 1]) and the recommendations
    are narrower than their clamps: brightness within [-60, 60] (it is the
    unclamped [(128 - L) / 128 * 60]), contrast within [-10, 50], saturation
    within [-20, 40]; [handleAutoEnhance] applies integers of the same
    ranges. *)
Theorem handleAutoEnhance_ranges (img : DOM.ImageData) :
  DOM.wf_image img = true ->
  let r := ImageAnalysis.analyzeImageHistogram img in
  let s := Editor.handleAutoEnhance img in
  (0 <= ImageAnalysis.averageLuminance r <= 255)%Q
  /\ (0 <= ImageAnalysis.saturationLevel r <= 1)%Q
  /\ (ImageAnalysis.recommendedBrightness r
      == (128 - ImageAnalysis.averageLuminance r) / 128 * 60)%Q
  /\ (-60 <= ImageAnalysis.recommendedBrightness r <= 60)%Q
  /\ (-10 <= ImageAnalysis.recommendedContrast r <= 50)%Q
  /\ (-20 <= ImageAnalysis.recommendedSaturation r <= 40)%Q
  /\ -60 <= Editor.brightness s <= 60
  /\ -10 <= Editor.contrast s <= 50
  /\ -20 <= Editor.saturation s <= 40.
Proof.
  intros Hwf r s.
  destruct (analyzeImageHistogram_average_ranges img Hwf) as [HL HS].
  destruct (analyzeImageHistogram_recommendations img) as (Hb & Hc & Hs).
  fold r in HL, HS, Hb, Hc, Hs.
  destruct (calculateBrightnessAdjustment_linear _ HL) as [Hlin Hbr].
  pose proof (calculateContrastAdjustment_range _ (contrastLevel_unit img)) as Hcr.
  pose proof (calculateSaturationAdjustment_range _ HS) as Hsr.
  fold r in Hcr. rewrite <- Hb in Hlin, Hbr. rewrite <- Hc in Hcr. rewrite <- Hs in Hsr.
  assert (forall q lo hi, (inject_Z lo <= q <= inject_Z hi)%Q ->
                          lo <= Math_round q /\ Math_round q <= hi) as Hround
    by (intros q lo hi Hq; apply Math_round_range, Hq).
  unfold s, Editor.handleAutoEnhance. simpl. fold r.
  destruct (Hround _ (-60) 60 Hbr), (Hround _ (-10) 50 Hcr), (Hround _ (-20) 40 Hsr).
  tauto.
Qed.

Lemma handleAutoEnhance_ranges_witness :
  let r := ImageAnalysis.analyzeImageHistogram Samples.redAndClear in
  let s := Editor.handleAutoEnhance Samples.redAndClear in
  (0 <= ImageAnalysis.averageLuminance r <= 255)%Q
  /\ (0 <= ImageAnalysis.saturationLevel r <= 1)%Q
  /\ (ImageAnalysis.recommendedBrightness r
      == (128 - ImageAnalysis.averageLuminance r) / 128 * 60)%Q
  /\ (-60 <= ImageAnalysis.recommendedBrightness r <= 60)%Q
  /\ (-10 <= ImageAnalysis.recommendedContrast r <= 50)%Q
  /\ (-20 <= ImageAnalysis.recommendedSaturation r <= 40)%Q
  /\ -60 <= Editor.brightness s <= 60
  /\ -10 <= Editor.contrast s <= 50
  /\ -20 <= Editor.saturation s <= 40.
Proof. apply (handleAutoEnhance_ranges Samples.redAndClear). reflexivity. Defined.

(** X2: the saturation correction is piecewise: above a mean saturation of
    0.6 it is the constant -20 (the proportional term is always below the
    clamp), from 0.4 to 0.6 it proposes nothing, and below 0.4 it is
    positive, [150 * (0.4 - s)] capped at 40. *)
Theorem calculateSaturationAdjustment_pieces (s : Q) :
  ((6 # 10) < s -> ImageAnalysis.calculateSaturationAdjustment s == -20)%Q
  /\ ((4 # 10) <= s <= (6 # 10) ->
      ImageAnalysis.calculateSaturationAdjustment s == 0)%Q
  /\ (s < (4 # 10) ->
      ImageAnalysis.calculateSaturationAdjustment s == Qmin 40 (((4 # 10) - s) * 150)
      /\ 0 < ImageAnalysis.calculateSaturationAdjustment s)%Q.
Proof.
  unfold ImageAnalysis.calculateSaturationAdjustment. repeat split.
  - intros Hs. destruct (Qlt_le_dec 0 ((4 # 10) - s)); [lra |].
    destruct (Qlt_le_dec (6 # 10) s); [| lra]. apply Q.max_l. lra.
  - intros Hs. destruct (Qlt_le_dec 0 ((4 # 10) - s)); [lra |].
    destruct (Qlt_le_dec (6 # 10) s); [lra | reflexivity].
  - destruct (Qlt_le_dec 0 ((4 # 10) - s)); [reflexivity | lra].
  - destruct (Qlt_le_dec 0 ((4 # 10) - s)); [| lra].
    apply Q.min_glb_lt; lra.
Qed.

(** ** The histogram analyzer: transparency *)



Lemma buildHistogram_transparent (d : list Z) :
  (forall i, i ∈ for_step (Z.of_nat (length d)) 4 -> rd d (i + 3) = 0) ->
  ImageAnalysis.buildHistogram d = ImageAnalysis.accum0.
Proof.
  intros Hclear. unfold ImageAnalysis.buildHistogram.
  apply (foldl_invariant (fun st => st = ImageAnalysis.accum0)); [done |].
  intros st i Hi ->. unfold ImageAnalysis.histogramStep, ImageAnalysis.accum0.
  by rewrite (Hclear i Hi).
Qed.

(** X4: a buffer whose pixels are all fully transparent leaves the
    histogram empty; neither scan of the contrast level finds a bin, the
    defaults 0 and 255 stand, and the analyzer reports a luminance and a
    saturation of 0 with the full contrast 1.  The editor then applies
    brightness +60, contrast -10 and saturation +40. *)
Theorem analyzeImageHistogram_transparent (img : DOM.ImageData) :
  DOM.wf_image img = true ->
  (forall i, i ∈ for_step (Z.of_nat (length (DOM.data img))) 4 ->
             rd (DOM.data img) (i + 3) = 0) ->
  let r := ImageAnalysis.analyzeImageHistogram img in
  (ImageAnalysis.averageLuminance r == 0)%Q
  /\ (ImageAnalysis.saturationLevel r == 0)%Q
  /\ (ImageAnalysis.contrastLevel r == 1)%Q
  /\ Editor.handleAutoEnhance img = Editor.mkEnhancedState 60 (-10) 40.
Proof.
  intros Hwf Hclear r.
  pose proof (buildHistogram_transparent _ Hclear) as Hempty.
  assert (ImageAnalysis.averageLuminance r == 0)%Q as HL.
  { unfold r, ImageAnalysis.analyzeImageHistogram. rewrite Hempty. simpl.
    unfold Qdiv. by rewrite Qmult_0_l. }
  assert (ImageAnalysis.saturationLevel r == 0)%Q as HS.
  { unfold r, ImageAnalysis.analyzeImageHistogram. rewrite Hempty. simpl.
    unfold Qdiv. by rewrite Qmult_0_l. }
  assert (ImageAnalysis.contrastLevel r
          = ImageAnalysis.calculateContrastLevel (replicate 256 0)) as HC.
  { unfold r. rewrite analyzeImageHistogram_contrast. by rewrite Hempty. }
  destruct (analyzeImageHistogram_recommendations img) as (Hb & Hc & Hs).
  fold r in Hb, Hc, Hs.
  assert (ImageAnalysis.contrastLevel r == 1)%Q as HC'
    by (rewrite HC; vm_compute; reflexivity).
  split_and!; [done | done | done |].
  unfold Editor.handleAutoEnhance. fold r. rewrite Hb, Hc, Hs, HC.
  set (L := ImageAnalysis.averageLuminance r) in *.
  set (S := ImageAnalysis.saturationLevel r) in *.
  clearbody L S. clear Hb Hc Hs HC HC' Hempty. clearbody r.
  assert (Math_round (ImageAnalysis.calculateBrightnessAdjustment L) = 60) as ->.
  { destruct (calculateBrightnessAdjustment_linear L) as [Hlin _]; [lra |].
    rewrite (Math_round_comp _ 60); [reflexivity | qnum]. }
  assert (Math_round (ImageAnalysis.calculateSaturationAdjustment S) = 40) as ->.
  { rewrite (Math_round_comp _ 40); [reflexivity |].
    unfold ImageAnalysis.calculateSaturationAdjustment.
    destruct (Qlt_le_dec 0 ((4 # 10) - S)); [| lra].
    rewrite Q.min_l; [reflexivity | lra]. }
  vm_compute. reflexivity.
Qed.

Lemma analyzeImageHistogram_transparent_witness :
  let img := Samples.solid 9 9 9 0 2 1 in
  let r := ImageAnalysis.analyzeImageHistogram img in
  (ImageAnalysis.averageLuminance r == 0)%Q
  /\ (ImageAnalysis.saturationLevel r == 0)%Q
  /\ (ImageAnalysis.contrastLevel r == 1)%Q
  /\ Editor.handleAutoEnhance img = Editor.mkEnhancedState 60 (-10) 40.
Proof.
  apply (analyzeImageHistogram_transparent (Samples.solid 9 9 9 0 2 1)).
  - reflexivity.
  - assert (Z.of_nat (length (DOM.data (Samples.solid 9 9 9 0 2 1))) = 8) as ->
      by reflexivity.
    intros i [Hi [k ->]]%elem_of_for_step; [| lia].
    assert (k = 0 \/ k = 1) as [-> | ->] by lia; reflexivity.
Defined.

(** ** The histogram analyzer: one colour *)





Section Spike.

Variable h : list Z.
Variable L n : Z.
Hypothesis h_length : length h = 256%nat.
Hypothesis h_spike : forall i, rd h i = if i =? L then n else 0.
Hypothesis L_range : 0 <= L <= 255.
Hypothesis n_pos : 0 < n.








End Spike.




(** ** The sharpening service: the output is an image *)

Lemma ToUint8Clamp_range (q : Q) : 0 <= ToUint8Clamp q <= 255.
Proof.
  unfold ToUint8Clamp.
  destruct (Qle_bool q 0) eqn:E0; [lia |].
  destruct (Qle_bool 255 q) eqn:E1; [lia |].
  assert (0 < q)%Q as H0.
  { apply Qnot_le_lt. intros H%Qle_bool_iff. congruence. }
  assert (q < 255)%Q as H1.
  { apply Qnot_le_lt. intros H%Qle_bool_iff. congruence. }
  pose proof (Qfloor_le q) as Hle. pose proof (Qlt_floor q) as Hlt.
  assert (inject_Z (Qfloor q) < inject_Z 255)%Q as Hhi
    by (change (inject_Z 255) with 255%Q; lra).
  assert (inject_Z 0 < inject_Z (Qfloor q + 1))%Q as Hlo
    by (change (inject_Z 0) with 0%Q; lra).
  rewrite <- Zlt_Qlt in Hhi, Hlo. clear - Hhi Hlo. cbv zeta.
  repeat case_match; lia.
Qed.

Lemma store_range (v : Sharpening.num Q) : 0 <= Sharpening.store v <= 255.
Proof. destruct v; simpl; [apply ToUint8Clamp_range | lia]. Qed.

(** A store of a byte into an array of bytes leaves an array of bytes. *)
Lemma aset_bytes (a : list Z) (i v : Z) :
  0 <= v <= 255 ->
  (forall j u, aget a j = Some u -> 0 <= u <= 255) ->
  forall j u, aget (aset a i v) j = Some u -> 0 <= u <= 255.
Proof.
  intros Hv Ha j u Hu. destruct (decide (i = j)) as [-> | Hne].
  - destruct (aget_Some_range _ _ _ Hu) as [H0 Hlen]. rewrite length_aset in Hlen.
    rewrite aget_aset_eq in Hu by lia. congruence.
  - rewrite aget_aset_ne in Hu by done. eauto.
Qed.

Lemma wf_image_intro (d : list Z) (w h : Z) :
  0 < w -> 0 < h -> Z.of_nat (length d) = w * h * 4 ->
  (forall i v, aget d i = Some v -> 0 <= v <= 255) ->
  DOM.wf_image (DOM.mkImageData d w h) = true.
Proof.
  intros Hw Hh Hlen Hbytes. unfold DOM.wf_image. simpl.
  rewrite !andb_true_iff. split_and!.
  - by apply Z.ltb_lt.
  - by apply Z.ltb_lt.
  - by apply Z.eqb_eq.
  - apply Is_true_true_1, forallb_True, Forall_lookup. intros n v Hv.
    apply Is_true_true_2. unfold DOM.is_byte.
    assert (0 <= v <= 255) as Hr.
    { apply (Hbytes (Z.of_nat n)). unfold aget.
      destruct (Z.ltb_spec (Z.of_nat n) 0); [lia |]. by rewrite Nat2Z.id. }
    apply andb_true_iff. split; apply Z.leb_le; lia.
Qed.

Section SharpeningBytes.

Variable original : list Z.
Variables width height : Z.

(** The invariant of the passes: the length of the buffer, and bytes
    only. *)
Let image_like (a : list Z) : Prop :=
  length a = length original
  /\ forall j u, aget a j = Some u -> 0 <= u <= 255.

Lemma image_like_store (a : list Z) (i : Z) (v : Sharpening.num Q) :
  image_like a -> image_like (aset a i (Sharpening.store v)).
Proof.
  intros [Hlen Hb]. split; [by rewrite length_aset |].
  apply aset_bytes; [apply store_range | done].
Qed.

Lemma image_like_alpha (a : list Z) (y x : Z) :
  image_like a -> image_like (Sharpening.copyAlpha original width y x a).
Proof. apply image_like_store. Qed.

Lemma applyUnsharpMask_bytes (result : list Z) (intensity : Q) :
  image_like result ->
  image_like (Sharpening.applyUnsharpMask original result width height intensity).
Proof.
  intros Hres. unfold Sharpening.applyUnsharpMask.
  apply interior_invariant; [done |].
  intros y x a _ _ Ha. apply image_like_alpha.
  apply channels_invariant; [done |].
  intros c a' _ Ha'. by apply image_like_store.
Qed.

Lemma applyLaplacianSharpening_bytes (result : list Z) (intensity : Q) :
  image_like result ->
  image_like (Sharpening.applyLaplacianSharpening original result width height intensity).
Proof.
  intros Hres. unfold Sharpening.applyLaplacianSharpening.
  apply interior_invariant; [done |].
  intros y x a _ _ Ha. apply image_like_alpha.
  apply channels_invariant; [done |].
  intros c a' _ Ha'. by apply image_like_store.
Qed.

Lemma applyEdgeEnhancement_bytes (Msqrt : Q -> Q) (result : list Z) (intensity : Q) :
  image_like result ->
  image_like (Sharpening.applyEdgeEnhancement Msqrt original result width height
                intensity).
Proof.
  intros Hres. unfold Sharpening.applyEdgeEnhancement.
  apply interior_invariant; [done |].
  intros y x a _ _ Ha. apply image_like_alpha.
  apply channels_invariant; [done |].
  intros c a' _ Ha'.
  destruct (Sharpening.neighbourhood _ _ _ _ _ _) as [gradientX gradientY].
  by apply image_like_store.
Qed.

End SharpeningBytes.

(** X6: for each method and every intensity, the result of [sharpenImage]
    on an image is an image again: the same width and height, four bytes
    for each pixel, every byte in [0, 255]. *)
Theorem sharpenImage_well_formed (Msqrt : Q -> Q) (img : DOM.ImageData)
    (intensity : Q) (method : Sharpening.Method) :
  DOM.wf_image img = true ->
  let out := Sharpening.sharpenImage Msqrt img intensity method in
  DOM.wf_image out = true
  /\ DOM.width out = DOM.width img /\ DOM.height out = DOM.height img
  /\ length (DOM.data out) = length (DOM.data img).
Proof.
  intros (Hw & Hh & Hlen & Hbytes)%wf_image_spec out.
  assert (length (DOM.data out) = length (DOM.data img)
          /\ forall j u, aget (DOM.data out) j = Some u -> 0 <= u <= 255)
    as [Hlen' Hbytes'].
  { unfold out, Sharpening.sharpenImage. simpl.
    rewrite <- Hlen, copyData_copies by done.
    destruct method.
    - by apply applyUnsharpMask_bytes.
    - by apply applyLaplacianSharpening_bytes.
    - by apply applyEdgeEnhancement_bytes. }
  split_and!; [| done | done | done].
  destruct out as [d w h] eqn:Hout.
  assert (w = DOM.width img /\ h = DOM.height img) as [-> ->].
  { unfold out, Sharpening.sharpenImage in Hout. by inversion Hout. }
  simpl in *. apply wf_image_intro; [done | done | | done]. by rewrite Hlen'.
Qed.

Lemma sharpenImage_well_formed_witness :
  let out := Sharpening.sharpenImage Samples.sqrtUp Samples.textured (3 # 2)
               Sharpening.laplacian in
  DOM.wf_image out = true
  /\ DOM.width out = DOM.width Samples.textured
  /\ DOM.height out = DOM.height Samples.textured
  /\ length (DOM.data out) = length (DOM.data Samples.textured).
Proof.
  apply (sharpenImage_well_formed Samples.sqrtUp Samples.textured (3 # 2)
           Sharpening.laplacian).
  reflexivity.
Defined.

(** ** The sharpening service: intensity zero *)

Lemma aset_same (a : list Z) (i v : Z) : aget a i = Some v -> aset a i v = a.
Proof.
  unfold aget, aset. destruct (i <? 0); [done |]. apply list_insert_id.
Qed.

Lemma ToUint8Clamp_comp (q q' : Q) : (q == q')%Q -> ToUint8Clamp q = ToUint8Clamp q'.
Proof.
  intros Heq. unfold ToUint8Clamp.
  rewrite <- (Qfloor_comp _ _ Heq). generalize (Qfloor q). intros f. cbv zeta.
  assert (Qle_bool q 0 = Qle_bool q' 0) as <- by (by rewrite Heq).
  assert (Qle_bool 255 q = Qle_bool 255 q') as <- by (by rewrite Heq).
  assert (Qle_bool (q - inject_Z f) (1 # 2)
          = Qle_bool (q' - inject_Z f) (1 # 2)) as <- by (by rewrite Heq).
  assert (Qeq_bool (q - inject_Z f) (1 # 2)
          = Qeq_bool (q' - inject_Z f) (1 # 2)) as <- by (by rewrite Heq).
  done.
Qed.

(** A number equal to a byte is stored as that byte. *)
Lemma store_clamp255_byte (q : Q) (v : Z) :
  0 <= v <= 255 -> (q == inject_Z v)%Q ->
  Sharpening.store (Sharpening.clamp255 <$> Some q) = v.
Proof.
  intros Hv Hq. simpl. rewrite <- (ToUint8Clamp_byte v Hv).
  apply ToUint8Clamp_comp. unfold Sharpening.clamp255.
  assert (0 <= inject_Z v <= 255)%Q as [H0 H1].
  { change 0%Q with (inject_Z 0). change 255%Q with (inject_Z 255).
    rewrite <- !Zle_Qle. lia. }
  rewrite Hq, Q.min_r, Q.max_r by done. reflexivity.
Qed.

(** The nine turns of the loops over [ky] and [kx], written out. *)
Lemma neighbourhood_unfold {A : Type} (width x y c : Z)
    (body : Z -> Z -> A -> A) (st : A) :
  Sharpening.neighbourhood width x y c body st
  = let at_ := fun ky kx => ((y + ky) * width + (x + kx)) * 4 + c in
    body (at_ 1 1) 8 (body (at_ 1 0) 7 (body (at_ 1 (-1)) 6
      (body (at_ 0 1) 5 (body (at_ 0 0) 4 (body (at_ 0 (-1)) 3
        (body (at_ (-1) 1) 2 (body (at_ (-1) 0) 1 (body (at_ (-1) (-1)) 0 st)))))))).
Proof. reflexivity. Qed.

Lemma gaussianBlur_length (original : list Z) (width height : Z) :
  length (Sharpening.gaussianBlur original width height) = length original.
Proof.
  unfold Sharpening.gaussianBlur.
  apply (interior_invariant (fun a => length a = length original)).
  - unfold zeros. by rewrite length_replicate, Nat2Z.id.
  - intros y x a _ _ Ha.
    apply (channels_invariant (fun a => length a = length original)); [done |].
    intros c a' _ Ha'. by rewrite length_aset.
Qed.

Section Interior3x3.

Variable img : DOM.ImageData.
Hypothesis img_wf : DOM.wf_image img = true.
Variables x y c : Z.
Hypothesis x_interior : 1 <= x < DOM.width img - 1.
Hypothesis y_interior : 1 <= y < DOM.height img - 1.
Hypothesis c_channel : 0 <= c < 4.

(** Every sample of the 3 x 3 neighbourhood of an interior pixel is a
    byte of the image. *)
Lemma neighbour_defined (ky kx : Z) :
  -1 <= ky <= 1 -> -1 <= kx <= 1 ->
  exists v, aget (DOM.data img) (((y + ky) * DOM.width img + (x + kx)) * 4 + c) = Some v
            /\ 0 <= v <= 255.
Proof.
  intros Hky Hkx.
  destruct (offsetOf_in_range img (x + kx) (y + ky) c img_wf) as [v Hv]; [lia .. |].
  exists v. split; [done |].
  apply wf_image_spec in img_wf as (_ & _ & _ & Hbytes). eauto.
Qed.

Lemma mac_defined (kernel : list Z) (ky kx ki k : Z) (sum : Sharpening.num Z) :
  -1 <= ky <= 1 -> -1 <= kx <= 1 -> aget kernel ki = Some k ->
  is_Some sum ->
  is_Some (Sharpening.mac (DOM.data img) kernel
             (((y + ky) * DOM.width img + (x + kx)) * 4 + c) ki sum).
Proof.
  intros Hky Hkx Hk [s ->].
  destruct (neighbour_defined ky kx Hky Hkx) as (v & Hv & _).
  unfold Sharpening.mac. simpl. rewrite Hv, Hk. simpl. by eexists.
Qed.

Lemma convolve_defined (kernel : list Z) :
  length kernel = 9%nat ->
  is_Some (Sharpening.convolve (DOM.data img) (DOM.width img) x y c kernel).
Proof.
  intros Hlen.
  do 10 (destruct kernel as [| ? kernel]; try discriminate).
  unfold Sharpening.convolve. rewrite neighbourhood_unfold. cbv beta zeta.
  repeat (eapply mac_defined; [lia | lia | reflexivity |]).
  by eexists.
Qed.

Lemma pixel_defined :
  exists v, aget (DOM.data img) ((y * DOM.width img + x) * 4 + c) = Some v
            /\ 0 <= v <= 255.
Proof.
  destruct (offsetOf_in_range img x y c img_wf) as [v Hv]; [lia .. |].
  exists v. split; [done |].
  apply wf_image_spec in img_wf as (_ & _ & _ & Hbytes). eauto.
Qed.

Lemma gradients_defined :
  exists gx gy,
    Sharpening.neighbourhood (DOM.width img) x y c
      (fun pixelIndex ki '(gradientX, gradientY) =>
         (Sharpening.mac (DOM.data img) Sharpening.sobelX pixelIndex ki gradientX,
          Sharpening.mac (DOM.data img) Sharpening.sobelY pixelIndex ki gradientY))
      (Some 0, Some 0)
    = (Some gx, Some gy).
Proof.
  pose proof (convolve_defined Sharpening.sobelX eq_refl) as [gx Hgx].
  pose proof (convolve_defined Sharpening.sobelY eq_refl) as [gy Hgy].
  exists gx, gy. unfold Sharpening.convolve in Hgx, Hgy.
  rewrite neighbourhood_unfold in Hgx, Hgy. rewrite neighbourhood_unfold.
  cbv beta iota zeta in *. by rewrite Hgx, Hgy.
Qed.

End Interior3x3.

Lemma copyAlpha_same (img : DOM.ImageData) (x y : Z) :
  DOM.wf_image img = true ->
  1 <= x < DOM.width img - 1 -> 1 <= y < DOM.height img - 1 ->
  Sharpening.copyAlpha (DOM.data img) (DOM.width img) y x (DOM.data img)
  = DOM.data img.
Proof.
  intros Hwf Hx Hy. unfold Sharpening.copyAlpha.
  destruct (pixel_defined img Hwf x y 3) as (v & Hv & Hb); [lia .. |].
  apply aset_same. rewrite Hv. f_equal. simpl. by rewrite ToUint8Clamp_byte.
Qed.

Lemma applyUnsharpMask_zero (img : DOM.ImageData) :
  DOM.wf_image img = true ->
  Sharpening.applyUnsharpMask (DOM.data img) (DOM.data img) (DOM.width img)
    (DOM.height img) 0
  = DOM.data img.
Proof.
  intros Hwf. unfold Sharpening.applyUnsharpMask.
  apply (interior_invariant (fun a => a = DOM.data img)); [done |].
  intros y x a Hy Hx ->.
  rewrite <- (copyAlpha_same img x y Hwf Hx Hy) at 3. f_equal.
  apply (channels_invariant (fun a => a = DOM.data img)); [done |].
  intros c a Hc ->.
  destruct (pixel_defined img Hwf x y c) as (v & Hv & Hb); [lia .. |].
  destruct (aget_in_range
              (Sharpening.gaussianBlur (DOM.data img) (DOM.width img) (DOM.height img))
              ((y * DOM.width img + x) * 4 + c)) as [b Hblur].
  { rewrite gaussianBlur_length. by apply aget_Some_range in Hv. }
  apply aset_same. rewrite Hv, Hblur. f_equal.
  symmetry.
  apply (store_clamp255_byte (inject_Z v + (inject_Z v - inject_Z b) * 0)%Q v); [done | ring].
Qed.

Lemma applyLaplacianSharpening_zero (img : DOM.ImageData) :
  DOM.wf_image img = true ->
  Sharpening.applyLaplacianSharpening (DOM.data img) (DOM.data img) (DOM.width img)
    (DOM.height img) 0
  = DOM.data img.
Proof.
  intros Hwf. unfold Sharpening.applyLaplacianSharpening.
  apply (interior_invariant (fun a => a = DOM.data img)); [done |].
  intros y x a Hy Hx ->.
  rewrite <- (copyAlpha_same img x y Hwf Hx Hy) at 3. f_equal.
  apply (channels_invariant (fun a => a = DOM.data img)); [done |].
  intros c a Hc ->.
  destruct (pixel_defined img Hwf x y c) as (v & Hv & Hb); [lia .. |].
  destruct (convolve_defined img Hwf x y c Hx Hy ltac:(lia)
              Sharpening.laplacianKernel eq_refl) as [s Hs].
  apply aset_same. rewrite Hv, Hs. f_equal.
  symmetry.
  apply (store_clamp255_byte (inject_Z v + (inject_Z s - inject_Z v) * 0 * (3 # 10))%Q v); [done | ring].
Qed.

Lemma applyEdgeEnhancement_zero (Msqrt : Q -> Q) (img : DOM.ImageData) :
  DOM.wf_image img = true ->
  Sharpening.applyEdgeEnhancement Msqrt (DOM.data img) (DOM.data img)
    (DOM.width img) (DOM.height img) 0
  = DOM.data img.
Proof.
  intros Hwf. unfold Sharpening.applyEdgeEnhancement.
  apply (interior_invariant (fun a => a = DOM.data img)); [done |].
  intros y x a Hy Hx ->.
  rewrite <- (copyAlpha_same img x y Hwf Hx Hy) at 3. f_equal.
  apply (channels_invariant (fun a => a = DOM.data img)); [done |].
  intros c a Hc ->.
  destruct (pixel_defined img Hwf x y c) as (v & Hv & Hb); [lia .. |].
  destruct (gradients_defined img Hwf x y c Hx Hy ltac:(lia)) as (gx & gy & ->).
  apply aset_same. rewrite Hv. f_equal.
  symmetry.
  apply (store_clamp255_byte (inject_Z v + Msqrt (inject_Z (gx * gx + gy * gy)) * 0 * (2 # 10))%Q v); [done | ring].
Qed.

(** X7: with an intensity of 0 each of the three methods returns the
    image it was given, byte for byte. *)
Theorem sharpenImage_zero_intensity (Msqrt : Q -> Q) (img : DOM.ImageData)
    (method : Sharpening.Method) :
  DOM.wf_image img = true ->
  Sharpening.sharpenImage Msqrt img 0 method = img.
Proof.
  intros Hwf. pose proof Hwf as (Hw & Hh & Hlen & Hbytes)%wf_image_spec.
  unfold Sharpening.sharpenImage.
  rewrite <- Hlen, copyData_copies by done.
  destruct method.
  - rewrite applyUnsharpMask_zero by done. by destruct img.
  - rewrite applyLaplacianSharpening_zero by done. by destruct img.
  - rewrite applyEdgeEnhancement_zero by done. by destruct img.
Qed.

Lemma sharpenImage_zero_intensity_witness :
  Sharpening.sharpenImage Samples.sqrtUp Samples.textured 0 Sharpening.edge_enhance
  = Samples.textured.
Proof.
  apply (sharpenImage_zero_intensity Samples.sqrtUp Samples.textured
           Sharpening.edge_enhance).
  reflexivity.
Defined.


(** ** The sharpness scorer: when there is a score *)

(** What the body of the two loops establishes once, at the interior
    pixel [(x0, y0)], and no turn destroys, holds after the loops. *)
Lemma interior_established {A : Type} (I P : A -> Prop) (width height : Z)
    (body : Z -> Z -> A -> A) (y0 x0 : Z) (a : A) :
  1 <= y0 < height - 1 -> 1 <= x0 < width - 1 ->
  I a ->
  (forall y x a, 1 <= y < height - 1 -> 1 <= x < width - 1 -> I a -> I (body y x a)) ->
  (forall a, I a -> P (body y0 x0 a)) ->
  (forall y x a, 1 <= y < height - 1 -> 1 <= x < width - 1 ->
                 I a -> P a -> P (body y x a)) ->
  I (Sharpening.interior width height body a)
  /\ P (Sharpening.interior width height body a).
Proof.
  intros Hy0 Hx0 Ha Hinv Hest Hstable. unfold Sharpening.interior.
  assert (forall y a, 1 <= y < height - 1 -> I a ->
            I (foldl (fun a x => body y x a) a (for_range 1 (width - 1)))) as Hrow.
  { intros y a' Hy Ha'. apply foldl_invariant; [done |].
    intros a2 x Hx%elem_of_for_range Ha2. by apply Hinv. }
  apply (foldl_established I P _ _ y0).
  - apply elem_of_for_range. lia.
  - done.
  - intros a' y Hy%elem_of_for_range Ha'. by apply Hrow.
  - intros a' Ha'.
    apply (foldl_established I P (fun a x => body y0 x a) _ x0).
    + apply elem_of_for_range. lia.
    + done.
    + intros a2 x Hx%elem_of_for_range Ha2. by apply Hinv.
    + done.
    + intros a2 x Hx%elem_of_for_range Ha2 Hp2. by apply Hstable.
  - intros a' y Hy%elem_of_for_range Ha' Hp'.
    apply (foldl_invariant (fun a => I a /\ P a)); [done |].
    intros a2 x Hx%elem_of_for_range [Ha2 Hp2].
    split; [by apply Hinv | by apply Hstable].
Qed.

Section SharpnessScore.

Variable Msqrt : Q -> Q.
Variable img : DOM.ImageData.
Hypothesis img_wf : DOM.wf_image img = true.

Lemma redAt_defined (y x : Z) :
  0 <= x < DOM.width img -> 0 <= y < DOM.height img ->
  is_Some (Sharpening.redAt (DOM.data img) (DOM.width img) y x).
Proof.
  intros Hx Hy. apply wf_image_spec in img_wf as (Hw & Hh & Hlen & _).
  unfold Sharpening.redAt. apply aget_in_range. nia.
Qed.

(** At an interior pixel both Sobel sums are numbers. *)
Lemma sobel_defined (y x : Z) :
  1 <= y < DOM.height img - 1 -> 1 <= x < DOM.width img - 1 ->
  is_Some (Sharpening.sobelGx (Sharpening.redAt (DOM.data img) (DOM.width img))
             Z.add Z.mul y x)
  /\ is_Some (Sharpening.sobelGy (Sharpening.redAt (DOM.data img) (DOM.width img))
                Z.add Z.mul y x).
Proof.
  intros Hy Hx. unfold Sharpening.sobelGx, Sharpening.sobelGy.
  destruct (redAt_defined (y - 1) (x - 1)) as [? ->]; [lia .. |].
  destruct (redAt_defined (y - 1) x) as [? ->]; [lia .. |].
  destruct (redAt_defined (y - 1) (x + 1)) as [? ->]; [lia .. |].
  destruct (redAt_defined y (x - 1)) as [? ->]; [lia .. |].
  destruct (redAt_defined y (x + 1)) as [? ->]; [lia .. |].
  destruct (redAt_defined (y + 1) (x - 1)) as [? ->]; [lia .. |].
  destruct (redAt_defined (y + 1) x) as [? ->]; [lia .. |].
  destruct (redAt_defined (y + 1) (x + 1)) as [? ->]; [lia .. |].
  simpl. split; by eexists.
Qed.

Lemma transparent_spec (y x : Z) :
  1 <= y < DOM.height img - 1 -> 1 <= x < DOM.width img - 1 ->
  Sharpening.transparent (DOM.data img) ((y * DOM.width img + x) * 4) = true
  <-> rd (DOM.data img) (offsetOf img x y 3) < 128.
Proof.
  intros Hy Hx. unfold Sharpening.transparent, rd, offsetOf.
  destruct (offsetOf_in_range img x y 3 img_wf) as [a Ha]; [lia .. |].
  unfold offsetOf in Ha. rewrite Ha. simpl. apply Z.ltb_lt.
Qed.

Let scored (st : Sharpening.num Q * Z) : Prop := is_Some st.1 /\ 0 <= st.2.

Lemma sharpnessStep_scored (y x : Z) (st : Sharpening.num Q * Z) :
  1 <= y < DOM.height img - 1 -> 1 <= x < DOM.width img - 1 ->
  scored st ->
  scored (Sharpening.sharpnessStep Msqrt (DOM.data img) (DOM.width img) y x st)
  /\ st.2 <= (Sharpening.sharpnessStep Msqrt (DOM.data img) (DOM.width img) y x st).2
  /\ (~ rd (DOM.data img) (offsetOf img x y 3) < 128 ->
      0 < (Sharpening.sharpnessStep Msqrt (DOM.data img) (DOM.width img) y x st).2).
Proof.
  intros Hy Hx [[e He] Hn]. destruct st as [edgeStrength n]. simpl in *. subst.
  pose proof (transparent_spec y x Hy Hx) as Ht.
  unfold Sharpening.sharpnessStep.
  destruct (Sharpening.transparent _ _).
  - split_and!; [split; [by eexists | done] | done |].
    intros Hvis. destruct Hvis. by apply Ht.
  - destruct (sobel_defined y x Hy Hx) as [[gx ->] [gy ->]]. simpl.
    split_and!; [split; [by eexists | simpl; lia] | lia | lia].
Qed.

Lemma analyzeImageSharpness_none :
  Sharpening.analyzeImageSharpness Msqrt img = None
  <-> forall x y, 1 <= x < DOM.width img - 1 -> 1 <= y < DOM.height img - 1 ->
                  rd (DOM.data img) (offsetOf img x y 3) < 128.
Proof.
  unfold Sharpening.analyzeImageSharpness. split.
  - intros Hnone x y Hx Hy.
    destruct (Z.lt_ge_cases (rd (DOM.data img) (offsetOf img x y 3)) 128)
      as [| Hvis]; [done |]. exfalso.
    destruct (interior_established scored (fun st => 0 < st.2)
                (DOM.width img) (DOM.height img)
                (Sharpening.sharpnessStep Msqrt (DOM.data img) (DOM.width img))
                y x (Some 0%Q, 0) Hy Hx) as [[[e He] _] Hpos].
    + split; simpl; [by eexists | done].
    + intros y' x' st Hy' Hx' Hst. by apply sharpnessStep_scored.
    + intros st Hst. apply sharpnessStep_scored; [done .. | lia].
    + intros y' x' st Hy' Hx' Hst Hp.
      destruct (sharpnessStep_scored y' x' st Hy' Hx' Hst) as (_ & Hle & _). lia.
    + destruct (Sharpening.interior _ _ _ _) as [edgeStrength n]. simpl in *. subst.
      unfold Sharpening.normalizeSharpness in Hnone. simpl in Hnone.
      destruct (Z.eqb_spec n 0); [lia | done].
  - intros Hclear.
    assert (Sharpening.interior (DOM.width img) (DOM.height img)
              (Sharpening.sharpnessStep Msqrt (DOM.data img) (DOM.width img))
              (Some 0%Q, 0) = (Some 0%Q, 0)) as ->; [| done].
    apply (interior_invariant (fun st => st = (Some 0%Q, 0))); [done |].
    intros y x st Hy Hx ->. unfold Sharpening.sharpnessStep.
    by rewrite (proj2 (transparent_spec y x Hy Hx) (Hclear x y Hx Hy)).
Qed.

End SharpnessScore.

(** X8: the sharpness score of an image is [NaN] exactly when no interior
    pixel has an alpha of 128 or more, as in every image narrower or lower
    than 3 pixels; otherwise it is a number in [0, 100].  On a [NaN] all
    comparisons of [handleSharpenImage] fail and it sharpens with the
    intensity 0.8 of an image that is sharp already. *)
Theorem analyzeImageSharpness_score (Msqrt : Q -> Q) (img : DOM.ImageData) :
  DOM.wf_image img = true ->
  let score := Sharpening.analyzeImageSharpness Msqrt img in
  (score = None
   <-> forall x y, 1 <= x < DOM.width img - 1 -> 1 <= y < DOM.height img - 1 ->
                   rd (DOM.data img) (offsetOf img x y 3) < 128)
  /\ (DOM.width img < 3 \/ DOM.height img < 3 -> score = None)
  /\ (forall v, score = Some v -> (0 <= v <= 100)%Q)
  /\ (score = None ->
      Editor.handleSharpenImage Msqrt img
      = Sharpening.sharpenImage Msqrt img (8 # 10) Sharpening.unsharp).
Proof.
  intros Hwf score. split_and!.
  - by apply analyzeImageSharpness_none.
  - intros Hsmall. apply analyzeImageSharpness_none; [done |]. intros; lia.
  - apply analyzeImageSharpness_range.
  - intros Hnone. unfold Editor.handleSharpenImage. fold score. by rewrite Hnone.
Qed.

Lemma analyzeImageSharpness_score_witness :
  let img := Samples.textured in
  let score := Sharpening.analyzeImageSharpness Samples.sqrtUp img in
  (score = None
   <-> forall x y, 1 <= x < DOM.width img - 1 -> 1 <= y < DOM.height img - 1 ->
                   rd (DOM.data img) (offsetOf img x y 3) < 128)
  /\ (DOM.width img < 3 \/ DOM.height img < 3 -> score = None)
  /\ (forall v, score = Some v -> (0 <= v <= 100)%Q)
  /\ (score = None ->
      Editor.handleSharpenImage Samples.sqrtUp img
      = Sharpening.sharpenImage Samples.sqrtUp img (8 # 10) Sharpening.unsharp).
Proof.
  apply (analyzeImageSharpness_score Samples.sqrtUp Samples.textured). reflexivity.
Defined.

(** ** The sharpening service: the value of an interior pixel *)

Section PixelValue.

Variable img : DOM.ImageData.
Hypothesis img_wf : DOM.wf_image img = true.

Lemma sample_defined (x y c : Z) :
  0 <= x < DOM.width img -> 0 <= y < DOM.height img -> 0 <= c < 4 ->
  aget (DOM.data img) ((y * DOM.width img + x) * 4 + c) = Some (sample img x y c)
  /\ 0 <= sample img x y c <= 255.
Proof.
  intros Hx Hy Hc.
  destruct (offsetOf_in_range img x y c img_wf Hx Hy Hc) as [v Hv].
  unfold sample, rd. unfold offsetOf in *. rewrite Hv. simpl. split; [done |].
  apply wf_image_spec in img_wf as (_ & _ & _ & Hbytes). eauto.
Qed.

Lemma convolve_weighted (kernel : list Z) (x y c : Z) :
  1 <= x < DOM.width img - 1 -> 1 <= y < DOM.height img - 1 -> 0 <= c < 4 ->
  length kernel = 9%nat ->
  Sharpening.convolve (DOM.data img) (DOM.width img) x y c kernel
  = Some (weighted img kernel x y c).
Proof.
  intros Hx Hy Hc Hlen.
  do 10 (destruct kernel as [| ? kernel]; try discriminate).
  unfold Sharpening.convolve. rewrite neighbourhood_unfold. cbv beta zeta.
  unfold Sharpening.mac.
  destruct (sample_defined (x + -1) (y + -1) c) as [-> _]; [lia .. |].
  destruct (sample_defined (x + 0) (y + -1) c) as [-> _]; [lia .. |].
  destruct (sample_defined (x + 1) (y + -1) c) as [-> _]; [lia .. |].
  destruct (sample_defined (x + -1) (y + 0) c) as [-> _]; [lia .. |].
  destruct (sample_defined (x + 0) (y + 0) c) as [-> _]; [lia .. |].
  destruct (sample_defined (x + 1) (y + 0) c) as [-> _]; [lia .. |].
  destruct (sample_defined (x + -1) (y + 1) c) as [-> _]; [lia .. |].
  destruct (sample_defined (x + 0) (y + 1) c) as [-> _]; [lia .. |].
  destruct (sample_defined (x + 1) (y + 1) c) as [-> _]; [lia .. |].
  unfold weighted. simpl. f_equal. lia.
Qed.

End PixelValue.

Lemma interior_ext {A : Type} (width height : Z) (body body' : Z -> Z -> A -> A)
    (a : A) :
  (forall y x a, 1 <= y < height - 1 -> 1 <= x < width - 1 ->
                 body y x a = body' y x a) ->
  Sharpening.interior width height body a = Sharpening.interior width height body' a.
Proof.
  intros Hext. unfold Sharpening.interior.
  apply foldl_ext_in. intros a1 y Hy%elem_of_for_range.
  apply foldl_ext_in. intros a2 x Hx%elem_of_for_range. by apply Hext.
Qed.

Lemma channels_ext {A : Type} (body body' : Z -> A -> A) (a : A) :
  (forall c a, 0 <= c < 3 -> body c a = body' c a) ->
  Sharpening.channels body a = Sharpening.channels body' a.
Proof.
  intros Hext. unfold Sharpening.channels.
  apply foldl_ext_in. intros a1 c Hc%elem_of_for_range. by apply Hext.
Qed.

Section ChannelStores.

Variable base : Z.
Variable value : Z -> Z.

Lemma channels_store_length (a : list Z) :
  length (Sharpening.channels (fun c a => aset a (base + c) (value c)) a) = length a.
Proof.
  apply (channels_invariant (fun a' => length a' = length a)); [done |].
  intros c a' _ Ha'. by rewrite length_aset.
Qed.

Lemma channels_store_lookup (a : list Z) (c0 : Z) :
  0 <= c0 < 3 -> 0 <= base + c0 < Z.of_nat (length a) ->
  aget (Sharpening.channels (fun c a => aset a (base + c) (value c)) a) (base + c0)
  = Some (value c0).
Proof.
  intros Hc0 Hrange. unfold Sharpening.channels.
  apply (foldl_established (fun a' => length a' = length a)
           (fun a' => aget a' (base + c0) = Some (value c0)) _ _ c0).
  - apply elem_of_for_range. lia.
  - done.
  - intros a' c _ Ha'. by rewrite length_aset.
  - intros a' Ha'. rewrite aget_aset_eq; [done | lia].
  - intros a' c _ Ha' Hp. destruct (decide (c = c0)) as [-> | Hne].
    + rewrite aget_aset_eq; [done | lia].
    + rewrite aget_aset_ne by lia. done.
Qed.

Lemma channels_store_other (a : list Z) (j : Z) :
  (forall c, 0 <= c < 3 -> base + c <> j) ->
  aget (Sharpening.channels (fun c a => aset a (base + c) (value c)) a) j = aget a j.
Proof.
  intros Hj.
  apply (channels_invariant (fun a' => aget a' j = aget a j)); [done |].
  intros c a' Hc Ha'. rewrite aget_aset_ne; [done | by apply Hj].
Qed.

End ChannelStores.

Section PassLookup.

Variables width height : Z.
Variable post : Z -> Z -> list Z -> list Z.
Variable value : Z -> Z -> Z -> Z.
Hypothesis post_length : forall y x a, length (post y x a) = length a.
Hypothesis post_alpha :
  forall y x a j, j <> (y * width + x) * 4 + 3 -> aget (post y x a) j = aget a j.

(** A pass stores, for each interior pixel, its three colour channels
    and then at most its alpha: afterwards a colour channel of an interior
    pixel holds the value of its own turn. *)
Lemma pass_lookup (a : list Z) (x0 y0 c0 : Z) :
  Z.of_nat (length a) = width * height * 4 ->
  1 <= x0 < width - 1 -> 1 <= y0 < height - 1 -> 0 <= c0 < 3 ->
  aget (Sharpening.interior width height
          (fun y x a =>
             post y x
               (Sharpening.channels
                  (fun c a => aset a ((y * width + x) * 4 + c) (value y x c)) a))
          a)
       ((y0 * width + x0) * 4 + c0)
  = Some (value y0 x0 c0).
Proof.
  intros Hlen Hx0 Hy0 Hc0.
  set (idx0 := (y0 * width + x0) * 4 + c0).
  assert (0 <= idx0 < width * height * 4) as Hidx0 by (unfold idx0; nia).
  apply (interior_established (fun a' => length a' = length a)
           (fun a' => aget a' idx0 = Some (value y0 x0 c0))
           width height _ y0 x0); try done.
  - intros y x a' _ _ Ha'. by rewrite post_length, channels_store_length.
  - intros a' Ha'. rewrite post_alpha by (unfold idx0; lia).
    apply (channels_store_lookup ((y0 * width + x0) * 4) (value y0 x0)); [done |].
    rewrite Ha'. fold idx0. lia.
  - intros y x a' Hy Hx Ha' Hp. rewrite post_alpha by (unfold idx0; lia).
    destruct (decide (y * width + x = y0 * width + x0)) as [Heq | Hne].
    + assert (y = y0) as -> by nia. assert (x = x0) as -> by lia.
      apply (channels_store_lookup ((y0 * width + x0) * 4) (value y0 x0)); [done |].
      rewrite Ha'. fold idx0. lia.
    + rewrite (channels_store_other ((y * width + x) * 4) (value y x));
        [done | unfold idx0; lia].
Qed.

End PassLookup.

Lemma gradients_pair (original : list Z) (width x y c : Z) :
  Sharpening.neighbourhood width x y c
    (fun pixelIndex ki '(gradientX, gradientY) =>
       (Sharpening.mac original Sharpening.sobelX pixelIndex ki gradientX,
        Sharpening.mac original Sharpening.sobelY pixelIndex ki gradientY))
    (Some 0, Some 0)
  = (Sharpening.convolve original width x y c Sharpening.sobelX,
     Sharpening.convolve original width x y c Sharpening.sobelY).
Proof. unfold Sharpening.convolve. rewrite !neighbourhood_unfold. reflexivity. Qed.

Section SharpenedValue.

Variable Msqrt : Q -> Q.
Variable img : DOM.ImageData.
Hypothesis img_wf : DOM.wf_image img = true.
Variable intensity : Q.

Lemma gaussianBlur_lookup (x y c : Z) :
  1 <= x < DOM.width img - 1 -> 1 <= y < DOM.height img - 1 -> 0 <= c < 3 ->
  aget (Sharpening.gaussianBlur (DOM.data img) (DOM.width img) (DOM.height img))
       ((y * DOM.width img + x) * 4 + c)
  = Some (ToUint8Clamp
            (inject_Z (weighted img Sharpening.gaussianKernel x y c) / 16)).
Proof.
  intros Hx Hy Hc. pose proof img_wf as (Hw & Hh & Hlen & _)%wf_image_spec.
  unfold Sharpening.gaussianBlur.
  etrans.
  - apply (pass_lookup (DOM.width img) (DOM.height img) (fun _ _ a => a)
             (fun y x c =>
                Sharpening.store
                  ((fun s => inject_Z s / Sharpening.kernelSum)%Q
                     <$> Sharpening.convolve (DOM.data img) (DOM.width img) x y c
                           Sharpening.gaussianKernel))); try done.
    unfold zeros. by rewrite length_replicate, Nat2Z.id.
  - cbv beta. rewrite convolve_weighted by (done || lia). reflexivity.
Qed.

(** The body of each pass at an interior pixel stores the value
    [sharpened] computes. *)
Lemma sharpenImage_pass (method : Sharpening.Method) :
  DOM.data (Sharpening.sharpenImage Msqrt img intensity method)
  = Sharpening.interior (DOM.width img) (DOM.height img)
      (fun y x a =>
         Sharpening.copyAlpha (DOM.data img) (DOM.width img) y x
           (Sharpening.channels
              (fun c a =>
                 aset a ((y * DOM.width img + x) * 4 + c)
                      (sharpened Msqrt img intensity method x y c))
              a))
      (DOM.data img).
Proof.
  pose proof img_wf as (Hw & Hh & Hlen & Hbytes)%wf_image_spec.
  unfold Sharpening.sharpenImage. simpl.
  rewrite <- Hlen, copyData_copies by done.
  destruct method;
    [unfold Sharpening.applyUnsharpMask
    |unfold Sharpening.applyLaplacianSharpening
    |unfold Sharpening.applyEdgeEnhancement];
    apply interior_ext; intros y x a Hy Hx; f_equal;
    apply channels_ext; intros c a' Hc; cbv zeta;
    destruct (sample_defined img img_wf x y c) as [Ho _]; try lia.
  - rewrite Ho, gaussianBlur_lookup by done. reflexivity.
  - rewrite Ho, convolve_weighted by (done || lia). reflexivity.
  - rewrite gradients_pair, !convolve_weighted, Ho by (done || lia). reflexivity.
Qed.

Lemma sharpenImage_lookup (method : Sharpening.Method) (x y c : Z) :
  1 <= x < DOM.width img - 1 -> 1 <= y < DOM.height img - 1 -> 0 <= c < 3 ->
  aget (DOM.data (Sharpening.sharpenImage Msqrt img intensity method))
       (offsetOf img x y c)
  = Some (sharpened Msqrt img intensity method x y c).
Proof.
  intros Hx Hy Hc. pose proof img_wf as (Hw & Hh & Hlen & _)%wf_image_spec.
  rewrite sharpenImage_pass. unfold offsetOf.
  apply (pass_lookup (DOM.width img) (DOM.height img)
           (Sharpening.copyAlpha (DOM.data img) (DOM.width img))
           (fun y x c => sharpened Msqrt img intensity method x y c)); try done.
  - intros y' x' a. unfold Sharpening.copyAlpha. by rewrite length_aset.
  - intros y' x' a j Hj. unfold Sharpening.copyAlpha. by rewrite aget_aset_ne.
Qed.

End SharpenedValue.



(** A pixel whose 3 x 3 neighbourhood is flat in a channel keeps its
    value in that channel. *)
Lemma sharpened_flat (Msqrt : Q -> Q) (img : DOM.ImageData) (intensity : Q)
    (method : Sharpening.Method) (x y c v : Z) :
  (Msqrt 0 == 0)%Q -> 0 <= v <= 255 ->
  (forall kx ky, -1 <= kx <= 1 -> -1 <= ky <= 1 ->
                 sample img (x + kx) (y + ky) c = v) ->
  sharpened Msqrt img intensity method x y c = v.
Proof.
  intros Hsqrt Hv Hflat.
  assert (sample img x y c = v) as Ho.
  { rewrite <- (Hflat 0 0) by lia. by rewrite !Z.add_0_r. }
  assert (forall kernel, length kernel = 9%nat ->
            weighted img kernel x y c = v * foldr Z.add 0 kernel) as Hsum.
  { intros kernel Hlen.
    do 10 (destruct kernel as [| ? kernel]; try discriminate).
    unfold weighted. simpl. rewrite !Hflat by lia. lia. }
  unfold sharpened. rewrite Ho.
  destruct method; rewrite ?Hsum by done;
    change (foldr Z.add 0 Sharpening.gaussianKernel) with 16;
    change (foldr Z.add 0 Sharpening.laplacianKernel) with 1;
    change (foldr Z.add 0 Sharpening.sobelX) with 0;
    change (foldr Z.add 0 Sharpening.sobelY) with 0.
  - assert (ToUint8Clamp (inject_Z (v * 16) / 16) = v) as ->.
    { rewrite <- (ToUint8Clamp_byte v Hv) at 2. apply ToUint8Clamp_comp.
      rewrite inject_Z_mult. change (inject_Z 16) with 16%Q. field. }
    apply (store_clamp255_byte _ v Hv). ring.
  - apply (store_clamp255_byte _ v Hv).
    replace (v * 1) with v by lia. ring.
  - replace (v * 0 * (v * 0) + v * 0 * (v * 0)) with 0 by lia.
    apply (store_clamp255_byte _ v Hv).
    change (inject_Z 0) with 0%Q. rewrite Hsqrt. ring.
Qed.

(** X10: where the image is flat, sharpening changes nothing: for every
    method and every intensity, an interior pixel whose eight neighbours
    have its value in a channel keeps that value. *)
Theorem sharpenImage_flat_region (Msqrt : Q -> Q) (img : DOM.ImageData)
    (intensity : Q) (method : Sharpening.Method) (x y c : Z) :
  (Msqrt 0 == 0)%Q ->
  DOM.wf_image img = true ->
  1 <= x < DOM.width img - 1 -> 1 <= y < DOM.height img - 1 -> 0 <= c < 3 ->
  (forall kx ky, -1 <= kx <= 1 -> -1 <= ky <= 1 ->
                 sample img (x + kx) (y + ky) c = sample img x y c) ->
  aget (DOM.data (Sharpening.sharpenImage Msqrt img intensity method))
       (offsetOf img x y c)
  = aget (DOM.data img) (offsetOf img x y c).
Proof.
  intros Hsqrt Hwf Hx Hy Hc Hflat.
  destruct (sample_defined img Hwf x y c) as [Ho Hb]; [lia .. |].
  rewrite sharpenImage_lookup by done. unfold offsetOf. rewrite Ho. f_equal.
  by apply sharpened_flat.
Qed.

Lemma sharpenImage_flat_region_witness :
  aget (DOM.data (Sharpening.sharpenImage Samples.sqrtUp Samples.textured (3 # 2)
                    Sharpening.edge_enhance))
       (offsetOf Samples.textured 1 1 2)
  = aget (DOM.data Samples.textured) (offsetOf Samples.textured 1 1 2).
Proof.
  apply (sharpenImage_flat_region Samples.sqrtUp Samples.textured (3 # 2)
           Sharpening.edge_enhance 1 1 2).
  - exact sqrtUp_zero.
  - reflexivity.
  - simpl. lia.
  - simpl. lia.
  - lia.
  - intros kx ky Hkx Hky.
    assert (kx = -1 \/ kx = 0 \/ kx = 1) as Hkxs by lia.
    assert (ky = -1 \/ ky = 0 \/ ky = 1) as Hkys by lia.
    destruct_or!; subst kx ky; reflexivity.
Defined.

(** ** Sample images *)

Lemma solid_wf (r g b a w h : Z) :
  0 <= r <= 255 -> 0 <= g <= 255 -> 0 <= b <= 255 -> 0 <= a <= 255 ->
  0 < w -> 0 < h ->
  DOM.wf_image (Samples.solid r g b a w h) = true.
Proof.
  intros Hr Hg Hb Ha Hw Hh. unfold Samples.solid.
  assert (forall l : list Z,
            length (flat_map (fun _ : Z => [r; g; b; a]) l) = (4 * length l)%nat)
    as Hlen.
  { induction l as [| ? l IH]; [done |]. cbn [flat_map length app]. lia. }
  apply wf_image_intro; [done | done | |].
  - rewrite Hlen, length_seqZ. nia.
  - intros i v Hv. unfold aget in Hv. destruct (i <? 0); [done |].
    apply list_elem_of_lookup_2, list_elem_of_In, in_flat_map in Hv
      as (_ & _ & Hin).
    destruct Hin as [<- | [<- | [<- | [<- | []]]]]; lia.
Qed.

(** ** The cropper: the bounding box of any mask *)

Section BoundingBox.

Import AutoCrop.

Variable segmentation : list Z.
Variables width height : Z.

Let fg : Z -> Z -> Prop := foreground segmentation width height.

(** The invariant of the scan: nothing found yet, or the four sides
    found so far each touch a fg pixel. *)
Let boxed (e : Extent) : Prop :=
  e = mkExtent width 0 height 0 0
  \/ (0 < subjectPixelCount e
      /\ 0 <= minX e <= maxX e /\ maxX e < width
      /\ 0 <= minY e <= maxY e /\ maxY e < height
      /\ (exists y, fg (minX e) y) /\ (exists y, fg (maxX e) y)
      /\ (exists x, fg x (minY e)) /\ (exists x, fg x (maxY e))).

Lemma subjectStep_cases (y x : Z) (e : Extent) :
  (aget segmentation (y * width + x) = Some 1
   /\ subjectStep segmentation width y x e
      = mkExtent (Z.min (minX e) x) (Z.max (maxX e) x)
                 (Z.min (minY e) y) (Z.max (maxY e) y) (subjectPixelCount e + 1))
  \/ (aget segmentation (y * width + x) <> Some 1
      /\ subjectStep segmentation width y x e = e).
Proof.
  unfold subjectStep.
  destruct (aget segmentation (y * width + x)) as [[| [| |] |] |];
    (by left) || (by right).
Qed.

Lemma subjectStep_boxed (y x : Z) (e : Extent) :
  0 <= y < height -> 0 <= x < width -> boxed e ->
  boxed (subjectStep segmentation width y x e).
Proof.
  intros Hy Hx He.
  destruct (subjectStep_cases y x e) as [[Hfg ->] | [_ ->]]; [| done].
  assert (fg x y) as Hxy by (by unfold fg, foreground).
  right. destruct He as [-> | (Hc & HX & HXw & HY & HYh & Hl & Hr & Ht & Hb)]; simpl.
  - replace (Z.min width x) with x by lia. replace (Z.max 0 x) with x by lia.
    replace (Z.min height y) with y by lia. replace (Z.max 0 y) with y by lia.
    split_and!; try lia; by eexists.
  - split_and!; try lia.
    + destruct (Z.min_spec (minX e) x) as [[_ ->] | [_ ->]]; [done | by eexists].
    + destruct (Z.max_spec (maxX e) x) as [[_ ->] | [_ ->]]; [by eexists | done].
    + destruct (Z.min_spec (minY e) y) as [[_ ->] | [_ ->]]; [done | by eexists].
    + destruct (Z.max_spec (maxY e) y) as [[_ ->] | [_ ->]]; [by eexists | done].
Qed.

Lemma scanSubject_boxed : boxed (scanSubject segmentation width height).
Proof.
  apply scanSubject_invariant; [by left |].
  intros y x e Hy Hx He. by apply subjectStep_boxed.
Qed.

(** Every fg pixel of the grid lies between the four sides. *)
Lemma scanSubject_covers (x y : Z) :
  fg x y ->
  let e := scanSubject segmentation width height in
  0 < subjectPixelCount e
  /\ minX e <= x <= maxX e /\ minY e <= y <= maxY e.
Proof.
  intros (Hx & Hy & Hfg).
  apply (scanSubject_established segmentation width height
           (fun e => 0 <= subjectPixelCount e)
           (fun e => 0 < subjectPixelCount e
                     /\ minX e <= x <= maxX e /\ minY e <= y <= maxY e)
           y x); try done.
  - intros y' x' e _ _ He.
    pose proof (subjectStep_monotone segmentation width y' x' e). simpl in *. lia.
  - intros e He.
    destruct (subjectStep_cases y x e) as [[_ ->] | [Hne _]]; [| done].
    simpl. lia.
  - intros y' x' e _ _ _ He.
    pose proof (subjectStep_monotone segmentation width y' x' e). simpl in *. lia.
Qed.

Lemma findSubjectBounds_box :
  (findSubjectBounds segmentation width height = None
   <-> forall x y, ~ fg x y)
  /\ forall b, findSubjectBounds segmentation width height = Some b ->
       exists x0 y0 w h,
         b = rect x0 y0 w h
         /\ 0 <= x0 /\ 0 <= y0 /\ 1 <= w /\ 1 <= h
         /\ x0 + w <= width /\ y0 + h <= height
         /\ (forall x y, fg x y ->
                         x0 <= x < x0 + w /\ y0 <= y < y0 + h)
         /\ (exists y, fg x0 y) /\ (exists y, fg (x0 + w - 1) y)
         /\ (exists x, fg x y0) /\ (exists x, fg x (y0 + h - 1)).
Proof.
  unfold findSubjectBounds.
  pose proof scanSubject_boxed as Hbox.
  pose proof scanSubject_covers as Hcover.
  set (e := scanSubject segmentation width height) in *.
  split; [split |].
  - intros Hnone x y Hfg. destruct (Hcover x y Hfg) as (Hc & _).
    destruct (Z.eqb_spec (subjectPixelCount e) 0); [lia | done].
  - intros Hempty.
    destruct Hbox as [-> | (Hc & _ & _ & _ & _ & [y Hl] & _)]; [done |].
    by destruct (Hempty _ _ Hl).
  - intros b Hb.
    destruct (Z.eqb_spec (subjectPixelCount e) 0) as [| Hne]; [done |].
    injection Hb as <-.
    destruct Hbox as [He | (Hc & HX & HXw & HY & HYh & Hl & Hr & Ht & Hbt)].
    { rewrite He in Hne. done. }
    exists (minX e), (minY e), (maxX e - minX e + 1), (maxY e - minY e + 1).
    replace (minX e + (maxX e - minX e + 1) - 1) with (maxX e) by lia.
    replace (minY e + (maxY e - minY e + 1) - 1) with (maxY e) by lia.
    split_and!; try done; try lia.
    intros x y Hfg. destruct (Hcover x y Hfg) as (_ & ? & ?). lia.
Qed.

End BoundingBox.

(** X11: for every mask, [findSubjectBounds] returns [null] exactly when
    no pixel of the grid is labelled 1, and otherwise the bounding box of
    the labelled pixels: an integral rectangle inside the image that
    contains every labelled pixel and has one on each of its four sides. *)
Theorem findSubjectBounds_bounding_box (segmentation : list Z) (width height : Z) :
  (AutoCrop.findSubjectBounds segmentation width height = None
   <-> forall x y, ~ foreground segmentation width height x y)
  /\ forall b, AutoCrop.findSubjectBounds segmentation width height = Some b ->
       exists x0 y0 w h,
         b = AutoCrop.rect x0 y0 w h
         /\ 0 <= x0 /\ 0 <= y0 /\ 1 <= w /\ 1 <= h
         /\ x0 + w <= width /\ y0 + h <= height
         /\ (forall x y, foreground segmentation width height x y ->
                         x0 <= x < x0 + w /\ y0 <= y < y0 + h)
         /\ (exists y, foreground segmentation width height x0 y)
         /\ (exists y, foreground segmentation width height (x0 + w - 1) y)
         /\ (exists x, foreground segmentation width height x y0)
         /\ (exists x, foreground segmentation width height x (y0 + h - 1)).
Proof. apply findSubjectBounds_box. Qed.

(** ** The cropper: equal rectangles, and the centre crop *)

Lemma Qtrunc_comp (q q' : Q) : (q == q')%Q -> Qtrunc q = Qtrunc q'.
Proof.
  intros Heq. unfold Qtrunc.
  assert (Qle_bool 0 q = Qle_bool 0 q') as <- by (by rewrite Heq).
  destruct (Qle_bool 0 q); [apply Qfloor_comp, Heq |].
  f_equal. apply Qfloor_comp. by rewrite Heq.
Qed.

Lemma isInt_comp (q q' : Q) : (q == q')%Q -> isInt q = isInt q'.
Proof.
  intros Heq. unfold isInt. rewrite <- (Qfloor_comp _ _ Heq).
  generalize (Qfloor q). intros f. by rewrite Heq.
Qed.

Lemma agetQ_comp (a : list Z) (q q' : Q) : (q == q')%Q -> agetQ a q = agetQ a q'.
Proof.
  intros Heq. unfold agetQ. by rewrite (isInt_comp _ _ Heq), (Qfloor_comp _ _ Heq).
Qed.

Lemma asetQ_comp (a : list Z) (q q' : Q) (v : Z) :
  (q == q')%Q -> asetQ a q v = asetQ a q' v.
Proof.
  intros Heq. unfold asetQ. by rewrite (isInt_comp _ _ Heq), (Qfloor_comp _ _ Heq).
Qed.

Lemma newImageData_comp (d : list Z) (w w' h h' : Q) :
  (w == w')%Q -> (h == h')%Q -> DOM.newImageData d w h = DOM.newImageData d w' h'.
Proof.
  intros Hw Hh. unfold DOM.newImageData, ToUint32.
  by rewrite (Qtrunc_comp _ _ Hw), (Qtrunc_comp _ _ Hh).
Qed.

(** [cropImageData] sees the numbers of a rectangle, not the way they
    are written. *)
Lemma cropImageData_comp (img : DOM.ImageData) (b b' : AutoCrop.CropBounds) :
  boundsEq b b' -> AutoCrop.cropImageData img b = AutoCrop.cropImageData img b'.
Proof.
  destruct b as [x y w h], b' as [x' y' w' h'].
  intros (Hx & Hy & Hw & Hh). simpl in *. unfold AutoCrop.cropImageData.
  assert (newUint8ClampedArray (w * h * 4) = newUint8ClampedArray (w' * h' * 4)) as <-.
  { unfold newUint8ClampedArray. rewrite (Qtrunc_comp _ (w' * h' * 4)); [done |].
    by rewrite Hw, Hh. }
  destruct (newUint8ClampedArray (w * h * 4)) as [croppedData | e]; [| done].
  rewrite <- (Qceiling_comp _ _ Hw), <- (Qceiling_comp _ _ Hh).
  rewrite (newImageData_comp _ w w' h h') by done. f_equal.
  apply foldl_ext_in. intros a cropY _.
  apply foldl_ext_in. intros a1 cropX _.
  unfold AutoCrop.copyPixel.
  apply foldl_ext_in. intros a2 c _.
  rewrite (asetQ_comp _ _ ((inject_Z cropY * w' + inject_Z cropX) * 4 + inject_Z c))
    by (by rewrite Hw).
  rewrite (agetQ_comp _ _ (((y' + inject_Z cropY) * inject_Z (DOM.width img)
                            + (x' + inject_Z cropX)) * 4 + inject_Z c));
    [done |].
  by rewrite Hx, Hy.
Qed.

(** The length of the buffer that [cropImageData] hands to the
    [ImageData] constructor. *)
Lemma cropImageData_throws (img : DOM.ImageData) (b : AutoCrop.CropBounds)
    (len sw sh : Z) :
  Qtrunc (AutoCrop.width b * AutoCrop.height b * 4) = len -> 0 <= len ->
  ToUint32 (AutoCrop.width b) = sw -> ToUint32 (AutoCrop.height b) = sh ->
  len <> 4 * sw * sh ->
  exists e, AutoCrop.cropImageData img b = Throw e.
Proof.
  destruct b as [x y w h]. simpl. intros Hlen Hpos Hsw Hsh Hne.
  unfold AutoCrop.cropImageData, newUint8ClampedArray. rewrite Hlen.
  destruct (Z.ltb_spec len 0); [lia |].
  match goal with
  | |- exists e, DOM.newImageData ?cd _ _ = _ =>
      assert (Z.of_nat (length cd) = len) as Hcd
  end.
  { match goal with
    | |- Z.of_nat (length (foldl ?f ?a ?l)) = _ =>
        assert (length (foldl f a l) = length a) as ->
    end.
    - apply (foldl_invariant (fun a => length a = length (zeros len))); [done |].
      intros a cropY _ Ha.
      apply (foldl_invariant (fun a => length a = length (zeros len))); [done |].
      intros a1 cropX _ Ha1. unfold AutoCrop.copyPixel.
      apply (foldl_invariant (fun a => length a = length (zeros len))); [done |].
      intros a2 c _ Ha2. by rewrite length_asetQ.
    - unfold zeros. rewrite length_replicate. lia. }
  unfold DOM.newImageData. rewrite Hcd, Hsw, Hsh.
  destruct ((len =? 0) || negb (len `mod` 4 =? 0)) eqn:E1; [by eexists |].
  destruct ((sw =? 0) || negb ((len `div` 4) `mod` sw =? 0)) eqn:E2; [by eexists |].
  destruct (negb ((len `div` 4) `div` sw =? sh)) eqn:E3; [by eexists |].
  exfalso. apply Hne.
  apply orb_false_iff in E1 as [_ E1]. apply negb_false_iff, Z.eqb_eq in E1.
  apply orb_false_iff in E2 as [E0 E2]. apply negb_false_iff, Z.eqb_eq in E2.
  apply Z.eqb_neq in E0. apply negb_false_iff, Z.eqb_eq in E3.
  pose proof (Z.div_mod len 4 ltac:(lia)) as H4.
  pose proof (Z.div_mod (len `div` 4) sw E0) as Hs.
  rewrite E1 in H4. rewrite E2, E3 in Hs. lia.
Qed.

Section CentreCrop.

Variable img : DOM.ImageData.
Hypothesis img_wf : DOM.wf_image img = true.
Hypothesis img_size : DOM.width img * DOM.height img * 4 < 2 ^ 32.

Let m : Z := Z.min (DOM.width img) (DOM.height img).
Let cropSize : Q := (inject_Z m * (8 # 10))%Q.

Lemma centre_side_pos : 0 < m <= DOM.width img /\ m <= DOM.height img.
Proof. apply wf_image_spec in img_wf as (Hw & Hh & _). unfold m. lia. Qed.

Lemma centre_side_small : m * m * 4 < 2 ^ 32.
Proof. pose proof centre_side_pos. change (2 ^ 32) with 4294967296 in *. nia. Qed.

Lemma centre_buffer_length :
  Qtrunc (cropSize * cropSize * 4) = (64 * m * m) `div` 25.
Proof.
  pose proof centre_side_pos as [Hm _].
  assert (cropSize * cropSize * 4 == inject_Z (64 * m * m) / inject_Z 25)%Q as Heq.
  { unfold cropSize. rewrite !inject_Z_mult.
    change (inject_Z 64) with 64%Q. change (inject_Z 25) with 25%Q. field. }
  rewrite (Qtrunc_comp _ _ Heq). unfold Qtrunc.
  assert (Qle_bool 0 (inject_Z (64 * m * m) / inject_Z 25) = true) as ->.
  { apply Qle_bool_iff. apply Qle_shift_div_l; [reflexivity |].
    rewrite Qmult_0_l. change 0%Q with (inject_Z 0). rewrite <- Zle_Qle. nia. }
  symmetry. apply Zdiv_Qdiv.
Qed.

Lemma centre_side_uint32 : ToUint32 cropSize = (4 * m) `div` 5.
Proof.
  pose proof centre_side_pos as [Hm _]. pose proof centre_side_small as Hsmall.
  assert (cropSize == inject_Z (4 * m) / inject_Z 5)%Q as Heq.
  { unfold cropSize. rewrite inject_Z_mult.
    change (inject_Z 4) with 4%Q. change (inject_Z 5) with 5%Q. field. }
  unfold ToUint32. rewrite (Qtrunc_comp _ _ Heq). unfold Qtrunc.
  assert (Qle_bool 0 (inject_Z (4 * m) / inject_Z 5) = true) as ->.
  { apply Qle_bool_iff. apply Qle_shift_div_l; [reflexivity |].
    rewrite Qmult_0_l. change 0%Q with (inject_Z 0). rewrite <- Zle_Qle. lia. }
  rewrite <- Zdiv_Qdiv. change (2 ^ 32) with 4294967296 in *.
  apply Z.mod_small. split; [apply Z.div_pos; lia |].
  apply Z.div_lt_upper_bound; nia.
Qed.

(** A side that is not a whole number of pixels leaves a buffer that is
    not [4 * side * side] bytes long. *)
Lemma centre_buffer_mismatch :
  ~ (5 | m) ->
  (64 * m * m) `div` 25 <> 4 * ((4 * m) `div` 5) * ((4 * m) `div` 5).
Proof.
  intros Hndiv Heq. pose proof centre_side_pos as [Hm _].
  pose proof (Z.div_mod (4 * m) 5 ltac:(lia)) as Hst.
  pose proof (Z.mod_pos_bound (4 * m) 5 ltac:(lia)) as Ht.
  pose proof (Z.div_pos (4 * m) 5 ltac:(lia) ltac:(lia)) as Hs.
  pose proof (Z.div_mod (64 * m * m) 25 ltac:(lia)) as Hd.
  pose proof (Z.mod_pos_bound (64 * m * m) 25 ltac:(lia)) as Hr.
  rewrite Heq in Hd. clear Heq.
  revert Hst Ht Hs Hd Hr.
  generalize ((4 * m) `div` 5) ((4 * m) `mod` 5) ((64 * m * m) `mod` 25).
  intros s t r Hst Ht Hs Hd Hr.
  assert (t <> 0) as Ht0.
  { intros Hz. apply Hndiv. exists (m - s). lia. }
  assert (64 * m * m = 100 * (s * s) + 40 * (s * t) + 4 * (t * t)) as Hsq.
  { replace (64 * m * m) with (4 * ((4 * m) * (4 * m))) by ring. rewrite Hst. ring. }
  replace (4 * s * s) with (4 * (s * s)) in Hd by ring.
  rewrite Hsq in Hd. clear Hsq. revert Hd. generalize (s * s). intros u Hd.
  assert (t = 1 \/ t = 2 \/ t = 3 \/ t = 4) as Hcases by lia.
  destruct_or!; subst t; lia.
Qed.

Lemma centerCropImage_rejected :
  ~ (5 | m) -> exists e, AutoCrop.centerCropImage img (8 # 10) = AutoCrop.Rejected e.
Proof.
  intros Hndiv. unfold AutoCrop.centerCropImage. fold m. fold cropSize.
  match goal with
  | |- context [AutoCrop.cropImageData img ?b] =>
      destruct (cropImageData_throws img b ((64 * m * m) `div` 25)
                  ((4 * m) `div` 5) ((4 * m) `div` 5)) as [e ->]
  end.
  - apply centre_buffer_length.
  - apply Z.div_pos; nia.
  - apply centre_side_uint32.
  - apply centre_side_uint32.
  - by apply centre_buffer_mismatch.
  - by exists e.
Qed.

Lemma centerCropImage_resolved (k : Z) :
  m = 5 * k ->
  let x := Math_round ((inject_Z (DOM.width img) - cropSize) / 2) in
  let y := Math_round ((inject_Z (DOM.height img) - cropSize) / 2) in
  exists r,
    AutoCrop.centerCropImage img (8 # 10) = AutoCrop.Resolved r
    /\ boundsEq (AutoCrop.cropBounds r) (AutoCrop.rect x y (4 * k) (4 * k))
    /\ AutoCrop.cropImageData img (AutoCrop.rect x y (4 * k) (4 * k))
       = Ok (AutoCrop.croppedImageData r)
    /\ AutoCrop.inBounds img x y (4 * k) (4 * k) = true
    /\ AutoCrop.subjectDetected r = false.
Proof.
  intros Hk x y. pose proof centre_side_pos as [[Hm HmW] HmH].
  pose proof centre_side_small as Hsmall.
  assert (cropSize == inject_Z (4 * k))%Q as Hside.
  { unfold cropSize. rewrite Hk, !inject_Z_mult.
    change (inject_Z 5) with 5%Q. change (inject_Z 4) with 4%Q. field. }
  unfold AutoCrop.centerCropImage. fold m. fold cropSize. fold x y.
  assert (boundsEq (AutoCrop.mkCropBounds (inject_Z x) (inject_Z y) cropSize cropSize)
                   (AutoCrop.rect x y (4 * k) (4 * k))) as Hb.
  { unfold boundsEq, AutoCrop.rect. simpl. by split_and!. }
  rewrite (cropImageData_comp _ _ _ Hb).
  change (2 ^ 32) with 4294967296 in *.
  rewrite cropImageData_integral; [| lia | lia | change (2 ^ 32) with 4294967296; nia].
  eexists. split; [reflexivity |]. simpl. split_and!; try done.
  assert (forall L, m <= L ->
            0 <= Math_round ((inject_Z L - cropSize) / 2)
            /\ Math_round ((inject_Z L - cropSize) / 2) + 4 * k <= L) as Hin.
  { intros L HL.
    pose proof (Math_round_bounds ((inject_Z L - cropSize) / 2)) as [Hlo Hhi].
    set (r := Math_round ((inject_Z L - cropSize) / 2)) in *.
    assert (inject_Z (L - 4 * k) >= inject_Z 1)%Q as Hgap by (rewrite <- Zle_Qle; lia).
    unfold Z.sub in Hgap. rewrite inject_Z_plus, inject_Z_opp in Hgap.
    change (inject_Z 1) with 1%Q in Hgap.
    assert (inject_Z (-1) < inject_Z r)%Q as H1
      by (change (inject_Z (-1)) with (-1)%Q; rewrite Hside in *; qlra).
    assert (inject_Z r + inject_Z (4 * k) < inject_Z L + inject_Z 1)%Q as H2
      by (change (inject_Z 1) with 1%Q; rewrite Hside in *; qlra).
    rewrite <- !inject_Z_plus in H2. rewrite <- Zlt_Qlt in H1, H2. lia. }
  destruct (Hin _ HmW) as [Hx0 Hx1]. destruct (Hin _ HmH) as [Hy0 Hy1].
  fold x in Hx0, Hx1. fold y in Hy0, Hy1.
  unfold AutoCrop.inBounds. rewrite !andb_true_iff. split_and!; apply Z.leb_le; lia.
Qed.

End CentreCrop.

(** X12: the centre crop at 80% (the fallback of [handleAutoCrop]) takes
    a square of side [0.8 * min(width, height)] without rounding it.  When
    the smaller dimension is a multiple of 5 the promise resolves with the
    crop of an integral square that lies inside the image; for every other
    size the buffer is not [4 * side * side] bytes long, the [ImageData]
    constructor throws and the promise is rejected. *)
Theorem centerCropImage_fifths (img : DOM.ImageData) :
  DOM.wf_image img = true ->
  DOM.width img * DOM.height img * 4 < 2 ^ 32 ->
  let m := Z.min (DOM.width img) (DOM.height img) in
  (forall k, m = 5 * k ->
     exists r x y,
       AutoCrop.centerCropImage img (8 # 10) = AutoCrop.Resolved r
       /\ boundsEq (AutoCrop.cropBounds r) (AutoCrop.rect x y (4 * k) (4 * k))
       /\ AutoCrop.cropImageData img (AutoCrop.rect x y (4 * k) (4 * k))
          = Ok (AutoCrop.croppedImageData r)
       /\ AutoCrop.inBounds img x y (4 * k) (4 * k) = true
       /\ AutoCrop.subjectDetected r = false)
  /\ (~ (5 | m) ->
      exists e, AutoCrop.centerCropImage img (8 # 10) = AutoCrop.Rejected e).
Proof.
  intros Hwf Hsize m. split.
  - intros k Hk.
    destruct (centerCropImage_resolved img Hwf Hsize k Hk) as (r & Hr).
    exists r. eauto.
  - by apply centerCropImage_rejected.
Qed.

Lemma centerCropImage_fifths_witness :
  let img := Samples.solid 10 200 30 255 5 6 in
  let m := Z.min (DOM.width img) (DOM.height img) in
  (forall k, m = 5 * k ->
     exists r x y,
       AutoCrop.centerCropImage img (8 # 10) = AutoCrop.Resolved r
       /\ boundsEq (AutoCrop.cropBounds r) (AutoCrop.rect x y (4 * k) (4 * k))
       /\ AutoCrop.cropImageData img (AutoCrop.rect x y (4 * k) (4 * k))
          = Ok (AutoCrop.croppedImageData r)
       /\ AutoCrop.inBounds img x y (4 * k) (4 * k) = true
       /\ AutoCrop.subjectDetected r = false)
  /\ (~ (5 | m) ->
      exists e, AutoCrop.centerCropImage img (8 # 10) = AutoCrop.Rejected e).
Proof.
  apply (centerCropImage_fifths (Samples.solid 10 200 30 255 5 6)); reflexivity.
Defined.

(** ** The cropper: a subject gives a crop *)

Lemma integralQ_inject (z : Z) : integralQ (inject_Z z).
Proof. by exists z. Qed.

Lemma integralQ_add (q q' : Q) : integralQ q -> integralQ q' -> integralQ (q + q').
Proof.
  intros [z Hz] [z' Hz']. exists (z + z'). by rewrite Hz, Hz', inject_Z_plus.
Qed.

Lemma integralQ_minus (q q' : Q) : integralQ q -> integralQ q' -> integralQ (q - q').
Proof.
  intros [z Hz] [z' Hz']. exists (z - z'). rewrite Hz, Hz'.
  unfold Z.sub. by rewrite inject_Z_plus, inject_Z_opp.
Qed.

Lemma integralQ_min (q q' : Q) : integralQ q -> integralQ q' -> integralQ (Qmin q q').
Proof.
  intros [z Hz] [z' Hz']. destruct (Q.min_spec q q') as [[_ Hm] | [_ Hm]].
  - exists z. by rewrite Hm.
  - exists z'. by rewrite Hm.
Qed.

(** An integer above [0] is at least [1]. *)
Lemma integralQ_positive (q : Q) : integralQ q -> (0 < q)%Q -> (1 <= q)%Q.
Proof.
  intros [z Hz] Hq. rewrite Hz in *. change 0%Q with (inject_Z 0) in Hq.
  change 1%Q with (inject_Z 1). rewrite <- Zlt_Qlt in Hq. rewrite <- Zle_Qle. lia.
Qed.

Lemma integralQ_double (z : Z) : integralQ (2 * inject_Z z).
Proof. exists (2 * z). by rewrite inject_Z_mult. Qed.

(** Rounding a number that is at least an integer does not go below it. *)
Lemma Math_round_above (q lo : Q) :
  integralQ lo -> (lo <= q)%Q -> (lo <= inject_Z (Math_round q))%Q.
Proof.
  intros [z Hz] Hq. pose proof (Math_round_bounds q) as [Hlo _].
  rewrite Hz in *.
  assert (inject_Z (z - 1) < inject_Z (Math_round q))%Q as Hlt.
  { replace (z - 1) with (z + -1) by lia. rewrite inject_Z_plus.
    change (inject_Z (-1)) with (-1)%Q. lra. }
  rewrite <- Zlt_Qlt in Hlt. rewrite <- Zle_Qle. lia.
Qed.

(** Moving the corner back by a rounded, non-negative amount. *)
Lemma corner_back (x q limit : Q) :
  integralQ x -> (0 <= x)%Q -> (x + 1 <= limit)%Q -> (0 <= q)%Q ->
  let x' := Qmax 0 (x - inject_Z (Math_round q)) in
  integralQ x' /\ (0 <= x' /\ x' <= x /\ x' + 1 <= limit)%Q.
Proof.
  intros Hi Hx Hlim Hq x'.
  destruct (Math_round_nonneg q Hq) as [Hk _].
  split; [by apply integralQ_max0, integralQ_sub |].
  unfold x'. destruct (Q.max_spec 0 (x - inject_Z (Math_round q)))
    as [[? ->] | [? ->]]; lra.
Qed.

Lemma ensureMinimumSize_anchored (W H : Z) (b : AutoCrop.CropBounds) (m : Q) :
  anchored W H b -> anchored W H (AutoCrop.ensureMinimumSize b m).
Proof.
  intros Hb. pose proof Hb as ((Hix & Hiy & Hiw & Hih) & [Hx HxW] & [Hy HyH] & Hw & Hh).
  unfold AutoCrop.ensureMinimumSize.
  destruct (_ || _) eqn:Hsmall; [| done].
  set (scale := Qmax (m / AutoCrop.width b) (m / AutoCrop.height b)).
  assert (1 <= scale)%Q as Hscale.
  { apply orb_true_iff in Hsmall as [Hs | Hs].
    - destruct (Qlt_le_dec (AutoCrop.width b) m) as [Hlt |]; [| done].
      eapply Qle_trans; [| apply Q.le_max_l].
      apply Qle_shift_div_l; lra.
    - destruct (Qlt_le_dec (AutoCrop.height b) m) as [Hlt |]; [| done].
      eapply Qle_trans; [| apply Q.le_max_r].
      apply Qle_shift_div_l; lra. }
  assert (AutoCrop.width b <= AutoCrop.width b * scale)%Q as Hws by nra.
  assert (AutoCrop.height b <= AutoCrop.height b * scale)%Q as Hhs by nra.
  pose proof (Math_round_above _ _ Hiw Hws) as Hnw.
  pose proof (Math_round_above _ _ Hih Hhs) as Hnh.
  set (newWidth := inject_Z (Math_round (AutoCrop.width b * scale))) in *.
  set (newHeight := inject_Z (Math_round (AutoCrop.height b * scale))) in *.
  destruct (corner_back (AutoCrop.x b) ((newWidth - AutoCrop.width b) / 2)
              (inject_Z W)) as (? & ? & ? & ?); [done | done | done | qlra |].
  destruct (corner_back (AutoCrop.y b) ((newHeight - AutoCrop.height b) / 2)
              (inject_Z H)) as (? & ? & ? & ?); [done | done | done | qlra |].
  unfold anchored. simpl.
  split_and!; try done; try lra; apply integralQ_inject.
Qed.

Lemma applyCropPadding_positive (W H : Z) (b : AutoCrop.CropBounds) (p : Q) :
  (0 <= p)%Q -> anchored W H b ->
  let b' := AutoCrop.applyCropPadding b W H p in
  integralQ (AutoCrop.width b') /\ integralQ (AutoCrop.height b')
  /\ (1 <= AutoCrop.width b')%Q /\ (1 <= AutoCrop.height b')%Q.
Proof.
  intros Hp ((Hix & Hiy & Hiw & Hih) & [Hx HxW] & [Hy HyH] & Hw & Hh).
  unfold AutoCrop.applyCropPadding. simpl.
  destruct (corner_back (AutoCrop.x b) (AutoCrop.width b * p) (inject_Z W))
    as (Hipx & Hpx0 & Hpx & HpxW); [done | done | done | nra |].
  destruct (corner_back (AutoCrop.y b) (AutoCrop.height b * p) (inject_Z H))
    as (Hipy & Hpy0 & Hpy & HpyH); [done | done | done | nra |].
  destruct (Math_round_nonneg (AutoCrop.width b * p)) as [HpadX _]; [nra |].
  destruct (Math_round_nonneg (AutoCrop.height b * p)) as [HpadY _]; [nra |].
  set (px := Qmax 0 (AutoCrop.x b - inject_Z (Math_round (AutoCrop.width b * p)))) in *.
  set (py := Qmax 0 (AutoCrop.y b - inject_Z (Math_round (AutoCrop.height b * p)))) in *.
  destruct (Qlt_le_dec (inject_Z W) _), (Qlt_le_dec (inject_Z H) _);
    split_and!; try lra;
    (apply integralQ_minus; [apply integralQ_inject | done])
    || (apply integralQ_add; [done | apply integralQ_double]).
Qed.

Lemma normalizeAspect_positive (b : AutoCrop.CropBounds) :
  integralQ (AutoCrop.width b) -> integralQ (AutoCrop.height b) ->
  (1 <= AutoCrop.width b)%Q -> (1 <= AutoCrop.height b)%Q ->
  let b' := AutoCrop.normalizeAspect b in
  integralQ (AutoCrop.width b') /\ integralQ (AutoCrop.height b')
  /\ (1 <= AutoCrop.width b')%Q /\ (1 <= AutoCrop.height b')%Q.
Proof.
  intros Hiw Hih Hw Hh. unfold AutoCrop.normalizeAspect.
  destruct (AutoCrop.aspectTooExtreme _ _); [| done]. simpl.
  split_and!; try (by apply integralQ_min); by apply Q.min_glb.
Qed.

(** The rectangle of a mask with a foreground pixel: whole pixels, inside
    the image, not empty. *)
Lemma findOptimalCropBounds_subject (segmentation : list Z) (W H : Z)
    (options : AutoCrop.AutoCropOptions) (x1 y1 : Z) :
  foreground segmentation W H x1 y1 ->
  (0 <= default (15 # 100) (AutoCrop.paddingPercentage options))%Q ->
  exists b x y w h,
    AutoCrop.findOptimalCropBounds segmentation W H options = Some b
    /\ boundsEq b (AutoCrop.rect x y w h)
    /\ 0 <= x /\ 0 <= y /\ 1 <= w /\ 1 <= h /\ x + w <= W /\ y + h <= H.
Proof.
  intros Hfg Hp.
  destruct (findSubjectBounds_box segmentation W H) as [Hnone Hsome].
  destruct (AutoCrop.findSubjectBounds segmentation W H) as [s |] eqn:Hs.
  2:{ by destruct (proj1 Hnone eq_refl x1 y1). }
  destruct (Hsome s eq_refl)
    as (x0 & y0 & w0 & h0 & -> & Hx0 & Hy0 & Hw0 & Hh0 & HxW & HyH & _).
  assert (anchored W H (AutoCrop.rect x0 y0 w0 h0)) as Hanchor.
  { unfold anchored, AutoCrop.rect. simpl.
    change 0%Q with (inject_Z 0). change 1%Q with (inject_Z 1).
    rewrite <- !inject_Z_plus, <- !Zle_Qle.
    split_and!; try apply integralQ_inject; lia. }
  set (m := default 100%Q (AutoCrop.minCropSize options)).
  set (p := default (15 # 100) (AutoCrop.paddingPercentage options)) in *.
  pose proof (ensureMinimumSize_anchored W H _ m Hanchor) as H1.
  pose proof H1 as ((Hix & Hiy & _) & _).
  pose proof (applyCropPadding_within _ W H p Hix Hiy) as H2.
  pose proof (applyCropPadding_positive W H _ p Hp H1) as (Hiw2 & Hih2 & Hw2 & Hh2).
  pose proof (normalizeAspect_within _ W H H2) as (Hx & Hy & Hxw & Hyh & [x Hxz] & [y Hyz]).
  pose proof (normalizeAspect_positive _ Hiw2 Hih2 Hw2 Hh2)
    as ([w Hwz] & [h Hhz] & Hw & Hh).
  eexists _, x, y, w, h. split.
  { unfold AutoCrop.findOptimalCropBounds. rewrite Hs. reflexivity. }
  fold m p. split; [by split_and! |].
  rewrite Hxz, Hyz, Hwz, Hhz in *.
  change 0%Q with (inject_Z 0) in *. change 1%Q with (inject_Z 1) in *.
  rewrite <- !inject_Z_plus in *. rewrite <- !Zle_Qle in *. done.
Qed.

Section SubjectCrop.

Variable segmentation : list Z.
Variable canvas : DOM.ImageData.
Variable options : AutoCrop.AutoCropOptions.
Hypothesis canvas_wf : DOM.wf_image canvas = true.
Hypothesis canvas_size : DOM.width canvas * DOM.height canvas * 4 < 2 ^ 32.

Lemma autoCropImage_resolved (x1 y1 : Z) :
  foreground segmentation (DOM.width canvas) (DOM.height canvas) x1 y1 ->
  (0 <= default (15 # 100) (AutoCrop.paddingPercentage options))%Q ->
  exists r x y w h,
    AutoCrop.autoCropImage segmentation canvas options = AutoCrop.Resolved r
    /\ boundsEq (AutoCrop.cropBounds r) (AutoCrop.rect x y w h)
    /\ AutoCrop.inBounds canvas x y w h = true /\ 1 <= w /\ 1 <= h
    /\ AutoCrop.cropImageData canvas (AutoCrop.rect x y w h)
       = Ok (AutoCrop.croppedImageData r)
    /\ DOM.width (AutoCrop.croppedImageData r) = w
    /\ DOM.height (AutoCrop.croppedImageData r) = h.
Proof.
  intros Hfg Hp.
  pose proof canvas_wf as (HW & HH & _)%wf_image_spec.
  set (p := default (15 # 100) (AutoCrop.paddingPercentage options)) in *.
  set (m := default 100%Q (AutoCrop.minCropSize options)).
  destruct (findOptimalCropBounds_subject segmentation (DOM.width canvas)
              (DOM.height canvas)
              (AutoCrop.mkAutoCropOptions (Some p) (Some m)) x1 y1 Hfg Hp)
    as (b & x & y & w & h & Hb & Heq & Hx & Hy & Hw & Hh & HxW & HyH).
  assert (AutoCrop.cropImageData canvas b
          = AutoCrop.cropImageData canvas (AutoCrop.rect x y w h)) as Hcrop
    by (by apply cropImageData_comp).
  assert (w * h * 4 < 2 ^ 32) as Hsize.
  { change (2 ^ 32) with 4294967296 in *. nia. }
  rewrite cropImageData_integral in Hcrop by lia.
  unfold AutoCrop.autoCropImage. fold p m. rewrite Hb, Hcrop.
  eexists _, x, y, w, h. split; [reflexivity |].
  cbn [AutoCrop.cropBounds AutoCrop.croppedImageData DOM.width DOM.height].
  split_and!; try done.
  - unfold AutoCrop.inBounds. rewrite !andb_true_iff.
    split_and!; apply Z.leb_le; lia.
  - by rewrite cropImageData_integral by lia.
Qed.

End SubjectCrop.

(** X13: when the mask labels a pixel of the image and the padding is not
    negative, [autoCropImage] resolves: its crop rectangle has whole-pixel
    fields, is not empty and lies inside the image, and the cropped image
    is the crop of the canvas at that rectangle, of its width and height. *)
Theorem autoCropImage_subject (segmentation : list Z) (canvas : DOM.ImageData)
    (options : AutoCrop.AutoCropOptions) (x1 y1 : Z) :
  DOM.wf_image canvas = true ->
  DOM.width canvas * DOM.height canvas * 4 < 2 ^ 32 ->
  foreground segmentation (DOM.width canvas) (DOM.height canvas) x1 y1 ->
  (0 <= default (15 # 100) (AutoCrop.paddingPercentage options))%Q ->
  exists r x y w h,
    AutoCrop.autoCropImage segmentation canvas options = AutoCrop.Resolved r
    /\ boundsEq (AutoCrop.cropBounds r) (AutoCrop.rect x y w h)
    /\ AutoCrop.inBounds canvas x y w h = true /\ 1 <= w /\ 1 <= h
    /\ AutoCrop.cropImageData canvas (AutoCrop.rect x y w h)
       = Ok (AutoCrop.croppedImageData r)
    /\ DOM.width (AutoCrop.croppedImageData r) = w
    /\ DOM.height (AutoCrop.croppedImageData r) = h.
Proof. intros Hwf Hsize. by apply autoCropImage_resolved. Qed.

Lemma autoCropImage_subject_witness :
  let canvas := Samples.solid 10 200 30 255 5 4 in
  exists r x y w h,
    AutoCrop.autoCropImage Samples.boxMask canvas
      (AutoCrop.mkAutoCropOptions (Some 0%Q) (Some 1%Q)) = AutoCrop.Resolved r
    /\ boundsEq (AutoCrop.cropBounds r) (AutoCrop.rect x y w h)
    /\ AutoCrop.inBounds canvas x y w h = true /\ 1 <= w /\ 1 <= h
    /\ AutoCrop.cropImageData canvas (AutoCrop.rect x y w h)
       = Ok (AutoCrop.croppedImageData r)
    /\ DOM.width (AutoCrop.croppedImageData r) = w
    /\ DOM.height (AutoCrop.croppedImageData r) = h.
Proof.
  apply (autoCropImage_subject Samples.boxMask (Samples.solid 10 200 30 255 5 4)
           (AutoCrop.mkAutoCropOptions (Some 0%Q) (Some 1%Q)) 1 1).
  - reflexivity.
  - reflexivity.
  - unfold foreground. cbn [DOM.width DOM.height Samples.solid].
    split_and!; (lia || reflexivity).
  - discriminate.
Defined.

(** X14: [handleAutoCrop] shows its alert only for an image without a
    labelled pixel whose smaller dimension is not a multiple of 5: with a
    labelled pixel it installs the subject crop, and when the subject crop
    is rejected and the smaller dimension is a multiple of 5 the centre
    crop. *)
Theorem handleAutoCrop_outcomes (segmentation : list Z) (image : DOM.ImageData) :
  DOM.wf_image image = true ->
  DOM.width image * DOM.height image * 4 < 2 ^ 32 ->
  (forall x1 y1,
     foreground segmentation (DOM.width image) (DOM.height image) x1 y1 ->
     exists r,
       Editor.handleAutoCrop segmentation image = Some r
       /\ AutoCrop.autoCropImage segmentation image
            (AutoCrop.mkAutoCropOptions (Some (15 # 100)) (Some 200%Q))
          = AutoCrop.Resolved r)
  /\ ((5 | Z.min (DOM.width image) (DOM.height image)) ->
      exists r, Editor.handleAutoCrop segmentation image = Some r)
  /\ (Editor.handleAutoCrop segmentation image = None ->
      (forall x y,
         ~ foreground segmentation (DOM.width image) (DOM.height image) x y)
      /\ ~ (5 | Z.min (DOM.width image) (DOM.height image))).
Proof.
  intros Hwf Hsize.
  assert (forall x1 y1,
            foreground segmentation (DOM.width image) (DOM.height image) x1 y1 ->
            exists r,
              Editor.handleAutoCrop segmentation image = Some r
              /\ AutoCrop.autoCropImage segmentation image
                   (AutoCrop.mkAutoCropOptions (Some (15 # 100)) (Some 200%Q))
                 = AutoCrop.Resolved r) as Hsubject.
  { intros x1 y1 Hfg.
    destruct (autoCropImage_resolved segmentation image
                (AutoCrop.mkAutoCropOptions (Some (15 # 100)) (Some 200%Q))
                Hwf Hsize x1 y1 Hfg) as (r & _ & _ & _ & _ & Hr & _); [done |].
    exists r. unfold Editor.handleAutoCrop. by rewrite Hr. }
  assert ((5 | Z.min (DOM.width image) (DOM.height image)) ->
          exists r, Editor.handleAutoCrop segmentation image = Some r) as Hfifth.
  { intros [k Hk].
    destruct (centerCropImage_resolved image Hwf Hsize k) as (r & Hr & _); [lia |].
    unfold Editor.handleAutoCrop. rewrite Hr.
    destruct (AutoCrop.autoCropImage _ _ _); by eexists. }
  split_and!; [done | done |].
  intros Hnone. split.
  - intros x y Hfg. destruct (Hsubject x y Hfg) as (r & Hr & _). congruence.
  - intros Hdiv. destruct (Hfifth Hdiv) as [r Hr]. congruence.
Qed.

Lemma handleAutoCrop_outcomes_witness :
  let image := Samples.solid 10 200 30 255 5 4 in
  (forall x1 y1,
     foreground Samples.boxMask (DOM.width image) (DOM.height image) x1 y1 ->
     exists r,
       Editor.handleAutoCrop Samples.boxMask image = Some r
       /\ AutoCrop.autoCropImage Samples.boxMask image
            (AutoCrop.mkAutoCropOptions (Some (15 # 100)) (Some 200%Q))
          = AutoCrop.Resolved r)
  /\ ((5 | Z.min (DOM.width image) (DOM.height image)) ->
      exists r, Editor.handleAutoCrop Samples.boxMask image = Some r)
  /\ (Editor.handleAutoCrop Samples.boxMask image = None ->
      (forall x y,
         ~ foreground Samples.boxMask (DOM.width image) (DOM.height image) x y)
      /\ ~ (5 | Z.min (DOM.width image) (DOM.height image))).
Proof.
  apply (handleAutoCrop_outcomes Samples.boxMask (Samples.solid 10 200 30 255 5 4));
    reflexivity.
Defined.

(** ** The cropper: an empty mask on a large image *)

Section EmptyMask.

(** The smaller side [m] of the image and a longer side [L]. *)
Variables m L : Z.
Hypothesis m_large : 250 <= m.
Hypothesis L_long : 26 * m + 50 <= 25 * L.

Let s : Q := (inject_Z m * (8 # 10))%Q.
Let D : Z := Math_round (s * (15 # 100)).

Lemma padding_bounds :
  ((12 # 100) * inject_Z m - (1 # 2) < inject_Z D
   /\ inject_Z D <= (12 # 100) * inject_Z m + (1 # 2))%Q
  /\ (250 <= inject_Z m)%Q
  /\ ((26 # 25) * inject_Z m + 2 <= inject_Z L)%Q.
Proof.
  pose proof (Math_round_bounds (s * (15 # 100))) as [Hlo Hhi]. fold D in Hlo, Hhi.
  unfold s in Hlo, Hhi.
  assert (250 <= inject_Z m)%Q as Hm.
  { change 250%Q with (inject_Z 250). by rewrite <- Zle_Qle. }
  assert (inject_Z (26 * m + 50) <= inject_Z (25 * L))%Q as HL
    by (by rewrite <- Zle_Qle).
  rewrite inject_Z_plus, !inject_Z_mult in HL.
  change (inject_Z 26) with 26%Q in HL. change (inject_Z 25) with 25%Q in HL.
  change (inject_Z 50) with 50%Q in HL.
  split_and!; lra.
Qed.

(** Along the short side the padded square starts at 0 and is cut to
    the image. *)
Lemma padded_short_side :
  let start := inject_Z (Math_round ((inject_Z m - s) / 2)) in
  let p := Qmax 0 (start - inject_Z D) in
  (p == 0)%Q /\ (inject_Z m < p + (s + 2 * inject_Z D))%Q.
Proof.
  intros start p. destruct padding_bounds as ([Hlo Hhi] & Hm & _).
  pose proof (Math_round_bounds ((inject_Z m - s) / 2)) as [_ Hstart].
  fold start in Hstart. unfold s in *.
  assert (p == 0)%Q as Hp by (unfold p; apply Q.max_l; qlra).
  split; [done |]. rewrite Hp. lra.
Qed.

(** Along the long side the padded square fits and keeps its side. *)
Lemma padded_long_side :
  let start := inject_Z (Math_round ((inject_Z L - s) / 2)) in
  let p := Qmax 0 (start - inject_Z D) in
  (p + (s + 2 * inject_Z D) <= inject_Z L)%Q.
Proof.
  intros start p. destruct padding_bounds as ([Hlo Hhi] & Hm & HL).
  pose proof (Math_round_bounds ((inject_Z L - s) / 2)) as [_ Hstart].
  fold start in Hstart. unfold s in *.
  unfold p. destruct (Q.max_spec 0 (start - inject_Z D)) as [[_ ->] | [_ ->]]; qlra.
Qed.

Lemma padded_side_moderate :
  AutoCrop.aspectTooExtreme (s + 2 * inject_Z D) (inject_Z m) = false
  /\ AutoCrop.aspectTooExtreme (inject_Z m) (s + 2 * inject_Z D) = false.
Proof.
  destruct padding_bounds as ([Hlo Hhi] & Hm & _). unfold s in *.
  set (M := inject_Z m) in *. set (d := inject_Z D) in *.
  assert (0 < M * (8 # 10) + 2 * d)%Q as Hside by lra.
  unfold AutoCrop.aspectTooExtreme. split.
  - destruct (Qeq_bool M 0) eqn:E; [apply Qeq_bool_iff in E; lra |].
    destruct (Qlt_le_dec 3 _) as [H3 |].
    { apply Qlt_not_le in H3. destruct H3. apply Qle_shift_div_r; lra. }
    destruct (Qlt_le_dec _ (33 # 100)) as [H3 |]; [| done].
    apply Qlt_not_le in H3. destruct H3. apply Qle_shift_div_l; lra.
  - destruct (Qeq_bool _ 0) eqn:E; [apply Qeq_bool_iff in E; lra |].
    destruct (Qlt_le_dec 3 _) as [H3 |].
    { apply Qlt_not_le in H3. destruct H3. apply Qle_shift_div_r; lra. }
    destruct (Qlt_le_dec _ (33 # 100)) as [H3 |]; [| done].
    apply Qlt_not_le in H3. destruct H3. apply Qle_shift_div_l; lra.
Qed.

End EmptyMask.

(** A rectangle with one side of [m] pixels and the other of
    [0.8 m + 2 D] is refused when [m] is not a multiple of 5: the other
    side is no whole number. *)
Lemma fractional_side_throws (img : DOM.ImageData) (b : AutoCrop.CropBounds)
    (m D L : Z) :
  1 <= m -> 0 <= D -> ~ (5 | m) ->
  4 * m + 10 * D <= 5 * L -> L * m * 4 < 2 ^ 32 ->
  let side := (inject_Z m * (8 # 10) + 2 * inject_Z D)%Q in
  (AutoCrop.width b == side /\ AutoCrop.height b == inject_Z m)%Q
  \/ (AutoCrop.width b == inject_Z m /\ AutoCrop.height b == side)%Q ->
  exists e, AutoCrop.cropImageData img b = Throw e.
Proof.
  intros Hm HD Hndiv HL Hsize side Hb.
  set (n := 4 * m + 10 * D).
  assert (side == inject_Z n / inject_Z 5)%Q as Hside.
  { unfold side, n. rewrite inject_Z_plus, !inject_Z_mult.
    change (inject_Z 4) with 4%Q. change (inject_Z 10) with 10%Q.
    change (inject_Z 5) with 5%Q. field. }
  assert (forall a c, 0 <= a -> 0 < c ->
            Qtrunc (inject_Z a / inject_Z c) = a `div` c) as Htrunc.
  { intros a c Ha Hc. unfold Qtrunc.
    assert (Qle_bool 0 (inject_Z a / inject_Z c) = true) as ->.
    { apply Qle_bool_iff. apply Qle_shift_div_l.
      - change 0%Q with (inject_Z 0). by rewrite <- Zlt_Qlt.
      - rewrite Qmult_0_l. change 0%Q with (inject_Z 0). by rewrite <- Zle_Qle. }
    symmetry. apply Zdiv_Qdiv. }
  change (2 ^ 32) with 4294967296 in *.
  assert (0 <= n `div` 5 <= L) as Hq.
  { split; [apply Z.div_pos; lia |]. apply Z.div_le_upper_bound; lia. }
  assert (ToUint32 side = n `div` 5) as Hsw.
  { unfold ToUint32. rewrite (Qtrunc_comp _ _ Hside), Htrunc by lia.
    change (2 ^ 32) with 4294967296. apply Z.mod_small. nia. }
  assert (ToUint32 (inject_Z m) = m) as Hsh.
  { unfold ToUint32. rewrite (Qtrunc_integral _ m) by (done || lia).
    change (2 ^ 32) with 4294967296. apply Z.mod_small. nia. }
  assert (Qtrunc (side * inject_Z m * 4) = (4 * m * n) `div` 5) as Hlen.
  { rewrite <- Htrunc by nia. apply Qtrunc_comp.
    rewrite Hside, !inject_Z_mult. change (inject_Z 4) with 4%Q.
    change (inject_Z 5) with 5%Q. field. }
  assert ((4 * m * n) `div` 5 <> 4 * (n `div` 5) * m) as Hne.
  { pose proof (Z.div_mod n 5 ltac:(lia)) as Hn.
    pose proof (Z.mod_pos_bound n 5 ltac:(lia)) as Ht.
    revert Hn Ht. generalize (n `div` 5) (n `mod` 5). intros q t Hn Ht.
    assert (t <> 0) as Ht0.
    { intros ->. apply Hndiv. exists (m + 2 * D - q). unfold n in Hn. lia. }
    replace (4 * m * n) with ((4 * q * m) * 5 + 4 * m * t) by (rewrite Hn; ring).
    rewrite Z.div_add_l by lia.
    assert (1 <= (4 * m * t) `div` 5); [| lia].
    apply Z.div_le_lower_bound; nia. }
  destruct Hb as [[Hw Hh] | [Hw Hh]].
  - apply (cropImageData_throws img b ((4 * m * n) `div` 5) (n `div` 5) m).
    + etrans; [| exact Hlen]. apply Qtrunc_comp. by rewrite Hw, Hh.
    + apply Z.div_pos; nia.
    + etrans; [| exact Hsw]. unfold ToUint32. by rewrite (Qtrunc_comp _ _ Hw).
    + etrans; [| exact Hsh]. unfold ToUint32. by rewrite (Qtrunc_comp _ _ Hh).
    + done.
  - apply (cropImageData_throws img b ((4 * m * n) `div` 5) m (n `div` 5)).
    + etrans; [| exact Hlen]. apply Qtrunc_comp. rewrite Hw, Hh. ring.
    + apply Z.div_pos; nia.
    + etrans; [| exact Hsh]. unfold ToUint32. by rewrite (Qtrunc_comp _ _ Hw).
    + etrans; [| exact Hsw]. unfold ToUint32. by rewrite (Qtrunc_comp _ _ Hh).
    + lia.
Qed.

Section EmptyMaskCrop.

Variable segmentation : list Z.
Variables W H : Z.
Hypothesis mask_empty : forall x y, ~ foreground segmentation W H x y.
Hypothesis side_large : 250 <= Z.min W H.
Hypothesis side_long : 26 * Z.min W H + 50 <= 25 * Z.max W H.

(** Without a subject and without the minimum-size step, the rectangle
    keeps the fractional side of the fallback square along the longer
    dimension of the image. *)
Lemma findOptimalCropBounds_empty_large :
  let m := Z.min W H in
  let D := Math_round (inject_Z m * (8 # 10) * (15 # 100)) in
  let side := (inject_Z m * (8 # 10) + 2 * inject_Z D)%Q in
  exists b,
    AutoCrop.findOptimalCropBounds segmentation W H
      (AutoCrop.mkAutoCropOptions (Some (15 # 100)) (Some 200%Q)) = Some b
    /\ 0 <= D /\ (side <= inject_Z (Z.max W H))%Q
    /\ ((AutoCrop.width b == side /\ AutoCrop.height b == inject_Z m)%Q
        \/ (AutoCrop.width b == inject_Z m /\ AutoCrop.height b == side)%Q).
Proof.
  intros m D side.
  pose proof (padding_bounds m (Z.max W H) side_large side_long)
    as ([Hlo Hhi] & Hm & HL). cbv zeta in Hlo, Hhi. fold m D in Hlo, Hhi, Hm.
  pose proof (padded_short_side m (Z.max W H) side_large side_long) as Hshort.
  pose proof (padded_long_side m (Z.max W H) side_large side_long) as Hlong.
  pose proof (padded_side_moderate m (Z.max W H) side_large side_long) as Hmod.
  cbv zeta in Hshort, Hlong, Hmod. fold m D in Hshort, Hlong, Hmod.
  fold side in Hshort, Hlong, Hmod.
  assert (0 <= D) as HD.
  { assert (inject_Z (-1) < inject_Z D)%Q as Hlt
      by (change (inject_Z (-1)) with (-1)%Q; lra).
    rewrite <- Zlt_Qlt in Hlt. lia. }
  assert (side <= inject_Z (Z.max W H))%Q as Hfit.
  { eapply Qle_trans; [| exact Hlong].
    set (p := Qmax 0 _). assert (0 <= p)%Q by apply Q.le_max_l. lra. }
  unfold AutoCrop.findOptimalCropBounds.
  rewrite (proj2 (proj1 (findSubjectBounds_box segmentation W H)) mask_empty).
  cbn [default from_option id AutoCrop.paddingPercentage AutoCrop.minCropSize].
  rewrite ensureMinimumSize_large;
    [| unfold AutoCrop.centerFallback; cbn [AutoCrop.width AutoCrop.height];
       fold m; lra ..].
  unfold AutoCrop.applyCropPadding, AutoCrop.centerFallback.
  cbn [AutoCrop.x AutoCrop.y AutoCrop.width AutoCrop.height]. fold m D.
  fold side.
  destruct (Z.le_ge_cases H W) as [HHW | HWH].
  - (* landscape: the height is the smaller side *)
    assert (m = H) as HmH by (unfold m; lia).
    assert (Z.max W H = W) as HLW by lia.
    rewrite HLW in *. rewrite <- HmH.
    destruct Hshort as [Hp0 Hcut]. destruct Hmod as [Hmod _].
    destruct (Qlt_le_dec (inject_Z W) _) as [Hbad |]; [lra |].
    destruct (Qlt_le_dec (inject_Z m) _) as [_ | Hbad]; [| lra].
    eexists. split; [rewrite normalizeAspect_moderate; [reflexivity |] |].
    + cbn [AutoCrop.width AutoCrop.height].
      rewrite (aspectTooExtreme_comp _ side _ (inject_Z m)); [done | reflexivity |].
      rewrite Hp0. ring.
    + split; [done |]. split; [done |]. left.
      cbn [AutoCrop.width AutoCrop.height]. split; [reflexivity |].
      rewrite Hp0. ring.
  - (* portrait: the width is the smaller side *)
    assert (m = W) as HmW by (unfold m; lia).
    assert (Z.max W H = H) as HLH by lia.
    rewrite HLH in *. rewrite <- HmW.
    destruct Hshort as [Hp0 Hcut]. destruct Hmod as [_ Hmod].
    destruct (Qlt_le_dec (inject_Z m) _) as [_ | Hbad]; [| lra].
    destruct (Qlt_le_dec (inject_Z H) _) as [Hbad |]; [lra |].
    eexists. split; [rewrite normalizeAspect_moderate; [reflexivity |] |].
    + cbn [AutoCrop.width AutoCrop.height].
      rewrite (aspectTooExtreme_comp _ (inject_Z m) _ side); [done | | reflexivity].
      rewrite Hp0. ring.
    + split; [done |]. split; [done |]. right.
      cbn [AutoCrop.width AutoCrop.height]. split; [| reflexivity].
      rewrite Hp0. ring.
Qed.

End EmptyMaskCrop.

(** X15: the alert of [handleAutoCrop] is reached.  For an image that no
    pixel of the mask labels, whose smaller side is at least 250 pixels
    and no multiple of 5, and whose longer side is at least
    [1.04 * smaller + 2], the subject crop keeps the fractional side of
    the fallback square and is rejected, the centre crop is rejected too,
    and no crop is installed. *)
Theorem handleAutoCrop_alert (segmentation : list Z) (image : DOM.ImageData) :
  DOM.wf_image image = true ->
  DOM.width image * DOM.height image * 4 < 2 ^ 32 ->
  (forall x y,
     ~ foreground segmentation (DOM.width image) (DOM.height image) x y) ->
  250 <= Z.min (DOM.width image) (DOM.height image) ->
  ~ (5 | Z.min (DOM.width image) (DOM.height image)) ->
  26 * Z.min (DOM.width image) (DOM.height image) + 50
  <= 25 * Z.max (DOM.width image) (DOM.height image) ->
  AutoCrop.autoCropImage segmentation image
    (AutoCrop.mkAutoCropOptions (Some (15 # 100)) (Some 200%Q))
  = AutoCrop.AutoCropFailed
  /\ (exists e, AutoCrop.centerCropImage image (8 # 10) = AutoCrop.Rejected e)
  /\ Editor.handleAutoCrop segmentation image = None.
Proof.
  intros Hwf Hsize Hempty Hm Hndiv Hlong.
  set (m := Z.min (DOM.width image) (DOM.height image)) in *.
  destruct (findOptimalCropBounds_empty_large segmentation _ _ Hempty Hm Hlong)
    as (b & Hb & HD & Hfit & Hsides).
  fold m in Hb, HD, Hfit, Hsides.
  set (D := Math_round (inject_Z m * (8 # 10) * (15 # 100))) in *.
  set (Lg := Z.max (DOM.width image) (DOM.height image)) in *.
  assert (4 * m + 10 * D <= 5 * Lg) as Hle.
  { assert (inject_Z (4 * m + 10 * D) <= inject_Z (5 * Lg))%Q
      as Hle; [| by rewrite <- Zle_Qle in Hle].
    rewrite inject_Z_plus, !inject_Z_mult.
    change (inject_Z 4) with 4%Q. change (inject_Z 10) with 10%Q.
    change (inject_Z 5) with 5%Q. lra. }
  assert (Lg * m * 4 < 2 ^ 32) as Hbytes.
  { change (2 ^ 32) with 4294967296 in *. unfold Lg, m.
    destruct (Z.le_ge_cases (DOM.width image) (DOM.height image));
      [rewrite Z.max_r, Z.min_l by lia | rewrite Z.max_l, Z.min_r by lia]; lia. }
  destruct (fractional_side_throws image b m D Lg ltac:(lia) HD Hndiv Hle Hbytes
              Hsides) as [e He].
  assert (AutoCrop.autoCropImage segmentation image
            (AutoCrop.mkAutoCropOptions (Some (15 # 100)) (Some 200%Q))
          = AutoCrop.AutoCropFailed) as Hauto.
  { unfold AutoCrop.autoCropImage.
    cbn [default from_option id AutoCrop.paddingPercentage AutoCrop.minCropSize].
    by rewrite Hb, He. }
  destruct (centerCropImage_rejected image Hwf Hsize Hndiv) as [e' He'].
  split_and!; [done | by eexists |].
  unfold Editor.handleAutoCrop. by rewrite Hauto, He'.
Qed.

Lemma handleAutoCrop_alert_witness :
  AutoCrop.autoCropImage [] (Samples.solid 90 90 90 255 264 251)
    (AutoCrop.mkAutoCropOptions (Some (15 # 100)) (Some 200%Q))
  = AutoCrop.AutoCropFailed
  /\ (exists e, AutoCrop.centerCropImage (Samples.solid 90 90 90 255 264 251) (8 # 10)
                = AutoCrop.Rejected e)
  /\ Editor.handleAutoCrop [] (Samples.solid 90 90 90 255 264 251) = None.
Proof.
  apply (handleAutoCrop_alert [] (Samples.solid 90 90 90 255 264 251)).
  - apply solid_wf; lia.
  - reflexivity.
  - intros x y (_ & _ & Hfg). unfold aget in Hfg.
    destruct (_ <? 0); discriminate.
  - cbn [DOM.width DOM.height Samples.solid]. lia.
  - cbn [DOM.width DOM.height Samples.solid]. intros [k Hk]. lia.
  - cbn [DOM.width DOM.height Samples.solid]. lia.
Defined.

(** ** The cropper: crops compose *)

(** Two buffers of [w x h] pixels that agree at every channel of every
    pixel are the same buffer. *)
Lemma image_data_ext (a b : list Z) (w h : Z) :
  0 < w -> 0 <= h ->
  Z.of_nat (length a) = w * h * 4 -> Z.of_nat (length b) = w * h * 4 ->
  (forall cx cy c, 0 <= cx < w -> 0 <= cy < h -> 0 <= c < 4 ->
     aget a ((cy * w + cx) * 4 + c) = aget b ((cy * w + cx) * 4 + c)) ->
  a = b.
Proof.
  intros Hw Hh Ha Hb Hsame.
  apply list_eq_same_length with (length a); [lia | done |].
  intros n va vb Hn Hva Hvb.
  set (i := Z.of_nat n).
  assert (0 <= i < w * h * 4) as Hi by (unfold i; lia).
  set (p := i `div` 4). set (c := i `mod` 4).
  set (cy := p `div` w). set (cx := p `mod` w).
  assert (i = 4 * p + c) as Hip by (unfold p, c; apply Z.div_mod; lia).
  assert (0 <= c < 4) as Hc by (unfold c; apply Z.mod_pos_bound; lia).
  assert (p = w * cy + cx) as Hp by (unfold cy, cx; apply Z.div_mod; lia).
  assert (0 <= cx < w) as Hcx by (unfold cx; apply Z.mod_pos_bound; lia).
  assert (0 <= p < w * h) as Hpr by lia.
  assert (0 <= cy < h) as Hcy by nia.
  specialize (Hsame cx cy c Hcx Hcy Hc).
  replace ((cy * w + cx) * 4 + c) with i in Hsame by lia.
  unfold aget, i in Hsame. destruct (Z.ltb_spec (Z.of_nat n) 0); [lia |].
  rewrite Nat2Z.id in Hsame. congruence.
Qed.

Section CropLookup.

Variable img : DOM.ImageData.
Variables x y w h : Z.
Hypothesis w_pos : 0 < w.
Hypothesis h_pos : 0 < h.
Hypothesis size_ok : w * h * 4 < 2 ^ 32.

(** The crop at an integral rectangle, pixel by pixel. *)
Lemma cropImageData_lookup :
  exists out,
    AutoCrop.cropImageData img (AutoCrop.rect x y w h) = Ok out
    /\ DOM.width out = w /\ DOM.height out = h
    /\ Z.of_nat (length (DOM.data out)) = w * h * 4
    /\ forall cx cy c, 0 <= cx < w -> 0 <= cy < h -> 0 <= c < 4 ->
         aget (DOM.data out) ((cy * w + cx) * 4 + c)
         = Some (rd (DOM.data img) (cropSource img x y cy cx c)).
Proof.
  eexists. split; [by apply cropImageData_integral |].
  cbn [DOM.width DOM.height DOM.data].
  assert (Z.of_nat (length (zeros (w * h * 4))) = w * h * 4) as Hzeros.
  { unfold zeros. rewrite length_replicate. nia. }
  split_and!; [done | done | by rewrite storeLoop_length |].
  intros cx cy c Hcx Hcy Hc.
  apply (storeLoop_lookup _ _ _
           (fun cropY cropX c => (cropY * w + cropX) * 4 + c)
           (fun cropY cropX c => rd (DOM.data img) (cropSource img x y cropY cropX c))
           _ cy cx c).
  - apply elem_of_for_range. lia.
  - apply elem_of_for_range. lia.
  - apply elem_of_for_range. lia.
  - rewrite Hzeros. nia.
  - intros y' x' c' Hy'%elem_of_for_range Hx'%elem_of_for_range
      Hc'%elem_of_for_range Heq.
    assert (c' = c) as -> by lia.
    assert (y' * w + x' = cy * w + cx) as Hpix by lia.
    assert (y' = cy) as -> by nia. assert (x' = cx) as -> by lia. done.
Qed.

End CropLookup.

(** X16: crops compose.  Cropping a crop at a rectangle that lies inside
    it is cropping the source at the rectangle moved by the corner of the
    first crop, whether or not the first rectangle lies inside the
    source. *)
Theorem cropImageData_compose (img : DOM.ImageData)
    (x1 y1 w1 h1 x2 y2 w2 h2 : Z) :
  0 < w2 -> 0 < h2 -> 0 <= x2 -> 0 <= y2 -> x2 + w2 <= w1 -> y2 + h2 <= h1 ->
  w1 * h1 * 4 < 2 ^ 32 ->
  exists out1 out2,
    AutoCrop.cropImageData img (AutoCrop.rect x1 y1 w1 h1) = Ok out1
    /\ AutoCrop.cropImageData out1 (AutoCrop.rect x2 y2 w2 h2) = Ok out2
    /\ AutoCrop.cropImageData img (AutoCrop.rect (x1 + x2) (y1 + y2) w2 h2)
       = Ok out2.
Proof.
  intros Hw2 Hh2 Hx2 Hy2 Hxw Hyh Hsize1.
  assert (w2 * h2 * 4 < 2 ^ 32) as Hsize2.
  { change (2 ^ 32) with 4294967296 in *. nia. }
  destruct (cropImageData_lookup img x1 y1 w1 h1) as (out1 & H1 & Hw & Hh & Hl1 & Hv1);
    [lia | lia | done |].
  destruct (cropImageData_lookup out1 x2 y2 w2 h2) as (out2 & H2 & Hw' & Hh' & Hl2 & Hv2);
    [done .. |].
  destruct (cropImageData_lookup img (x1 + x2) (y1 + y2) w2 h2)
    as (out3 & H3 & Hw'' & Hh'' & Hl3 & Hv3); [done .. |].
  exists out1, out2. split_and!; [done | done |]. rewrite H3. f_equal.
  destruct out2 as [d2 ow2 oh2], out3 as [d3 ow3 oh3]. simpl in *.
  rewrite Hw', Hh', Hw'', Hh''.
  f_equal. apply (image_data_ext _ _ w2 h2); [done | lia | done | done |].
  intros cx cy c Hcx Hcy Hc. rewrite Hv2, Hv3 by done. f_equal. symmetry.
  unfold cropSource at 1. rewrite Hw. unfold rd at 1.
  rewrite (Hv1 (x2 + cx) (y2 + cy) c) by lia. simpl.
  unfold cropSource. f_equal. ring.
Qed.

Lemma cropImageData_compose_witness :
  exists out1 out2,
    AutoCrop.cropImageData Samples.textured (AutoCrop.rect 0 1 3 2) = Ok out1
    /\ AutoCrop.cropImageData out1 (AutoCrop.rect 1 0 2 1) = Ok out2
    /\ AutoCrop.cropImageData Samples.textured (AutoCrop.rect (0 + 1) (1 + 0) 2 1)
       = Ok out2.
Proof.
  apply (cropImageData_compose Samples.textured 0 1 3 2 1 0 2 1); lia.
Defined.

(** X17: the crop of an image at its own rectangle is the image. *)
Theorem cropImageData_identity (img : DOM.ImageData) :
  DOM.wf_image img = true ->
  DOM.width img * DOM.height img * 4 < 2 ^ 32 ->
  AutoCrop.cropImageData img (AutoCrop.rect 0 0 (DOM.width img) (DOM.height img))
  = Ok img.
Proof.
  intros Hwf Hsize. pose proof Hwf as (HW & HH & Hlen & _)%wf_image_spec.
  destruct (cropImageData_lookup img 0 0 (DOM.width img) (DOM.height img))
    as (out & Hout & Hw & Hh & Hl & Hv); [done .. |].
  rewrite Hout. f_equal.
  destruct out as [d ow oh], img as [d0 W0 H0]. simpl in *. subst.
  f_equal. apply (image_data_ext _ _ W0 H0); [done | lia | done | done |].
  intros cx cy c Hcx Hcy Hc. rewrite Hv by done.
  unfold cropSource. simpl. rewrite !Z.add_0_l.
  destruct (aget_in_range d0 ((cy * W0 + cx) * 4 + c)) as [v Hd]; [nia |].
  unfold rd. by rewrite Hd.
Qed.

Lemma cropImageData_identity_witness :
  AutoCrop.cropImageData Samples.textured
    (AutoCrop.rect 0 0 (DOM.width Samples.textured) (DOM.height Samples.textured))
  = Ok Samples.textured.
Proof. apply (cropImageData_identity Samples.textured); reflexivity. Defined.

(** * The colour quantizer *)

(** ** Hue, saturation and lightness *)

Section Hsl.

Import ColorAnalysis.

(** The three channels as fractions of 255. *)
Variables r g b : Q.
Hypothesis r_unit : (0 <= r <= 1)%Q.
Hypothesis g_unit : (0 <= g <= 1)%Q.
Hypothesis b_unit : (0 <= b <= 1)%Q.

Let max : Q := Qmax (Qmax r g) b.
Let min : Q := Qmin (Qmin r g) b.

Lemma hsl_extremes :
  (0 <= min /\ min <= max /\ max <= 1)%Q
  /\ (min <= r <= max /\ min <= g <= max /\ min <= b <= max)%Q
  /\ (max == r \/ max == g \/ max == b)%Q.
Proof.
  unfold max, min.
  destruct (Q.max_spec r g) as [[? Hrg] | [? Hrg]];
    destruct (Q.max_spec (Qmax r g) b) as [[? Hm] | [? Hm]];
    destruct (Q.min_spec r g) as [[? Hrg'] | [? Hrg']];
    destruct (Q.min_spec (Qmin r g) b) as [[? Hm'] | [? Hm']];
    rewrite Hm, Hm', ?Hrg, ?Hrg' in *;
    (split_and!; try lra); auto.
Qed.

End Hsl.

Lemma ratio_bounds (n d : Q) :
  (0 < d)%Q -> (- d <= n <= d)%Q ->
  (-1 <= n / d <= 1)%Q /\ (n < 0 -> n / d < 0)%Q /\ (0 <= n -> 0 <= n / d)%Q.
Proof.
  intros Hd [Hlo Hhi]. split_and!.
  - apply Qle_shift_div_l; [done | lra].
  - apply Qle_shift_div_r; [done | lra].
  - intros Hn. apply Qlt_shift_div_r; [done | lra].
  - intros Hn. apply Qle_shift_div_l; [done | lra].
Qed.

Lemma channel_unit (v : Z) : 0 <= v <= 255 -> (0 <= inject_Z v / 255 <= 1)%Q.
Proof.
  intros Hv.
  assert (0 <= inject_Z v <= 255)%Q as [H0 H1].
  { change 0%Q with (inject_Z 0). change 255%Q with (inject_Z 255).
    rewrite <- !Zle_Qle. lia. }
  split; [apply Qle_shift_div_l | apply Qle_shift_div_r]; lra.
Qed.

(** X18: for bytes, [rgbToHsl] returns a hue in [0, 360) and a saturation
    and a lightness in [0, 100]; a grey has hue 0 and saturation 0. *)
Theorem rgbToHsl_ranges (r g b : Z) :
  0 <= r <= 255 -> 0 <= g <= 255 -> 0 <= b <= 255 ->
  let '(h, s, l) := ColorAnalysis.rgbToHsl r g b in
  (0 <= h /\ h < 360)%Q /\ (0 <= s <= 100)%Q /\ (0 <= l <= 100)%Q
  /\ (r = g -> g = b -> (h == 0 /\ s == 0)%Q).
Proof.
  intros Hr Hg Hb. unfold ColorAnalysis.rgbToHsl.
  pose proof (channel_unit r Hr) as Hr'. pose proof (channel_unit g Hg) as Hg'.
  pose proof (channel_unit b Hb) as Hb'.
  assert (r = g -> g = b -> inject_Z r / 255 == inject_Z g / 255
                            /\ inject_Z g / 255 == inject_Z b / 255)%Q as Hgrey
    by (by intros -> ->).
  revert Hr' Hg' Hb' Hgrey.
  generalize (inject_Z r / 255)%Q (inject_Z g / 255)%Q (inject_Z b / 255)%Q.
  clear Hr Hg Hb. intros r' g' b' Hr Hg Hb Hgrey.
  destruct (hsl_extremes r' g' b' Hr Hg Hb) as ((Hmin & Hmm & Hmax) & (Hrr & Hgg & Hbb) & Hwhich).
  cbv zeta in Hmin, Hmm, Hmax, Hrr, Hgg, Hbb, Hwhich.
  set (max := Qmax (Qmax r' g') b') in *. set (min := Qmin (Qmin r' g') b') in *.
  cbv zeta.
  assert (0 <= (max + min) / 2 * 100 <= 100)%Q as Hl by qlra.
  destruct (Qeq_bool max min) eqn:Heq.
  { split_and!; try done; try lra. }
  apply Qeq_bool_neq in Heq.
  assert (0 < max - min)%Q as Hd by lra.
  assert (0 <= (if Qlt_le_dec (1 # 2) ((max + min) / 2)
                then (max - min) / (2 - max - min)
                else (max - min) / (max + min)) <= 1)%Q as Hs.
  { destruct (Qlt_le_dec (1 # 2) ((max + min) / 2)) as [Hl2 | Hl2].
    - split; [apply Qle_shift_div_l | apply Qle_shift_div_r]; qlra.
    - split; [apply Qle_shift_div_l | apply Qle_shift_div_r]; qlra. }
  assert (0 <= (if Qeq_bool max r'
                then (g' - b') / (max - min) + (if Qlt_le_dec g' b' then 6 else 0)
                else if Qeq_bool max g' then (b' - r') / (max - min) + 2
                     else if Qeq_bool max b' then (r' - g') / (max - min) + 4 else 0)
          /\ (if Qeq_bool max r'
              then (g' - b') / (max - min) + (if Qlt_le_dec g' b' then 6 else 0)
              else if Qeq_bool max g' then (b' - r') / (max - min) + 2
                   else if Qeq_bool max b' then (r' - g') / (max - min) + 4 else 0)
             < 6)%Q as Hh.
  { destruct (ratio_bounds (g' - b') (max - min) Hd) as ([? ?] & Hneg & Hpos);
      [lra |].
    destruct (ratio_bounds (b' - r') (max - min) Hd) as ([? ?] & _ & _); [lra |].
    destruct (ratio_bounds (r' - g') (max - min) Hd) as ([? ?] & _ & _); [lra |].
    destruct (Qeq_bool max r'); [| destruct (Qeq_bool max g');
                                   [| destruct (Qeq_bool max b')]]; try lra.
    destruct (Qlt_le_dec g' b') as [Hlt | Hge].
    - specialize (Hneg ltac:(lra)). lra.
    - specialize (Hpos ltac:(lra)). lra. }
  set (s := if Qlt_le_dec (1 # 2) ((max + min) / 2) then _ else _) in *.
  set (h := if Qeq_bool max r' then _ else _) in *.
  split_and!; try qnum.
  intros Hrg Hgb. destruct (Hgrey Hrg Hgb) as [E1 E2].
  destruct Heq. unfold max, min. rewrite E1, E2.
  rewrite !Q.max_id, !Q.min_id. reflexivity.
Qed.

Lemma rgbToHsl_ranges_witness :
  let '(h, s, l) := ColorAnalysis.rgbToHsl 200 30 30 in
  (0 <= h /\ h < 360)%Q /\ (0 <= s <= 100)%Q /\ (0 <= l <= 100)%Q
  /\ (200 = 30 -> 30 = 30 -> (h == 0 /\ s == 0)%Q).
Proof. apply (rgbToHsl_ranges 200 30 30); lia. Defined.

(** ** The working set: how many samples *)

Lemma length_for_step (hi step : Z) :
  0 < step -> 0 <= hi ->
  Z.of_nat (length (for_step hi step)) = (hi + step - 1) `div` step.
Proof.
  intros Hs Hhi. unfold for_step. rewrite length_fmap, length_seqZ.
  rewrite Z2Nat.id; [done |]. apply Z.div_pos; lia.
Qed.

(** The stride of the sampling loop keeps the visits below twice
    [maxSamples]. *)
Lemma sampling_visits (T M : Z) :
  0 < T -> 0 < M ->
  let stride := Z.max 1 (T `div` M) in
  (T * 4 + stride * 4 - 1) `div` (stride * 4) <= Z.min T (2 * M - 1).
Proof.
  intros HT HM stride.
  pose proof (Z.div_mod T M ltac:(lia)) as Hq.
  pose proof (Z.mod_pos_bound T M ltac:(lia)) as Hr.
  pose proof (Z.div_pos T M ltac:(lia) ltac:(lia)) as Hq0.
  assert (1 <= stride) as Hs by (unfold stride; lia).
  assert (stride = 1 /\ T `div` M <= 1 \/ stride = T `div` M /\ 1 <= T `div` M)
    as Hcases by (unfold stride; lia).
  revert Hq Hr Hq0 Hcases. generalize (T `div` M) (T `mod` M). intros q r Hq Hr Hq0 Hcases.
  clearbody stride.
  assert ((T * 4 + stride * 4 - 1) `div` (stride * 4) < Z.min T (2 * M - 1) + 1);
    [| lia].
  apply Z.div_lt_upper_bound; [lia |].
  apply Z.min_case_strong; intros Hmin.
  - nia.
  - destruct Hcases as [[-> Hq1] | [-> Hq1]]; nia.
Qed.

(** X19: [maxSamples] is not a cap.  The working set of a well-formed
    image has at most [min(width * height, 2 * maxSamples - 1)] samples,
    and it can have more than [maxSamples]: the stride is the quotient
    rounded down. *)
Theorem samplePixels_count :
  (forall (img : DOM.ImageData) (maxSamples : Z),
     DOM.wf_image img = true -> 0 < maxSamples ->
     Z.of_nat (length (ColorAnalysis.samplePixels img maxSamples))
     <= Z.min (DOM.width img * DOM.height img) (2 * maxSamples - 1))
  /\ exists (img : DOM.ImageData) (maxSamples : Z),
       DOM.wf_image img = true /\ 0 < maxSamples
       /\ maxSamples < Z.of_nat (length (ColorAnalysis.samplePixels img maxSamples)).
Proof.
  split.
  - intros img maxSamples (HW & HH & Hlen & _)%wf_image_spec HM.
    rewrite samplePixels_workingSet by lia. unfold ColorAnalysis.workingSet.
    rewrite length_fmap.
    etrans; [apply inj_le, length_filter |].
    unfold Math_floor. rewrite <- Zdiv_Qdiv.
    rewrite length_for_step, Hlen by lia.
    apply sampling_visits; nia.
  - exists (Samples.solid 10 200 30 255 3 1), 2.
    split_and!; [reflexivity | lia |]. vm_compute. reflexivity.
Qed.

(** ** The order of the palette *)

Section Vibrancy.

Import ColorAnalysis.

Lemma insertByVibrancy_perm (c : ColorRGB) (sorted : list ColorRGB) :
  insertByVibrancy c sorted ≡ₚ c :: sorted.
Proof.
  induction sorted as [| s rest IH]; simpl; [done |].
  destruct (Qlt_le_dec (vibrancy c) (vibrancy s)); [| done].
  rewrite IH. apply Permutation_swap.
Qed.

Lemma insertByVibrancy_descending (c : ColorRGB) (sorted : list ColorRGB) :
  descending sorted -> descending (insertByVibrancy c sorted).
Proof.
  induction sorted as [| s rest IH]; simpl; [done |].
  intros [Hs Hrest].
  destruct (Qlt_le_dec (vibrancy c) (vibrancy s)) as [Hlt | Hge]; simpl.
  - split; [| by apply IH].
    rewrite insertByVibrancy_perm. constructor; [lra | done].
  - split_and!; [| done | done].
    constructor; [done |].
    eapply Forall_impl; [exact Hs |]. intros x Hx. simpl in Hx. lra.
Qed.

Lemma sortColorsByVibrancy_perm (colors : list ColorRGB) :
  sortColorsByVibrancy colors ≡ₚ colors.
Proof.
  unfold sortColorsByVibrancy.
  induction colors as [| c colors IH]; simpl; [done |].
  by rewrite insertByVibrancy_perm, IH.
Qed.

Lemma sortColorsByVibrancy_descending (colors : list ColorRGB) :
  descending (sortColorsByVibrancy colors).
Proof.
  unfold sortColorsByVibrancy.
  induction colors as [| c colors IH]; simpl; [done |].
  by apply insertByVibrancy_descending.
Qed.

End Vibrancy.

(** X20: the palette is returned most vibrant first: the sorted list
    holds the colours it was given, each as often as before, and no
    colour is followed by a more vibrant one. *)
Theorem sortColorsByVibrancy_sorted (colors : list ColorAnalysis.ColorRGB) :
  ColorAnalysis.sortColorsByVibrancy colors ≡ₚ colors
  /\ descending (ColorAnalysis.sortColorsByVibrancy colors)
  /\ length (ColorAnalysis.sortColorsByVibrancy colors) = length colors.
Proof.
  pose proof (sortColorsByVibrancy_perm colors) as Hperm.
  split_and!; [done | apply sortColorsByVibrancy_descending | by rewrite Hperm].
Qed.

(** ** The colour quantizer: a palette of [k] colours *)

Section Succeeds.

Import ColorAnalysis.

Lemma succeeds_ret {A} (a : A) (P : A -> Prop) : P a -> succeeds (ret a) P.
Proof. intros Ha n. by exists a, n. Qed.

Lemma succeeds_bind {A B} (m : M A) (k : A -> M B) (P : A -> Prop)
    (Q : B -> Prop) :
  succeeds m P -> (forall a, P a -> succeeds (k a) Q) -> succeeds (bind m k) Q.
Proof.
  intros Hm Hk n. destruct (Hm n) as (a & n' & Hmn & Ha).
  unfold bind. rewrite Hmn. by apply Hk.
Qed.

Lemma succeeds_weaken {A} (m : M A) (P Q : A -> Prop) :
  succeeds m P -> (forall a, P a -> Q a) -> succeeds m Q.
Proof.
  intros Hm HPQ n. destruct (Hm n) as (a & n' & Hmn & Ha). exists a, n'. auto.
Qed.

Lemma succeeds_forM {A B} (l : list A) (f : A -> M B) (P : B -> Prop) :
  (forall a, a ∈ l -> succeeds (f a) P) ->
  succeeds (forM l f) (fun vs => length vs = length l /\ Forall P vs).
Proof.
  induction l as [| a l IH]; intros Hf; simpl.
  - by apply succeeds_ret.
  - eapply succeeds_bind; [apply Hf; left |]. intros v Hv.
    eapply succeeds_bind; [apply IH; intros a' Ha'; apply Hf; by right |].
    intros vs [Hlen Hvs]. apply succeeds_ret. simpl. split; [by rewrite Hlen |].
    by constructor.
Qed.

(** A loop whose body keeps an invariant that counts the turns. *)
Lemma succeeds_foldM {A S} (l : list A) (f : S -> A -> M S) (s : S)
    (I : nat -> S -> Prop) :
  I 0%nat s ->
  (forall j s a, a ∈ l -> I j s -> succeeds (f s a) (I (Datatypes.S j))) ->
  succeeds (foldM l f s) (I (length l)).
Proof.
  intros Hs Hf.
  change (I (length l)) with (I (0 + length l)%nat).
  revert Hs. generalize 0%nat. revert s.
  induction l as [| a l IH]; intros s j Hs; simpl.
  - apply succeeds_ret. by rewrite Nat.add_0_r.
  - eapply succeeds_bind; [apply (Hf j); [left | done] |].
    intros s' Hs'. replace (j + Datatypes.S (length l))%nat
      with (Datatypes.S j + length l)%nat by lia.
    apply IH; [| done]. intros j' s'' a' Ha'. apply Hf. by right.
Qed.

End Succeeds.

Section Palette.

Import ColorAnalysis.

Variable Msqrt : Q -> Q.
Variable random : nat -> Q.
Hypothesis random_unit : forall n, (0 <= random n < 1)%Q.

Lemma succeeds_random : succeeds (Math_random random) (fun u => (0 <= u < 1)%Q).
Proof. intros n. exists (random n), (S n). split; [done | apply random_unit]. Qed.

Lemma floor_of_draw (u : Q) (len : Z) :
  (0 <= u < 1)%Q -> 1 <= len -> 0 <= Math_floor (u * inject_Z len) < len.
Proof.
  intros [Hu0 Hu1] Hlen. unfold Math_floor.
  assert (1 <= inject_Z len)%Q as HlenQ by (by rewrite Zle_Qle in Hlen).
  split.
  - change 0 with (Qfloor 0). apply Qfloor_resp_le. nra.
  - pose proof (Qfloor_le (u * inject_Z len)) as Hfl.
    rewrite Zlt_Qlt. nra.
Qed.

Lemma succeeds_randomPixel (pixels : list ColorRGB) :
  pixels <> [] ->
  succeeds (randomPixel random pixels) (fun c => exists p, c = Some p /\ p ∈ pixels).
Proof.
  intros Hne. unfold randomPixel. eapply succeeds_bind; [apply succeeds_random |].
  intros u Hu. apply succeeds_ret. cbv zeta.
  assert (1 <= Z.of_nat (length pixels)) as Hlen
    by (destruct pixels; [done | simpl; lia]).
  pose proof (floor_of_draw u _ Hu Hlen) as [Hi0 Hi1].
  destruct (Z.ltb_spec (Math_floor (u * inject_Z (Z.of_nat (length pixels)))) 0);
    [lia |].
  destruct (lookup_lt_is_Some_2 pixels
              (Z.to_nat (Math_floor (u * inject_Z (Z.of_nat (length pixels))))))
    as [p Hp]; [lia |].
  exists p. split; [done |]. by eapply list_elem_of_lookup_2.
Qed.

Lemma succeeds_colorDistance (p : ColorRGB) (c : option ColorRGB) :
  is_Some c -> succeeds (colorDistance Msqrt (Some p) c) (fun _ => True).
Proof.
  intros [q ->] n. unfold colorDistance, defined, bind, ret.
  eexists _, _. split; [reflexivity | done].
Qed.

Lemma succeeds_nearestSquared (centroids : list (option ColorRGB))
    (pixel : ColorRGB) :
  Forall is_Some centroids ->
  succeeds (nearestSquared Msqrt centroids pixel)
    (fun d => (0 <= default 0 d)%Q).
Proof.
  intros Hc. unfold nearestSquared.
  eapply succeeds_bind.
  - apply (succeeds_foldM _ _ _ (fun _ _ => True)); [done |].
    intros _ m c Hin _. rewrite Forall_forall in Hc.
    eapply succeeds_bind; [apply succeeds_colorDistance; by apply Hc |].
    intros d _. by apply succeeds_ret.
  - intros m _. apply succeeds_ret. destruct m as [m |]; simpl; [nra | lra].
Qed.

Lemma foldl_Qplus_nonneg (l : list Q) (c : Q) :
  (0 <= c)%Q -> Forall (fun d => (0 <= d)%Q) l -> (0 <= foldl Qplus c l)%Q.
Proof.
  revert c. induction l as [| d l IH]; intros c Hc Hl; simpl; [done |].
  inversion Hl; subst. apply IH; [lra | done].
Qed.

(** The scan stops at a pixel as soon as the running sum reaches the
    drawn value, which it does at the latest on the last pixel. *)
Lemma pickWeighted_picks (pixels : list ColorRGB) (distances : list Q)
    (randomValue c : Q) :
  length pixels = length distances -> pixels <> [] ->
  (randomValue <= foldl Qplus c distances)%Q ->
  exists p, pickWeighted pixels distances randomValue c = Some p /\ p ∈ pixels.
Proof.
  revert distances c.
  induction pixels as [| p pixels IH]; intros distances c Hlen Hne Hrv; [done |].
  destruct distances as [| d distances]; [done |]. simpl in *.
  destruct (Qlt_le_dec (c + d) randomValue) as [Hlt | Hge].
  - destruct pixels as [| p' pixels].
    + destruct distances; [simpl in Hrv; lra | done].
    + destruct (IH distances (c + d)%Q) as (q & Hq & Hin); [lia | done | done |].
      exists q. split; [done | by right].
  - exists p. split; [done | left].
Qed.

Lemma succeeds_nextCentroid (pixels : list ColorRGB)
    (centroids : list (option ColorRGB)) (i : Z) :
  pixels <> [] -> Forall is_Some centroids ->
  succeeds (nextCentroid Msqrt random pixels centroids i)
    (fun cs => exists p, p ∈ pixels /\ cs = centroids ++ [Some p]).
Proof.
  intros Hne Hc. unfold nextCentroid.
  eapply succeeds_bind.
  { apply succeeds_forM. intros p _. by apply succeeds_nearestSquared. }
  intros ds [Hlen Hds]. cbv zeta.
  eapply succeeds_bind; [apply succeeds_random |].
  intros u [Hu0 Hu1]. apply succeeds_ret.
  assert (0 <= foldl Qplus 0 (default 0 <$> ds))%Q as Htotal.
  { apply foldl_Qplus_nonneg; [lra |]. by rewrite Forall_fmap. }
  destruct (pickWeighted_picks pixels (default 0%Q <$> ds)
              (u * foldl Qplus 0 (default 0 <$> ds))%Q 0%Q)
    as (p & -> & Hin); [by rewrite length_fmap | done | nra |].
  by exists p.
Qed.

Lemma goodCentroid_is_Some (cs : list (option ColorRGB)) :
  Forall goodCentroid cs -> Forall is_Some cs.
Proof. intros Hcs. eapply Forall_impl; [exact Hcs |]. by intros c (p & -> & _). Qed.

Lemma succeeds_initializeCentroids (pixels : list ColorRGB) (k : Z) :
  pixels <> [] -> Forall byteColor pixels -> 1 <= k ->
  succeeds (initializeCentroids Msqrt random pixels k)
    (fun cs => Z.of_nat (length cs) = k /\ Forall goodCentroid cs).
Proof.
  intros Hne Hbytes Hk. unfold initializeCentroids.
  rewrite Forall_forall in Hbytes.
  eapply succeeds_bind; [by apply succeeds_randomPixel |].
  intros first (p & -> & Hp).
  eapply succeeds_weaken.
  - apply (succeeds_foldM _ _ _
             (fun j cs => length cs = S j /\ Forall goodCentroid cs)).
    + split; [done |]. constructor; [| done]. exists p. auto.
    + intros j cs i _ [Hlen Hcs].
      eapply succeeds_weaken;
        [apply succeeds_nextCentroid; [done | by apply goodCentroid_is_Some] |].
      intros cs' (q & Hq & ->). split; [rewrite length_app; simpl; lia |].
      apply Forall_app. split; [done |]. constructor; [| done]. exists q. auto.
  - intros cs [Hlen Hcs]. split; [| done].
    rewrite Hlen. unfold for_range. rewrite length_seqZ. lia.
Qed.

Lemma succeeds_assignPixel (centroids : list (option ColorRGB))
    (pixel : ColorRGB) :
  Forall is_Some centroids ->
  succeeds (assignPixel Msqrt centroids pixel) (fun _ => True).
Proof.
  intros Hc. unfold assignPixel. rewrite Forall_forall in Hc.
  eapply succeeds_bind.
  - apply (succeeds_foldM _ _ _ (fun _ _ => True)); [done |].
    intros _ [m ci] [c index] Hin%elem_of_zip_l _.
    eapply succeeds_bind; [apply succeeds_colorDistance; by apply Hc |].
    intros d _. by apply succeeds_ret.
  - intros st _. by apply succeeds_ret.
Qed.

Lemma foldl_channel_sum (f : ColorRGB -> Z) (l : list ColorRGB) (acc : Z) :
  Forall (fun p => 0 <= f p <= 255) l ->
  acc <= foldl (fun sum pixel => sum + f pixel) acc l
      <= acc + 255 * Z.of_nat (length l).
Proof.
  revert acc. induction l as [| p l IH]; intros acc Hl; simpl; [lia |].
  inversion Hl; subst. specialize (IH (acc + f p) ltac:(done)). lia.
Qed.

(** The rounded mean of bytes is a byte. *)
Lemma channelMean_byte (f : ColorRGB -> Z) (l : list ColorRGB) :
  l <> [] -> Forall (fun p => 0 <= f p <= 255) l ->
  0 <= channelMean f l <= 255.
Proof.
  intros Hne Hl. unfold channelMean.
  pose proof (foldl_channel_sum f l 0 Hl) as Hsum.
  assert (1 <= Z.of_nat (length l)) as Hlen by (destruct l; [done | simpl; lia]).
  revert Hsum Hlen.
  generalize (foldl (fun sum pixel => sum + f pixel) 0 l) (Z.of_nat (length l)).
  intros s n Hs Hn.
  assert (0 <= inject_Z s / inject_Z n <= 255)%Q as [Hlo Hhi].
  { assert (inject_Z 0 < inject_Z n)%Q as Hn0 by (rewrite <- Zlt_Qlt; lia).
    assert (inject_Z 0 <= inject_Z s)%Q as Hs0 by (rewrite <- Zle_Qle; lia).
    split.
    - apply Qle_shift_div_l; [done |]. by rewrite Qmult_0_l.
    - apply Qle_shift_div_r; [done |].
      change 255%Q with (inject_Z 255). rewrite <- inject_Z_mult, <- Zle_Qle. lia. }
  unfold Math_round. split.
  - change 0 with (Qfloor 0). apply Qfloor_resp_le. lra.
  - change 255 with (Qfloor (255 + (1 # 2))). apply Qfloor_resp_le. lra.
Qed.

Lemma cluster_subset (pixels : list ColorRGB) (assignments : list Z) (i : Z)
    (P : ColorRGB -> Prop) :
  Forall P pixels ->
  Forall P (fst <$> filter (fun pa => snd pa = i) (zip pixels assignments)).
Proof.
  rewrite !Forall_forall. intros HP p Hin.
  apply list_elem_of_fmap in Hin as ([q a] & -> & Hin).
  apply list_elem_of_filter in Hin as [_ Hin]. apply elem_of_zip_l in Hin. auto.
Qed.

Lemma succeeds_updateCentroids (pixels : list ColorRGB) (assignments : list Z)
    (k : Z) :
  pixels <> [] -> Forall byteColor pixels -> 0 <= k ->
  succeeds (updateCentroids random pixels assignments k)
    (fun cs => Z.of_nat (length cs) = k /\ Forall goodCentroid cs).
Proof.
  intros Hne Hbytes Hk. unfold updateCentroids.
  eapply succeeds_weaken.
  - apply (succeeds_foldM _ _ _
             (fun j cs => length cs = j /\ Forall goodCentroid cs)); [done |].
    intros j cs i _ [Hlen Hcs]. cbv zeta.
    pose proof (cluster_subset pixels assignments i _ Hbytes) as Hcl.
    destruct (fst <$> filter (fun pa => snd pa = i) (zip pixels assignments))
      as [| p cluster] eqn:Hcluster.
    + eapply succeeds_bind; [by apply succeeds_randomPixel |].
      intros c (q & -> & Hq). apply succeeds_ret.
      split; [rewrite length_app; simpl; lia |].
      apply Forall_app. split; [done |]. constructor; [| done].
      exists q. split; [done |]. rewrite Forall_forall in Hbytes. auto.
    + apply succeeds_ret. split; [rewrite length_app; simpl; lia |].
      apply Forall_app. split; [done |]. constructor; [| done].
      eexists. split; [done |].
      unfold byteColor; simpl;
        split_and!; apply channelMean_byte; try done;
        (eapply Forall_impl; [exact Hcl |]); intros q (? & ? & ?); done.
  - intros cs [Hlen Hcs]. split; [| done].
    rewrite Hlen. unfold for_range. rewrite length_seqZ. lia.
Qed.

Lemma succeeds_centroidsConverged (oldCentroids newCentroids : list (option ColorRGB)) :
  Forall is_Some oldCentroids -> Forall is_Some newCentroids ->
  (length oldCentroids <= length newCentroids)%nat ->
  succeeds (centroidsConverged Msqrt oldCentroids newCentroids) (fun _ => True).
Proof.
  revert newCentroids.
  induction oldCentroids as [| o old IH]; intros new Hold Hnew Hlen; simpl.
  - by apply succeeds_ret.
  - inversion Hold as [| ? ? [p ->] Hold']; subst.
    destruct new as [| c new]; [simpl in Hlen; lia |].
    inversion Hnew as [| ? ? [q ->] Hnew']; subst. simpl in *.
    eapply succeeds_bind; [by apply succeeds_colorDistance |].
    intros d _. destruct (Qlt_le_dec 1 d); [by apply succeeds_ret |].
    apply IH; [done | done | lia].
Qed.

Lemma succeeds_iterate (fuel : nat) (pixels : list ColorRGB) (k : Z)
    (centroids : list (option ColorRGB)) :
  pixels <> [] -> Forall byteColor pixels ->
  Z.of_nat (length centroids) = k -> Forall goodCentroid centroids ->
  succeeds (iterate Msqrt random fuel pixels k centroids)
    (fun cs => Z.of_nat (length cs) = k /\ Forall goodCentroid cs).
Proof.
  intros Hne Hbytes. revert centroids.
  induction fuel as [| fuel IH]; intros centroids Hlen Hcs; simpl.
  - by apply succeeds_ret.
  - eapply succeeds_bind.
    { apply succeeds_forM. intros p _.
      apply succeeds_assignPixel. by apply goodCentroid_is_Some. }
    intros assignments _.
    eapply succeeds_bind; [apply succeeds_updateCentroids; [done | done | lia] |].
    intros new [Hlen' Hnew].
    eapply succeeds_bind.
    { apply succeeds_centroidsConverged;
        [by apply goodCentroid_is_Some | by apply goodCentroid_is_Some | lia]. }
    intros [] _; [by apply succeeds_ret | by apply IH].
Qed.

Lemma samplePixels_bytes (img : DOM.ImageData) (maxSamples : Z) :
  DOM.wf_image img = true -> Forall byteColor (samplePixels img maxSamples).
Proof.
  intros (_ & _ & _ & Hb)%wf_image_spec. unfold samplePixels.
  rewrite foldl_sampleStep. simpl. rewrite Forall_fmap.
  apply Forall_forall. intros i _. unfold byteColor; simpl.
  split_and!; by apply rd_byte.
Qed.

Lemma omap_good (cs : list (option ColorRGB)) :
  Forall goodCentroid cs ->
  forallb (fun c => bool_decide (is_Some c)) cs = true
  /\ length (omap id cs) = length cs /\ Forall byteColor (omap id cs).
Proof.
  induction 1 as [| c cs (p & -> & Hp) _ (IH1 & IH2 & IH3)]; [done |].
  simpl. split_and!; [done | by rewrite <- IH2 | by constructor].
Qed.

End Palette.

(** With draws in [0, 1) and enough samples the extraction returns, and
    what it returns is a palette. *)
Lemma extractColorPalette_succeeds (Msqrt : Q -> Q) (random : nat -> Q)
    (img : DOM.ImageData) (k maxIterations maxSamples : Z) (seed : nat) :
  (forall n, (0 <= random n < 1)%Q) ->
  DOM.wf_image img = true ->
  1 <= k <= Z.of_nat (length (ColorAnalysis.samplePixels img maxSamples)) ->
  exists palette seed',
    ColorAnalysis.extractColorPalette Msqrt random img k maxIterations
      maxSamples seed = Ok (palette, seed')
    /\ Z.of_nat (length (ColorAnalysis.colors palette)) = k
    /\ Forall byteColor (ColorAnalysis.colors palette)
    /\ descending (ColorAnalysis.colors palette)
    /\ ColorAnalysis.totalPixelsAnalyzed palette
       = Z.of_nat (length (ColorAnalysis.samplePixels img maxSamples)).
Proof.
  intros Hrandom Hwf [Hk1 Hkn].
  pose proof (samplePixels_bytes img maxSamples Hwf) as Hbytes.
  unfold ColorAnalysis.extractColorPalette.
  set (pixels := ColorAnalysis.samplePixels img maxSamples) in *.
  assert (pixels <> []) as Hne by (intros Heq; rewrite Heq in Hkn; simpl in Hkn; lia).
  destruct (Z.ltb_spec (Z.of_nat (length pixels)) k) as [| _]; [lia |].
  destruct (succeeds_initializeCentroids Msqrt random Hrandom pixels k
              Hne Hbytes Hk1 seed) as (cs & n1 & Hinit & Hlen & Hcs).
  destruct (succeeds_iterate Msqrt random Hrandom (Z.to_nat maxIterations)
              pixels k cs Hne Hbytes Hlen Hcs n1) as (cs' & n2 & Hiter & Hlen' & Hcs').
  destruct (omap_good cs' Hcs') as (Hall & Hlo & Hbo).
  unfold ColorAnalysis.bind at 1. rewrite Hinit.
  unfold ColorAnalysis.bind at 1. rewrite Hiter, Hall.
  eexists _, _. split; [reflexivity |]. simpl.
  pose proof (sortColorsByVibrancy_perm (omap id cs')) as Hperm.
  split_and!.
  - by rewrite Hperm, Hlo.
  - by rewrite Hperm.
  - apply sortColorsByVibrancy_descending.
  - done.
Qed.

(** X21: the quantizer returns a palette.  With draws in [0, 1), a
    well-formed image and a [k] between 1 and the number of samples, the
    extraction fulfils, for every [maxIterations]: the palette has
    exactly [k] colours, every channel of every colour is a byte, the
    colours stand most vibrant first, and the count of analysed pixels
    is the number of samples. *)
Theorem extractColorPalette_fulfils (Msqrt : Q -> Q) (random : nat -> Q)
    (img : DOM.ImageData) (k maxIterations maxSamples : Z) (seed : nat) :
  (forall n, (0 <= random n < 1)%Q) ->
  DOM.wf_image img = true ->
  1 <= k <= Z.of_nat (length (ColorAnalysis.samplePixels img maxSamples)) ->
  exists palette seed',
    ColorAnalysis.extractColorPalette Msqrt random img k maxIterations
      maxSamples seed = Ok (palette, seed')
    /\ Z.of_nat (length (ColorAnalysis.colors palette)) = k
    /\ Forall byteColor (ColorAnalysis.colors palette)
    /\ descending (ColorAnalysis.colors palette)
    /\ ColorAnalysis.totalPixelsAnalyzed palette
       = Z.of_nat (length (ColorAnalysis.samplePixels img maxSamples)).
Proof. apply extractColorPalette_succeeds. Qed.

Lemma extractColorPalette_fulfils_witness :
  exists palette seed',
    ColorAnalysis.extractColorPalette Samples.sqrtUp Samples.dice
      Samples.palette4x2 3 50 5000 0%nat = Ok (palette, seed')
    /\ Z.of_nat (length (ColorAnalysis.colors palette)) = 3
    /\ Forall byteColor (ColorAnalysis.colors palette)
    /\ descending (ColorAnalysis.colors palette)
    /\ ColorAnalysis.totalPixelsAnalyzed palette
       = Z.of_nat (length (ColorAnalysis.samplePixels Samples.palette4x2 5000)).
Proof.
  apply (extractColorPalette_fulfils Samples.sqrtUp Samples.dice
           Samples.palette4x2 3 50 5000 0%nat).
  - intros n. unfold Samples.dice.
    pose proof (Z.mod_pos_bound (Z.of_nat n) 7 ltac:(lia)) as Hm.
    unfold Qle, Qlt. simpl. lia.
  - reflexivity.
  - vm_compute. split; discriminate.
Defined.

(** X25: the palette button.  With draws in [0, 1) and a well-formed
    image, [handleColorPalette] ends in its alert exactly when fewer
    than five samples are left of the image; otherwise it installs a
    palette of exactly five colours of bytes, most vibrant first, with
    the number of samples as the count of analysed pixels. *)
Theorem handleColorPalette_outcome (Msqrt : Q -> Q) (random : nat -> Q)
    (img : DOM.ImageData) (seed : nat) :
  (forall n, (0 <= random n < 1)%Q) ->
  DOM.wf_image img = true ->
  let n := Z.of_nat (length (ColorAnalysis.workingSet img 5000)) in
  (Editor.handleColorPalette Msqrt random img seed = Editor.PaletteAlert
   <-> n < 5)
  /\ (5 <= n ->
      exists colors rate,
        Editor.handleColorPalette Msqrt random img seed
        = Editor.PaletteSet colors n rate
        /\ length colors = 5%nat /\ Forall byteColor colors
        /\ descending colors).
Proof.
  intros Hrandom Hwf n.
  pose proof (samplePixels_workingSet img 5000 ltac:(lia)) as Hsame.
  unfold Editor.handleColorPalette.
  destruct (Z.lt_ge_cases n 5) as [Hlt | Hge].
  - destruct (extractColorPalette_guard Msqrt random img 5 50 5000 seed)
      as [Hthrow _].
    rewrite Hsame in Hthrow. rewrite (Hthrow Hlt).
    split; [done | lia].
  - destruct (extractColorPalette_succeeds Msqrt random img 5 50 5000 seed
                Hrandom Hwf) as (palette & seed' & -> & Hlen & Hbytes & Hdesc & Htotal).
    { rewrite Hsame. fold n. lia. }
    rewrite Hsame in Htotal. fold n in Htotal.
    split; [split; [done | lia] |].
    intros _. eexists _, _. rewrite Htotal. split; [reflexivity |].
    split_and!; [lia | done | done].
Qed.

Lemma handleColorPalette_outcome_witness :
  let n := Z.of_nat (length (ColorAnalysis.workingSet Samples.palette4x2 5000)) in
  (Editor.handleColorPalette Samples.sqrtUp Samples.dice Samples.palette4x2 0%nat
   = Editor.PaletteAlert <-> n < 5)
  /\ (5 <= n ->
      exists colors rate,
        Editor.handleColorPalette Samples.sqrtUp Samples.dice Samples.palette4x2
          0%nat
        = Editor.PaletteSet colors n rate
        /\ length colors = 5%nat /\ Forall byteColor colors
        /\ descending colors).
Proof.
  apply (handleColorPalette_outcome Samples.sqrtUp Samples.dice
           Samples.palette4x2 0%nat).
  - intros n. unfold Samples.dice.
    pose proof (Z.mod_pos_bound (Z.of_nat n) 7 ltac:(lia)) as Hm.
    unfold Qle, Qlt. simpl. lia.
  - reflexivity.
Defined.

(** ** The colour quantizer: no cluster asked for *)

Section NoClusters.

Import ColorAnalysis.

Variable Msqrt : Q -> Q.
Variable random : nat -> Q.

Lemma for_range_empty (lo hi : Z) : hi <= lo -> for_range lo hi = [].
Proof. intros Hle. unfold for_range. destruct (hi - lo) eqn:Hd; try lia; done. Qed.

Lemma colorDistance_undefined (c : option ColorRGB) (n : nat) :
  colorDistance Msqrt c None n = Throw TypeError.
Proof. by destruct c. Qed.

(** With [k <= 0] the update returns no centroid, and the convergence
    test reads a channel of [undefined]. *)
Lemma iterate_no_clusters (fuel : nat) (pixels : list ColorRGB) (k : Z)
    (first : option ColorRGB) (n : nat) :
  k <= 0 -> iterate Msqrt random (S fuel) pixels k [first] n = Throw TypeError.
Proof.
  intros Hk. simpl. unfold updateCentroids. rewrite for_range_empty by lia.
  unfold bind at 1.
  destruct (assignPixelsToClusters Msqrt pixels [first] n)
    as [[assignments n'] | e] eqn:Hassign.
  - unfold bind, foldM, ret at 1. by rewrite colorDistance_undefined.
  - f_equal. by eapply onlyTypeError_assign.
Qed.

End NoClusters.

(** X22: a call that asks for no cluster, or for a negative number of
    them, is not turned away by the guard on the number of samples: with
    at least one iteration allowed it always rejects with a [TypeError],
    whatever the image and the draws. *)
Theorem extractColorPalette_no_clusters (Msqrt : Q -> Q) (random : nat -> Q)
    (img : DOM.ImageData) (k maxIterations maxSamples : Z) (seed : nat) :
  k <= 0 -> 1 <= maxIterations ->
  ColorAnalysis.extractColorPalette Msqrt random img k maxIterations maxSamples
    seed = Throw TypeError.
Proof.
  intros Hk Hmax. unfold ColorAnalysis.extractColorPalette.
  destruct (Z.ltb_spec
              (Z.of_nat (length (ColorAnalysis.samplePixels img maxSamples))) k);
    [lia |].
  unfold ColorAnalysis.initializeCentroids. rewrite for_range_empty by lia.
  destruct (Z.to_nat maxIterations) as [| fuel] eqn:Hfuel; [lia |].
  unfold ColorAnalysis.bind at 1 2.
  unfold ColorAnalysis.randomPixel, ColorAnalysis.bind at 1,
    ColorAnalysis.Math_random, ColorAnalysis.ret at 1.
  cbn [ColorAnalysis.foldM]. unfold ColorAnalysis.ret at 1.
  unfold ColorAnalysis.bind at 1. by rewrite iterate_no_clusters.
Qed.

Lemma extractColorPalette_no_clusters_witness :
  ColorAnalysis.extractColorPalette Samples.sqrtUp Samples.dice
    Samples.palette4x2 0 50 5000 0%nat = Throw TypeError.
Proof.
  apply (extractColorPalette_no_clusters Samples.sqrtUp Samples.dice
           Samples.palette4x2 0 50 5000 0%nat); lia.
Defined.

(** ** The display helpers: hexadecimal notation and names *)

Section Display.

Import ColorDisplay.

Lemma hexDigit_code (d : Z) :
  0 <= d <= 15 ->
  Z.of_nat (Ascii.nat_of_ascii (hexDigit d)) = if d <? 10 then d + 48 else d + 87.
Proof.
  intros Hd.
  assert (d = 0 \/ d = 1 \/ d = 2 \/ d = 3 \/ d = 4 \/ d = 5 \/ d = 6 \/ d = 7
          \/ d = 8 \/ d = 9 \/ d = 10 \/ d = 11 \/ d = 12 \/ d = 13 \/ d = 14
          \/ d = 15) as Hcases by lia.
  destruct_or!; subst d; reflexivity.
Qed.

Lemma hexDigit_inj (d1 d2 : Z) :
  0 <= d1 <= 15 -> 0 <= d2 <= 15 -> hexDigit d1 = hexDigit d2 -> d1 = d2.
Proof.
  intros H1 H2 Heq.
  pose proof (hexDigit_code d1 H1) as E1. pose proof (hexDigit_code d2 H2) as E2.
  rewrite Heq in E1. rewrite E1 in E2.
  destruct (Z.ltb_spec d1 10), (Z.ltb_spec d2 10); lia.
Qed.

Lemma hexDigits_one (fuel : nat) (q : Z) (acc : string) :
  0 <= q < 16 -> hexDigits fuel q acc = String (hexDigit q) acc.
Proof.
  intros Hq. rewrite <- (Z.mod_small q 16) at 2 by done.
  destruct fuel; simpl; [done |]. by destruct (Z.ltb_spec q 16); [| lia].
Qed.

(** A byte is written with its two hexadecimal digits. *)
Lemma toHex_byte (n : Z) :
  0 <= n <= 255 ->
  toHex n = String (hexDigit (n `div` 16)) (String (hexDigit (n `mod` 16)) "").
Proof.
  intros Hn. unfold toHex. rewrite Math_round_Z. unfold toString16.
  destruct (Z.ltb_spec n 0); [lia |].
  pose proof (Z.div_mod n 16 ltac:(lia)) as Hdm.
  pose proof (Z.mod_pos_bound n 16 ltac:(lia)) as Hm.
  destruct (Z.ltb_spec n 16) as [Hlt | Hge].
  - rewrite hexDigits_one by lia. simpl.
    replace (n `div` 16) with 0 by lia. by rewrite Z.mod_small by lia.
  - destruct (Z.to_nat n) as [| fuel] eqn:Hfuel; [lia |].
    assert (hexDigits (S fuel) n ""
            = String (hexDigit (n `div` 16)) (String (hexDigit (n `mod` 16)) ""))
      as ->; [| done].
    cbn [hexDigits]. destruct (Z.ltb_spec n 16); [lia |].
    apply hexDigits_one. lia.
Qed.

Lemma toHex_byte_inj (n m : Z) :
  0 <= n <= 255 -> 0 <= m <= 255 -> toHex n = toHex m -> n = m.
Proof.
  intros Hn Hm. rewrite !toHex_byte by done. intros [= Hhi Hlo].
  pose proof (Z.div_mod n 16 ltac:(lia)). pose proof (Z.div_mod m 16 ltac:(lia)).
  pose proof (Z.mod_pos_bound n 16 ltac:(lia)).
  pose proof (Z.mod_pos_bound m 16 ltac:(lia)).
  apply hexDigit_inj in Hhi; [| lia | lia]. apply hexDigit_inj in Hlo; [| lia | lia].
  lia.
Qed.

End Display.

(** X23: the hexadecimal notation of a colour of bytes is [#] and six
    digits, and it tells the colours apart: two colours of bytes with the
    same notation are the same colour.  Outside of the bytes it does not:
    a channel above 255 is written with three digits, and [#1234567] is
    the notation of two colours. *)
Theorem rgbToHex_bytes (r g b r' g' b' : Z) :
  0 <= r <= 255 -> 0 <= g <= 255 -> 0 <= b <= 255 ->
  0 <= r' <= 255 -> 0 <= g' <= 255 -> 0 <= b' <= 255 ->
  String.length (ColorDisplay.rgbToHex r g b) = 7%nat
  /\ (ColorDisplay.rgbToHex r g b = ColorDisplay.rgbToHex r' g' b' ->
      r = r' /\ g = g' /\ b = b')
  /\ ColorDisplay.rgbToHex 291 69 103 = ColorDisplay.rgbToHex 18 837 103.
Proof.
  intros Hr Hg Hb Hr' Hg' Hb'. unfold ColorDisplay.rgbToHex.
  split_and!.
  - rewrite !toHex_byte by done. reflexivity.
  - intros Heq.
    assert (ColorDisplay.toHex r = ColorDisplay.toHex r'
            /\ ColorDisplay.toHex g = ColorDisplay.toHex g'
            /\ ColorDisplay.toHex b = ColorDisplay.toHex b') as (Er & Eg & Eb).
    { revert Heq. rewrite !toHex_byte by done. simpl. intros [= -> -> -> -> -> ->].
      done. }
    split_and!; by apply toHex_byte_inj.
  - vm_compute. reflexivity.
Qed.

Lemma rgbToHex_bytes_witness :
  String.length (ColorDisplay.rgbToHex 200 30 7) = 7%nat
  /\ (ColorDisplay.rgbToHex 200 30 7 = ColorDisplay.rgbToHex 200 30 7 ->
      200 = 200 /\ 30 = 30 /\ 7 = 7)
  /\ ColorDisplay.rgbToHex 291 69 103 = ColorDisplay.rgbToHex 18 837 103.
Proof. apply (rgbToHex_bytes 200 30 7 200 30 7); lia. Defined.

(** The lightness of a grey of level [v], in percent, against a
    threshold of [getColorName]. *)
Lemma grey_lightness (v t : Z) :
  let c := (inject_Z v / 255)%Q in
  ((c + c) / 2 * 100 < inject_Z (20 * t) <-> inject_Z v < inject_Z (51 * t))%Q.
Proof.
  intros c. subst c. rewrite !inject_Z_mult.
  change (inject_Z 20) with 20%Q. change (inject_Z 51) with 51%Q.
  split; intros H; qnum.
Qed.

(** X24: the name of a grey.  A colour of bytes with three equal
    channels [v] is named by [v] alone: [Dark Gray] below 51, [Gray]
    below 102, [Light Gray] below 153, [Silver] below 204 and [White]
    from 204 on; black is a [Dark Gray], and no grey gets the name of a
    hue. *)
Theorem getColorName_grey (v : Z) :
  0 <= v <= 255 ->
  ColorDisplay.getColorName v v v
  = if v <? 51 then "Dark Gray"%string
    else if v <? 102 then "Gray"%string
    else if v <? 153 then "Light Gray"%string
    else if v <? 204 then "Silver"%string
    else "White"%string.
Proof.
  intros Hv. unfold ColorDisplay.getColorName, ColorAnalysis.rgbToHsl.
  set (c := (inject_Z v / 255)%Q).
  assert (Qmax c c = c) as Emax
    by (unfold Qmax, GenericMinMax.gmax; by destruct (c ?= c)%Q).
  assert (Qmin c c = c) as Emin
    by (unfold Qmin, GenericMinMax.gmin; by destruct (c ?= c)%Q).
  rewrite !Emax, !Emin.
  assert (Qeq_bool c c = true) as -> by (by apply Qeq_bool_iff).
  cbv beta iota zeta.
  destruct (Qlt_le_dec (0 * 100) 10) as [_ | Hs]; [| exfalso; lra].
  pose proof (grey_lightness v 1) as H1. pose proof (grey_lightness v 2) as H2.
  pose proof (grey_lightness v 3) as H3. pose proof (grey_lightness v 4) as H4.
  cbv zeta in H1, H2, H3, H4. fold c in H1, H2, H3, H4.
  rewrite <- !Zlt_Qlt in H1, H2, H3, H4.
  change (inject_Z (20 * 1)) with 20%Q in H1.
  change (inject_Z (20 * 2)) with 40%Q in H2.
  change (inject_Z (20 * 3)) with 60%Q in H3.
  change (inject_Z (20 * 4)) with 80%Q in H4.
  repeat match goal with
         | |- context [Qlt_le_dec ?a ?b] =>
             let Hq := fresh "Hq" in
             destruct (Qlt_le_dec a b) as [Hq | Hq%Qle_not_lt];
             first [rewrite H1 in Hq | rewrite H2 in Hq | rewrite H3 in Hq
                   | rewrite H4 in Hq]
         end;
    repeat match goal with
           | |- context [?a <? ?b] => destruct (Z.ltb_spec a b)
           end;
    first [reflexivity | exfalso; lia].
Qed.

Lemma getColorName_grey_witness :
  ColorDisplay.getColorName 0 0 0
  = if 0 <? 51 then "Dark Gray"%string
    else if 0 <? 102 then "Gray"%string
    else if 0 <? 153 then "Light Gray"%string
    else if 0 <? 204 then "Silver"%string
    else "White"%string.
Proof. apply (getColorName_grey 0). lia. Defined.
